(** * GPS point cache: shallow embedding and verified properties

    Embedding of
      - src/features/gps/storage/gpsCache.ts   (bounded point cache)
      - src/features/gps/screens/GPSLiveDataScreen.tsx (ingestion throttle,
        the [watchPosition] success callback)
      - src/screens/HomeScreen.tsx             (polling reader, [load])
    together with the part of the JavaScript runtime these functions call:
    [JSON.stringify], [JSON.parse], [Array.isArray], [Array.prototype.slice]
    and promises. *)

From Stdlib Require Import ZArith NArith Ascii String List Lia Bool.
From stdpp Require Import base option list strings gmap.

Local Open Scope string_scope.
Local Open Scope list_scope.

(** ** JavaScript numbers

    A JavaScript number is an IEEE-754 double.  The cache only moves numbers
    through [JSON.stringify] and [JSON.parse], so a finite non-zero number is
    represented by the decimal expansion that [Number::toString] prints for
    it (ECMA-262, 6.1.6.1.20): the shortest digit string [s] that reads back
    as the same number and a decimal exponent.  [Finite neg q r e] stands for
    [(-1)^neg * (10*q + r) * 10^e]; the last digit [r] is non-zero, so every
    value has exactly one representation.  The non-finite values and the two
    zeros are separate constructors.

    Every finite double is such a decimal, and two doubles are equal exactly
    when their decimals are.  The type also holds decimals that are no
    double (more digits than a double has, or out of its range): reading a
    number text is exact here, where [JSON.parse] rounds to the nearest
    double.  On the texts [JSON.stringify] writes the two agree. *)

Inductive nzdigit : Type := D1 | D2 | D3 | D4 | D5 | D6 | D7 | D8 | D9.

Definition nzdigit_val (d : nzdigit) : N :=
  match d with
  | D1 => 1 | D2 => 2 | D3 => 3 | D4 => 4 | D5 => 5
  | D6 => 6 | D7 => 7 | D8 => 8 | D9 => 9
  end%N.

Definition nzdigit_of_N (n : N) : option nzdigit :=
  match n with
  | 1 => Some D1 | 2 => Some D2 | 3 => Some D3 | 4 => Some D4 | 5 => Some D5
  | 6 => Some D6 | 7 => Some D7 | 8 => Some D8 | 9 => Some D9
  | _ => None
  end%N.

Inductive number : Type :=
  | NaN
  | PosInfinity
  | NegInfinity
  | PosZero
  | NegZero
  | Finite (neg : bool) (q : N) (r : nzdigit) (e : Z).

(** [Number.isFinite]. *)
Definition Number_isFinite (x : number) : bool :=
  match x with
  | NaN | PosInfinity | NegInfinity => false
  | _ => true
  end.

(** [strip10 fuel m e]: the decimal [m * 10^e] with up to [fuel] trailing
    zeros of [m] moved into the exponent. *)
Fixpoint strip10 (fuel : nat) (m : N) (e : Z) : N * Z :=
  match fuel with
  | O => (m, e)
  | S f => if (m mod 10 =? 0)%N then strip10 f (m / 10)%N (e + 1)%Z else (m, e)
  end.

(** The number [(-1)^neg * m * 10^e], for a mantissa [m] of at most [digits]
    decimal digits.  The last branch is never taken: a non-zero mantissa
    stripped of its trailing zeros ends in a non-zero digit. *)
Definition number_of_decimal (neg : bool) (digits : nat) (m : N) (e : Z) : number :=
  if (m =? 0)%N then (if neg then NegZero else PosZero)
  else
    let '(m', e') := strip10 digits m e in
    match nzdigit_of_N (m' mod 10)%N with
    | Some r => Finite neg (m' / 10)%N r e'
    | None => NaN
    end.

(** The integer [z] as a number ([0] is [+0]). *)
Definition number_of_Z (z : Z) : number :=
  number_of_decimal (z <? 0)%Z (S (N.to_nat (N.log2 (Z.abs_N z)))) (Z.abs_N z) 0.

(** ** Decimal digits *)

Definition digit_char (d : N) : ascii := ascii_of_N (48 + d).

Definition char_digit (c : ascii) : option N :=
  let n := N_of_ascii c in
  if (48 <=? n)%N && (n <=? 57)%N then Some (n - 48)%N else None.

Fixpoint digits_fuel (fuel : nat) (n : N) : list N :=
  match fuel with
  | O => [n]
  | S f => if (n <? 10)%N then [n] else digits_fuel f (n / 10)%N ++ [(n mod 10)%N]
  end.

(** The decimal digits of [n], most significant first. *)
Definition N_digits (n : N) : list N := digits_fuel (N.to_nat (N.size n)) n.

Definition digits_value (ds : list N) : N :=
  fold_left (fun acc d => (10 * acc + d)%N) ds 0%N.

Fixpoint digits_text (ds : list N) : string :=
  match ds with
  | [] => ""
  | d :: ds' => String (digit_char d) (digits_text ds')
  end.

Definition zeros (n : nat) : list N := replicate n 0%N.

(** ** [Number::toString] (radix 10) and the number production of
    [JSON.stringify] *)

Definition exponent_text (x : Z) : string :=
  (if (x <? 0)%Z then "-" else "+") +:+ digits_text (N_digits (Z.abs_N x)).

(** [format_decimal ds n]: steps 6 to 11 of [Number::toString] for the digit
    string [ds] of length [k] and the exponent [n] (the value is
    [0.ds * 10^n]). *)
Definition format_decimal (ds : list N) (n : Z) : string :=
  let k := Z.of_nat (length ds) in
  if (k <=? n)%Z && (n <=? 21)%Z then
    digits_text (ds ++ zeros (Z.to_nat (n - k)))
  else if (0 <? n)%Z && (n <=? 21)%Z then
    digits_text (take (Z.to_nat n) ds) +:+ "." +:+ digits_text (drop (Z.to_nat n) ds)
  else if (-6 <? n)%Z && (n <=? 0)%Z then
    "0." +:+ digits_text (zeros (Z.to_nat (- n)) ++ ds)
  else
    match ds with
    | [d] => digits_text [d] +:+ "e" +:+ exponent_text (n - 1)
    | _ => digits_text (take 1 ds) +:+ "." +:+ digits_text (drop 1 ds)
             +:+ "e" +:+ exponent_text (n - 1)
    end.

Definition Number_toString (x : number) : string :=
  match x with
  | NaN => "NaN"
  | PosInfinity => "Infinity"
  | NegInfinity => "-Infinity"
  | PosZero | NegZero => "0"
  | Finite neg q r e =>
      let ds := N_digits (10 * q + nzdigit_val r) in
      (if neg then "-" else "") +:+ format_decimal ds (e + Z.of_nat (length ds))
  end.


(** ** JavaScript values that [JSON.parse] can return

    Strings are kept in UTF-8.  An object is the list of its own properties
    in creation order (the order [JSON.stringify] writes them in when no
    property name is an array index, as is the case for every object the
    cache writes). *)

#[warnings="-register-all"]
Inductive json : Type :=
  | JNull
  | JBool (b : bool)
  | JNum (x : number)
  | JStr (s : string)
  | JArr (elements : list json)
  | JObj (properties : list (string * json)).

(** [Array.isArray]. *)
Definition Array_isArray (v : json) : bool :=
  match v with
  | JArr _ => true
  | _ => false
  end.

(** The elements of an array, as the list a [GPSDataPoint[]] is read as. *)
Definition array_elements (v : json) : list json :=
  match v with
  | JArr l => l
  | _ => []
  end.

(** ** [JSON.stringify] *)

Definition hex_char (n : N) : ascii :=
  if (n <? 10)%N then ascii_of_N (48 + n) else ascii_of_N (87 + n).

(** The quotation mark, code unit 34. *)
Definition dquote : ascii := ascii_of_N 34.

(** [QuoteJSONString] without the surrounding quotes. *)
Fixpoint quote_body (s : string) : string :=
  match s with
  | EmptyString => ""
  | String c s' =>
      let n := N_of_ascii c in
      (if (n =? 34)%N then String "\" (String dquote "")
       else if (n =? 92)%N then "\\"
       else if (n =? 8)%N then "\b"
       else if (n =? 12)%N then "\f"
       else if (n =? 10)%N then "\n"
       else if (n =? 13)%N then "\r"
       else if (n =? 9)%N then "\t"
       else if (n <? 32)%N then
         "\u00" +:+ String (hex_char (n / 16)) (String (hex_char (n mod 16)) "")
       else String c "") +:+ quote_body s'
  end.

Definition quote (s : string) : string :=
  String dquote (quote_body s +:+ String dquote "").

(** Numbers: a finite number prints as [Number::toString] does, every other
    number as [null]. *)
Definition number_text (x : number) : string :=
  if Number_isFinite x then Number_toString x else "null".

Fixpoint JSON_stringify (v : json) : string :=
  match v with
  | JNull => "null"
  | JBool true => "true"
  | JBool false => "false"
  | JNum x => number_text x
  | JStr s => quote s
  | JArr l => "[" +:+ String.concat "," (map JSON_stringify l) +:+ "]"
  | JObj ps =>
      "{" +:+ String.concat ","
                (map (fun p => quote (fst p) +:+ ":" +:+ JSON_stringify (snd p)) ps)
          +:+ "}"
  end.

(** ** [JSON.parse]

    A recursive-descent reader of the JSON grammar (ECMA-404).  A reader takes
    the text that is left and returns the value read and the remaining text,
    or [None] on a syntax error. *)

Definition is_ws (c : ascii) : bool :=
  let n := N_of_ascii c in
  (n =? 32)%N || (n =? 9)%N || (n =? 10)%N || (n =? 13)%N.

Fixpoint skip_ws (s : string) : string :=
  match s with
  | String c s' => if is_ws c then skip_ws s' else s
  | EmptyString => s
  end.

(** The longest prefix of decimal digits. *)
Fixpoint read_digits (s : string) : list N * string :=
  match s with
  | String c s' =>
      match char_digit c with
      | Some d => let '(ds, rest) := read_digits s' in (d :: ds, rest)
      | None => ([], s)
      end
  | EmptyString => ([], s)
  end.

(** int: a single [0], or a non-zero digit followed by digits. *)
Definition read_int (s : string) : option (list N * string) :=
  match s with
  | String c s' =>
      match char_digit c with
      | Some 0%N => Some ([0%N], s')
      | Some d => let '(ds, rest) := read_digits s' in Some (d :: ds, rest)
      | None => None
      end
  | EmptyString => None
  end.

(** frac: nothing, or [.] and at least one digit. *)
Definition read_frac (s : string) : option (list N * string) :=
  match s with
  | String c s' =>
      if (c =? ".")%char then
        match read_digits s' with
        | ([], _) => None
        | r => Some r
        end
      else Some ([], s)
  | EmptyString => Some ([], s)
  end.

(** The digits of an exponent, after its sign. *)
Definition read_exp_digits (neg : bool) (s : string) : option (Z * string) :=
  match read_digits s with
  | ([], _) => None
  | (ds, rest) =>
      let x := Z.of_N (digits_value ds) in
      Some (if neg then (- x)%Z else x, rest)
  end.

(** exp: nothing, or [e] or [E], an optional sign and at least one digit. *)
Definition read_exp (s : string) : option (Z * string) :=
  match s with
  | String c s' =>
      if (c =? "e")%char || (c =? "E")%char then
        match s' with
        | String sign t =>
            if (sign =? "-")%char then read_exp_digits true t
            else if (sign =? "+")%char then read_exp_digits false t
            else read_exp_digits false s'
        | EmptyString => None
        end
      else Some (0%Z, s)
  | EmptyString => Some (0%Z, s)
  end.

(** number: an optional minus sign, int, frac and exp.  The digits of int
    and frac are the decimal mantissa; the exponent is lowered by the number
    of frac digits. *)
Definition read_unsigned (neg : bool) (s : string) : option (number * string) :=
  match read_int s with
  | None => None
  | Some (ip, s1) =>
      match read_frac s1 with
      | None => None
      | Some (fp, s2) =>
          match read_exp s2 with
          | None => None
          | Some (x, s3) =>
              let ds := ip ++ fp in
              Some (number_of_decimal neg (length ds) (digits_value ds)
                      (x - Z.of_nat (length fp)), s3)
          end
      end
  end.

Definition parse_number (s : string) : option (number * string) :=
  match s with
  | String c s' => if (c =? "-")%char then read_unsigned true s' else read_unsigned false s
  | EmptyString => None
  end.

Definition hex_digit (c : ascii) : option N :=
  let n := N_of_ascii c in
  if (48 <=? n)%N && (n <=? 57)%N then Some (n - 48)%N
  else if (65 <=? n)%N && (n <=? 70)%N then Some (n - 55)%N
  else if (97 <=? n)%N && (n <=? 102)%N then Some (n - 87)%N
  else None.

(** The UTF-8 bytes of the code unit [n] of a [\u] escape. *)
Definition utf8_of_code (n : N) : string :=
  if (n <? 128)%N then String (ascii_of_N n) ""
  else if (n <? 2048)%N then
    String (ascii_of_N (192 + n / 64)) (String (ascii_of_N (128 + n mod 64)) "")
  else
    String (ascii_of_N (224 + n / 4096))
      (String (ascii_of_N (128 + (n / 64) mod 64))
         (String (ascii_of_N (128 + n mod 64)) "")).

(** The characters of a string literal after the opening quote, up to and
    including the closing quote. *)
Fixpoint parse_string (s : string) : option (string * string) :=
  let cons (c : ascii) (r : option (string * string)) :=
    match r with
    | Some (t, rest) => Some (String c t, rest)
    | None => None
    end in
  match s with
  | EmptyString => None
  | String c s' =>
      if (c =? dquote)%char then Some ("", s')
      else if (c =? "\")%char then
        match s' with
        | EmptyString => None
        | String e s'' =>
            if (e =? dquote)%char then cons dquote (parse_string s'')
            else if (e =? "\")%char then cons "\"%char (parse_string s'')
            else if (e =? "/")%char then cons "/"%char (parse_string s'')
            else if (e =? "b")%char then cons (ascii_of_N 8) (parse_string s'')
            else if (e =? "f")%char then cons (ascii_of_N 12) (parse_string s'')
            else if (e =? "n")%char then cons (ascii_of_N 10) (parse_string s'')
            else if (e =? "r")%char then cons (ascii_of_N 13) (parse_string s'')
            else if (e =? "t")%char then cons (ascii_of_N 9) (parse_string s'')
            else if (e =? "u")%char then
              match s'' with
              | String h1 (String h2 (String h3 (String h4 s5))) =>
                  match hex_digit h1, hex_digit h2, hex_digit h3, hex_digit h4 with
                  | Some a, Some b, Some c', Some d' =>
                      match parse_string s5 with
                      | Some (t, rest) =>
                          Some (utf8_of_code (4096 * a + 256 * b + 16 * c' + d') +:+ t,
                                rest)
                      | None => None
                      end
                  | _, _, _, _ => None
                  end
              | _ => None
              end
            else None
        end
      else if (N_of_ascii c <? 32)%N then None
      else cons c (parse_string s')
  end.

(** [CreateDataProperty] during parsing: a repeated key keeps its place and
    takes the later value. *)
Fixpoint obj_set (ps : list (string * json)) (k : string) (v : json)
  : list (string * json) :=
  match ps with
  | [] => [(k, v)]
  | (k', v') :: ps' =>
      if String.eqb k' k then (k', v) :: ps' else (k', v') :: obj_set ps' k v
  end.

(** The text after the literal [lit], when the text starts with it. *)
Fixpoint strip_prefix (lit s : string) : option string :=
  match lit with
  | EmptyString => Some s
  | String c lit' =>
      match s with
      | String d s' => if Ascii.eqb c d then strip_prefix lit' s' else None
      | EmptyString => None
      end
  end.

Definition expect (lit : string) (s : string) (v : json) : option (json * string) :=
  match strip_prefix lit s with
  | Some rest => Some (v, rest)
  | None => None
  end.

Fixpoint parse_value (fuel : nat) (s : string) : option (json * string) :=
  match fuel with
  | O => None
  | S f =>
      match s with
      | EmptyString => None
      | String c s' =>
          if (c =? "n")%char then expect "ull" s' JNull
          else if (c =? "t")%char then expect "rue" s' (JBool true)
          else if (c =? "f")%char then expect "alse" s' (JBool false)
          else if (c =? dquote)%char then
            match parse_string s' with
            | Some (t, rest) => Some (JStr t, rest)
            | None => None
            end
          else if (c =? "[")%char then
            let s1 := skip_ws s' in
            match strip_prefix "]" s1 with
            | Some rest => Some (JArr [], rest)
            | None =>
                match parse_elements f s1 with
                | Some (l, rest) => Some (JArr l, rest)
                | None => None
                end
            end
          else if (c =? "{")%char then
            let s1 := skip_ws s' in
            match strip_prefix "}" s1 with
            | Some rest => Some (JObj [], rest)
            | None =>
                match parse_members f [] s1 with
                | Some (ps, rest) => Some (JObj ps, rest)
                | None => None
                end
            end
          else
            match parse_number s with
            | Some (x, rest) => Some (JNum x, rest)
            | None => None
            end
      end
  end
with parse_elements (fuel : nat) (s : string) : option (list json * string) :=
  match fuel with
  | O => None
  | S f =>
      match parse_value f s with
      | Some (v, s1) =>
          match skip_ws s1 with
          | String "," s2 =>
              match parse_elements f (skip_ws s2) with
              | Some (l, rest) => Some (v :: l, rest)
              | None => None
              end
          | String "]" rest => Some ([v], rest)
          | _ => None
          end
      | None => None
      end
  end
with parse_members (fuel : nat) (acc : list (string * json)) (s : string)
  : option (list (string * json) * string) :=
  match fuel with
  | O => None
  | S f =>
      match strip_prefix (String dquote "") s with
      | Some s0 =>
          match parse_string s0 with
          | Some (k, s1) =>
              match strip_prefix ":" (skip_ws s1) with
              | Some s2 =>
                  match parse_value f (skip_ws s2) with
                  | Some (v, s3) =>
                      let acc' := obj_set acc k v in
                      match skip_ws s3 with
                      | String "," s4 => parse_members f acc' (skip_ws s4)
                      | String "}" rest => Some (acc', rest)
                      | _ => None
                      end
                  | None => None
                  end
              | None => None
              end
          | None => None
          end
      | None => None
      end
  end.

(** [JSON.parse text]: one value between optional white space; [None] stands
    for the [SyntaxError] it throws.  Twice the length of the text is enough
    fuel for every text that can be read at all ([JSON_parse_fuel] below). *)
Definition JSON_parse (text : string) : option json :=
  match parse_value (2 * String.length text + 2) (skip_ws text) with
  | Some (v, rest) =>
      match skip_ws rest with
      | EmptyString => Some v
      | _ => None
      end
  | None => None
  end.

(** ** Promises and the asynchronous storage module

    An [async] function is run to settlement against the state [S] of the
    backing store: it either fulfils with a value or rejects with a reason,
    and leaves the store in a new state.  [await] is the bind of this monad:
    a rejection of the awaited promise rejects the caller. *)

Inductive outcome (A : Type) : Type :=
  | Fulfilled (a : A)
  | Rejected (reason : string).
Arguments Fulfilled {A} a.
Arguments Rejected {A} reason.

Definition Async (S A : Type) : Type := S → outcome A * S.

Definition resolve {S A} (a : A) : Async S A := fun s => (Fulfilled a, s).

Definition await {S A B} (m : Async S A) (k : A → Async S B) : Async S B :=
  fun s =>
    match m s with
    | (Fulfilled a, s') => k a s'
    | (Rejected e, s') => (Rejected e, s')
    end.

Notation "'let*' x ':=' m 'in' k" := (await m (fun x => k))
  (at level 10, x name, m at level 100, k at level 200).

(** [AsyncStorageLike] of gpsCache.ts, over a backing store of type [S]. *)
Record AsyncStorageLike (S : Type) : Type := {
  getItem : string → Async S (option string);
  setItem : string → string → Async S unit;
}.
Arguments getItem {S} _ _ _.
Arguments setItem {S} _ _ _ _.

(** What [require('@react-native-async-storage/async-storage')] finds in this
    build: the module, or nothing (the call throws). *)
Record Runtime (S : Type) : Type := {
  async_storage_module : option (AsyncStorageLike S);
}.
Arguments async_storage_module {S} _.

(** The storage module as it behaves on a device: a string-keyed map on
    disk; both operations succeed. *)
Definition device_storage : AsyncStorageLike (gmap string string) := {|
  getItem key := fun disk => (Fulfilled (disk !! key), disk);
  setItem key value := fun disk => (Fulfilled tt, <[key := value]> disk);
|}.

Definition with_storage : Runtime (gmap string string) :=
  {| async_storage_module := Some device_storage |}.

Definition without_storage {S} : Runtime S :=
  {| async_storage_module := None |}.

(** ** src/features/gps/types/gps.ts *)

Record GPSDataPoint : Type := {
  latitude : number;
  longitude : number;
  altitude : option number;
  accuracy : option number;
  timestamp : number;
}.

Definition js_of_nullable (x : option number) : json :=
  match x with
  | Some n => JNum n
  | None => JNull
  end.

(** The object a [GPSDataPoint] is at run time (the literal of
    GPSLiveDataScreen.tsx, lines 109-115). *)
Definition js_of_point (p : GPSDataPoint) : json :=
  JObj [("latitude", JNum (latitude p));
        ("longitude", JNum (longitude p));
        ("altitude", js_of_nullable (altitude p));
        ("accuracy", js_of_nullable (accuracy p));
        ("timestamp", JNum (timestamp p))].

(** ** src/features/gps/storage/gpsCache.ts *)

Definition GPS_CACHE_KEY : string := "gps_cache_v1".
Definition MAX_CACHE_ITEMS : nat := 120.

Section GpsCache.
Context {S : Type}.
Variable rt : Runtime S.

Definition getAsyncStorage : option (AsyncStorageLike S) :=
  async_storage_module rt.

Definition isStorageReady : bool :=
  match getAsyncStorage with
  | Some _ => true
  | None => false
  end.

(** The [try] block of [getCachedGPSData] (lines 35-43): [None] is the
    [SyntaxError] caught at line 41. *)
Definition parse_cached (raw : string) : list json :=
  match JSON_parse raw with
  | Some parsed =>
      if negb (Array_isArray parsed) then [] else array_elements parsed
  | None => []
  end.

Definition getCachedGPSData : Async S (list json) :=
  match getAsyncStorage with
  | None => resolve []
  | Some asyncStorage =>
      let* raw := getItem asyncStorage GPS_CACHE_KEY in
      match raw with
      | None => resolve []
      | Some EmptyString => resolve []
      | Some raw => resolve (parse_cached raw)
      end
  end.

Definition appendGPSData (point : GPSDataPoint) : Async S (list json) :=
  match getAsyncStorage with
  | None => resolve []
  | Some asyncStorage =>
      let* existing := getCachedGPSData in
      let next := take MAX_CACHE_ITEMS (js_of_point point :: existing) in
      let* _ := setItem asyncStorage GPS_CACHE_KEY (JSON_stringify (JArr next)) in
      resolve next
  end.
End GpsCache.

(** ** src/features/gps/screens/GPSLiveDataScreen.tsx: the ingestion throttle *)

Module GPSLiveDataScreen.

Record GPSCoords : Type := {
  coords_latitude : number;
  coords_longitude : number;
  coords_altitude : option number;
  coords_accuracy : option number;
}.

Record GPSPosition : Type := {
  coords : GPSCoords;
  position_timestamp : number;
}.

(** The component state the success callback of [watchPosition] touches.
    [lastCachedAtRef] is [useRef<number>(0)]; times are the integer
    milliseconds of [Date.now()]. *)
Record State : Type := {
  gpsData : option GPSDataPoint;
  errorMessage : option string;
  storageMessage : option string;
  lastCachedAtRef : Z;
}.

Definition initial : State := {|
  gpsData := None;
  errorMessage := None;
  storageMessage := None;
  lastCachedAtRef := 0;
|}.

Definition sample_of (position : GPSPosition) : GPSDataPoint := {|
  latitude := coords_latitude (coords position);
  longitude := coords_longitude (coords position);
  altitude := coords_altitude (coords position);
  accuracy := coords_accuracy (coords position);
  timestamp := position_timestamp position;
|}.

(** The test of line 120. *)
Definition admits (lastCachedAt now : Z) : bool :=
  (5000 <=? now - lastCachedAt)%Z.

Section Watch.
Context {S : Type}.
Variable rt : Runtime S.

(** The success callback (lines 107-126), run when [Date.now()] is [now].
    The third component is the sample handed to [appendGPSData], if any;
    the promise it returns is run to settlement and its [catch] handler
    applied. *)
Definition onPosition (position : GPSPosition) (now : Z) (ui : State) (s : S)
  : State * S * option GPSDataPoint :=
  let sample := sample_of position in
  let last := lastCachedAtRef ui in
  if admits last now then
    match appendGPSData rt sample s with
    | (Fulfilled _, s') =>
        ({| gpsData := Some sample; errorMessage := None;
            storageMessage := storageMessage ui; lastCachedAtRef := now |},
         s', Some sample)
    | (Rejected _, s') =>
        ({| gpsData := Some sample; errorMessage := None;
            storageMessage := Some "Failed to cache GPS sample.";
            lastCachedAtRef := now |},
         s', Some sample)
    end
  else
    ({| gpsData := Some sample; errorMessage := None;
        storageMessage := storageMessage ui; lastCachedAtRef := last |},
     s, None).

(** The callback run on a stream of positions, each with its arrival
    time; the samples handed to [appendGPSData] are collected in order. *)
Fixpoint deliver (events : list (GPSPosition * Z)) (ui : State) (s : S)
  : State * S * list GPSDataPoint :=
  match events with
  | [] => (ui, s, [])
  | (position, now) :: events' =>
      let '(ui1, s1, admitted) := onPosition position now ui s in
      let '(ui2, s2, rest) := deliver events' ui1 s1 in
      (ui2, s2, option_list admitted ++ rest)
  end.
End Watch.


(** Fifty arrival times from [start] on, evenly spaced over [span]
    milliseconds ([Date.now()] yields whole milliseconds). *)
Definition burst (start span : Z) : list Z :=
  map (fun i => start + i * span / 49)%Z (seqZ 0 50).

End GPSLiveDataScreen.

(** ** src/screens/HomeScreen.tsx: the polling reader *)

Module HomeScreen.

Record State : Type := {
  cachedData : list json;
  storageMessage : option string;
}.

(** [useState([])], [useState(null)]. *)
Definition initial : State := {| cachedData := []; storageMessage := None |}.

Definition storage_missing : string :=
  "Storage module missing. Run: npm i @react-native-async-storage/async-storage".

Section Load.
Context {S : Type}.
Variable rt : Runtime S.

(** [load] (lines 11-22), the body of each poll tick, run to the
    settlement of its promise.  The component state is what the consumer
    sees; [setStorageMessage(null)] runs before the read is awaited. *)
Definition load (ui : State) (s : S) : outcome unit * State * S :=
  if negb (isStorageReady rt) then
    (Fulfilled tt,
     {| cachedData := cachedData ui; storageMessage := Some storage_missing |},
     s)
  else
    let ui1 := {| cachedData := cachedData ui; storageMessage := None |} in
    match getCachedGPSData rt s with
    | (Fulfilled data, s') =>
        (Fulfilled tt,
         {| cachedData := data; storageMessage := storageMessage ui1 |},
         s')
    | (Rejected e, s') => (Rejected e, ui1, s')
    end.
End Load.

End HomeScreen.

(** ** Values as they come back from the store

    What [JSON.parse (JSON.stringify v)] is for the values the cache writes:
    [-0] comes back as [+0], [NaN] and the infinities come back as [null],
    every other number comes back as itself. *)

Definition stored_number (x : number) : json :=
  match x with
  | NaN | PosInfinity | NegInfinity => JNull
  | NegZero => JNum PosZero
  | _ => JNum x
  end.

Definition stored_field (v : json) : json :=
  match v with
  | JNum x => stored_number x
  | _ => v
  end.

(** An object comes back with each number among its property values
    replaced so; the cache writes no other values. *)
Definition stored_value (v : json) : json :=
  match v with
  | JObj ps => JObj (map (fun p => (fst p, stored_field (snd p))) ps)
  | _ => v
  end.

Definition stored_point (p : GPSDataPoint) : json := stored_value (js_of_point p).

(** The shape of the objects in the stored window: the five properties of a
    [GPSDataPoint], each a number or [null]. *)
Definition flat (v : json) : bool :=
  match v with
  | JNull | JNum _ => true
  | _ => false
  end.

Definition point_object (lat lon alt acc ts : json) : json :=
  JObj [("latitude", lat); ("longitude", lon); ("altitude", alt);
        ("accuracy", acc); ("timestamp", ts)].

Inductive point_shaped : json → Prop :=
  | point_shaped_intro (lat lon alt acc ts : json) :
      flat lat = true → flat lon = true → flat alt = true →
      flat acc = true → flat ts = true →
      point_shaped (point_object lat lon alt acc ts).

(** A number that [JSON.stringify] writes as itself. *)
Definition json_number (x : number) : bool :=
  match x with
  | PosZero | Finite _ _ _ _ => true
  | _ => false
  end.

Definition json_nullable (x : option number) : bool :=
  match x with
  | Some n => json_number n
  | None => true
  end.

(** A sample all of whose numbers [JSON.stringify] writes as themselves. *)
Definition json_point (p : GPSDataPoint) : bool :=
  json_number (latitude p) && json_number (longitude p) &&
  json_nullable (altitude p) && json_nullable (accuracy p) &&
  json_number (timestamp p).

(** ** Predicates on texts used in the proofs *)

(** A decimal digit. *)
Definition is_digit (d : N) : Prop := (d < 10)%N.

(** A text at which a run of digits ends. *)
Definition no_digit_ahead (s : string) : Prop :=
  match s with
  | String c _ => char_digit c = None
  | EmptyString => True
  end.

(** A text at which a number ends: no digit, [.], [e] or [E] ahead. *)
Definition number_ends (s : string) : Prop :=
  match s with
  | String c _ =>
      char_digit c = None ∧ (c =? ".")%char = false ∧
      (c =? "e")%char = false ∧ (c =? "E")%char = false
  | EmptyString => True
  end.

(** A property name that is written and read back without escapes. *)
Definition plain_key (key : string) : Prop :=
  quote_body key = key
  ∧ ∀ rest, parse_string (key +:+ String dquote rest) = Some (key, rest).

(** A reader that takes [s] to [res], leaving [rest], does so on any fuel of
    at least twice the number of characters it consumes. *)
Definition enough_fuel {A} (read : nat → string → option (A * string))
    (s : string) (res : A) (rest : string) : Prop :=
  (String.length rest < String.length s)%nat
  ∧ ∀ f', (2 * (String.length s - String.length rest) ≤ f')%nat →
          read f' s = Some (res, rest).

(** ** Runs of the cache used in the statements below *)

(** [appendGPSData] called once per sample, in list order, each call awaited
    before the next; the state of the store after the last call. *)
Fixpoint append_all {S : Type} (rt : Runtime S) (points : list GPSDataPoint) (s : S) : S :=
  match points with
  | [] => s
  | p :: points' => append_all rt points' (snd (appendGPSData rt p s))
  end.

(** The window a device store holds: nothing under the key, or what
    [appendGPSData] last wrote.  [w] is the window as it reads back. *)
Definition holds_window (disk : gmap string string) (w : list json) : Prop :=
  (disk !! GPS_CACHE_KEY = None ∧ w = []) ∨
  ∃ w0, disk !! GPS_CACHE_KEY = Some (JSON_stringify (JArr w0)) ∧
        Forall point_shaped w0 ∧ w = map stored_value w0.

(** A storage module whose [getItem] rejects (the native call fails). *)
Definition failing_storage : AsyncStorageLike (gmap string string) := {|
  getItem key := fun disk => (Rejected "getItem failed", disk);
  setItem key value := fun disk => (Fulfilled tt, <[key := value]> disk);
|}.

Definition with_failing_storage : Runtime (gmap string string) :=
  {| async_storage_module := Some failing_storage |}.

(** Samples used as concrete inputs.  [fix_a] has every field; [fix_b] has
    no altitude and no accuracy; [fix_nan] reports its altitude as [NaN]. *)
Definition fix_a : GPSDataPoint := {|
  latitude := Finite false 12971 D6 (-4);        (* 12.9716 *)
  longitude := Finite false 77594 D6 (-4);       (* 77.5946 *)
  altitude := Some (Finite false 92 D1 0);       (* 921 *)
  accuracy := Some (Finite false 0 D5 0);        (* 5 *)
  timestamp := number_of_Z 1700000000000;
|}.

Definition fix_b : GPSDataPoint := {|
  latitude := Finite true 3 D4 (-1);             (* -3.4 *)
  longitude := PosZero;
  altitude := None;
  accuracy := None;
  timestamp := number_of_Z 1700000005000;
|}.

Definition fix_nan : GPSDataPoint := {|
  latitude := Finite false 12971 D6 (-4);
  longitude := Finite false 77594 D6 (-4);
  altitude := Some NaN;
  accuracy := Some (Finite false 0 D5 0);
  timestamp := number_of_Z 1700000010000;
|}.


Definition position_a : GPSLiveDataScreen.GPSPosition := {|
  GPSLiveDataScreen.coords := {|
    GPSLiveDataScreen.coords_latitude := latitude fix_a;
    GPSLiveDataScreen.coords_longitude := longitude fix_a;
    GPSLiveDataScreen.coords_altitude := altitude fix_a;
    GPSLiveDataScreen.coords_accuracy := accuracy fix_a;
  |};
  GPSLiveDataScreen.position_timestamp := timestamp fix_a;
|}.

(** * Further code of the same files

    The definitions below extend the embedding to the code around the cache:
    the rest of the watch callback's behaviour, the watch life cycle of
    GPSLiveDataScreen.tsx, the list rendering of HomeScreen.tsx and the
    earlier screen that guards its callbacks with [isMounted]. *)

(** A storage module that reads the disk but whose [setItem] rejects without
    writing (for instance a full disk). *)
Definition readonly_storage : AsyncStorageLike (gmap string string) := {|
  getItem key := fun disk => (Fulfilled (disk !! key), disk);
  setItem key value := fun disk => (Rejected "setItem failed", disk);
|}.

Definition with_readonly_storage : Runtime (gmap string string) :=
  {| async_storage_module := Some readonly_storage |}.

(** A value the cache reads back unchanged: [null] or a number that
    [JSON.stringify] writes as itself. *)
Definition json_flat (v : json) : bool :=
  match v with
  | JNull => true
  | JNum x => json_number x
  | _ => false
  end.

(** An entry as the cache reads it back: the five properties of a
    [GPSDataPoint], each [null] or a finite number. *)
Inductive stored_entry : json → Prop :=
  | stored_entry_intro (lat lon alt acc ts : json) :
      json_flat lat = true → json_flat lon = true → json_flat alt = true →
      json_flat acc = true → json_flat ts = true →
      stored_entry (point_object lat lon alt acc ts).

(** The events the throttle lets through, starting from
    [lastCachedAtRef = last]: the same test as [admitted_times], keeping the
    position with its arrival time. *)
Fixpoint admitted_events (last : Z) (events : list (GPSLiveDataScreen.GPSPosition * Z))
  : list (GPSLiveDataScreen.GPSPosition * Z) :=
  match events with
  | [] => []
  | (position, now) :: events' =>
      if GPSLiveDataScreen.admits last now
      then (position, now) :: admitted_events now events'
      else admitted_events last events'
  end.

(** Arrival times each at least 5000 ms after the one before, the first at
    least 5000 ms after [last]. *)
Fixpoint spaced (last : Z) (times : list Z) : Prop :=
  match times with
  | [] => True
  | t :: times' => (5000 ≤ t - last)%Z ∧ spaced t times'
  end.

(** The message of the [catch] handler of line 122. *)
Definition failed_to_cache : string := "Failed to cache GPS sample.".

(** ** src/features/gps/screens/GPSLiveDataScreen.tsx: the watch life cycle *)

Module WatchLifecycle.

(** [GeolocationLike] (lines 29-41) over the state [G] of the geolocation
    service.  Every call of [watchPosition] passes the callbacks and options
    of lines 107-135, which are left out; it returns the watch id. *)
Record GeolocationLike (G : Type) : Type := {
  watchPosition : G → nat * G;
  clearWatch : nat → G → G;
}.
Arguments watchPosition {G} _ _.
Arguments clearWatch {G} _ _ _.

(** [Platform.OS]. *)
Inductive OS : Type := android | ios.

(** [PermissionsAndroid.RESULTS]. *)
Inductive PermissionStatus : Type := GRANTED | DENIED | NEVER_ASK_AGAIN.

Definition is_granted (r : PermissionStatus) : bool :=
  match r with
  | GRANTED => true
  | _ => false
  end.

Definition is_never_ask_again (r : PermissionStatus) : bool :=
  match r with
  | NEVER_ASK_AGAIN => true
  | _ => false
  end.

(** What the screen finds around it: the storage module, what
    [require('@react-native-community/geolocation')] finds, and the
    platform. *)
Record Env (S G : Type) : Type := {
  storage : Runtime S;
  geolocation_module : option (GeolocationLike G);
  platform : OS;
}.
Arguments storage {S G} _.
Arguments geolocation_module {S G} _.
Arguments platform {S G} _.

(** The component: the state the callback touches ([view]), [watchIdRef]
    and the two permission flags (lines 77-84). *)
Record Component : Type := {
  view : GPSLiveDataScreen.State;
  watchIdRef : option nat;
  isPermissionDeniedPermanently : bool;
  isRequestingPermission : bool;
}.

Definition initial : Component := {|
  view := GPSLiveDataScreen.initial;
  watchIdRef := None;
  isPermissionDeniedPermanently := false;
  isRequestingPermission := false;
|}.

Definition permission_denied : string := "Location permission denied.".

Definition geolocation_missing : string :=
  "Geolocation module missing. Run: npm i @react-native-community/geolocation".

Definition set_errorMessage (m : option string) (c : Component) : Component := {|
  view := {| GPSLiveDataScreen.gpsData := GPSLiveDataScreen.gpsData (view c);
             GPSLiveDataScreen.errorMessage := m;
             GPSLiveDataScreen.storageMessage := GPSLiveDataScreen.storageMessage (view c);
             GPSLiveDataScreen.lastCachedAtRef := GPSLiveDataScreen.lastCachedAtRef (view c) |};
  watchIdRef := watchIdRef c;
  isPermissionDeniedPermanently := isPermissionDeniedPermanently c;
  isRequestingPermission := isRequestingPermission c;
|}.

Definition set_storageMessage (m : option string) (c : Component) : Component := {|
  view := {| GPSLiveDataScreen.gpsData := GPSLiveDataScreen.gpsData (view c);
             GPSLiveDataScreen.errorMessage := GPSLiveDataScreen.errorMessage (view c);
             GPSLiveDataScreen.storageMessage := m;
             GPSLiveDataScreen.lastCachedAtRef := GPSLiveDataScreen.lastCachedAtRef (view c) |};
  watchIdRef := watchIdRef c;
  isPermissionDeniedPermanently := isPermissionDeniedPermanently c;
  isRequestingPermission := isRequestingPermission c;
|}.

Definition set_watchIdRef (w : option nat) (c : Component) : Component := {|
  view := view c;
  watchIdRef := w;
  isPermissionDeniedPermanently := isPermissionDeniedPermanently c;
  isRequestingPermission := isRequestingPermission c;
|}.

Definition set_isPermissionDeniedPermanently (b : bool) (c : Component) : Component := {|
  view := view c;
  watchIdRef := watchIdRef c;
  isPermissionDeniedPermanently := b;
  isRequestingPermission := isRequestingPermission c;
|}.

Definition set_isRequestingPermission (b : bool) (c : Component) : Component := {|
  view := view c;
  watchIdRef := watchIdRef c;
  isPermissionDeniedPermanently := isPermissionDeniedPermanently c;
  isRequestingPermission := b;
|}.

Section Lifecycle.
Context {S G : Type}.
Variable env : Env S G.

Definition getGeolocation : option (GeolocationLike G) := geolocation_module env.

(** Lines 60-74; [answer] is what the permission dialog resolves to. *)
Definition requestAndroidLocationPermission (answer : PermissionStatus) : PermissionStatus :=
  match platform env with
  | android => answer
  | ios => GRANTED
  end.

(** Lines 86-94. *)
Definition clearLocationWatch (c : Component) (g : G) : Component * G :=
  match watchIdRef c with
  | None => (c, g)
  | Some id =>
      (set_watchIdRef None c,
       match getGeolocation with
       | Some geolocation => clearWatch geolocation id g
       | None => g
       end)
  end.

(** Lines 96-137. *)
Definition startLocationWatch (geolocation : GeolocationLike G)
    (c : Component) (g : G) : Component * G :=
  let '(c1, g1) := clearLocationWatch c g in
  let c2 :=
    if negb (isStorageReady (storage env))
    then set_storageMessage (Some HomeScreen.storage_missing) c1
    else set_storageMessage None c1 in
  let '(id, g2) := watchPosition geolocation g1 in
  (set_watchIdRef (Some id) c2, g2).

(** Lines 140-144: up to the [await] of the permission request.  [None]: a
    request is pending and the call returns at once. *)
Definition beginRequest (c : Component) : option Component :=
  if isRequestingPermission c then None
  else Some (set_isRequestingPermission true c).

(** Lines 146-170: from the answer [granted] of the permission request on. *)
Definition resumeRequest (granted : PermissionStatus) (c : Component) (g : G)
  : Component * G :=
  let hasPermission := is_granted granted in
  let c1 := set_isPermissionDeniedPermanently (is_never_ask_again granted) c in
  if negb hasPermission then
    let c2 := set_errorMessage (Some permission_denied) c1 in
    let '(c3, g3) := clearLocationWatch c2 g in
    (set_isRequestingPermission false c3, g3)
  else
    match getGeolocation with
    | None =>
        (set_isRequestingPermission false
           (set_errorMessage (Some geolocation_missing) c1), g)
    | Some geolocation =>
        let '(c2, g2) := startLocationWatch geolocation c1 g in
        (set_isRequestingPermission false c2, g2)
    end.

(** [requestPermissionAndStartGPS] (lines 139-171), the request answered
    before anything else happens. *)
Definition requestPermissionAndStartGPS (answer : PermissionStatus)
    (c : Component) (g : G) : Component * G :=
  match beginRequest c with
  | None => (c, g)
  | Some c1 => resumeRequest (requestAndroidLocationPermission answer) c1 g
  end.

(** The failure callback of [watchPosition] (lines 127-129). *)
Definition onError (message : string) (c : Component) : Component :=
  set_errorMessage (Some message) c.

(** What happens to a mounted screen: the button is pressed and the request
    answered, a position arrives, the watch reports an error. *)
Inductive event : Type :=
  | Press (answer : PermissionStatus)
  | Position (position : GPSLiveDataScreen.GPSPosition) (now : Z)
  | Failure (message : string).

Definition step (ev : event) (st : Component * G * S) : Component * G * S :=
  let '(c, g, s) := st in
  match ev with
  | Press answer =>
      let '(c', g') := requestPermissionAndStartGPS answer c g in (c', g', s)
  | Position position now =>
      let '(v, s', _) := GPSLiveDataScreen.onPosition (storage env) position now (view c) s in
      ({| view := v; watchIdRef := watchIdRef c;
          isPermissionDeniedPermanently := isPermissionDeniedPermanently c;
          isRequestingPermission := isRequestingPermission c |}, g, s')
  | Failure message => (onError message c, g, s)
  end.

(** The effect of lines 173-181 on mount, then the events in order. *)
Definition run (answer : PermissionStatus) (events : list event) (g : G) (s : S)
  : Component * G * S :=
  fold_left (fun st ev => step ev st) events
    (let '(c, g') := requestPermissionAndStartGPS answer initial g in (c, g', s)).

(** The cleanup of the effect (lines 176-178). *)
Definition unmount (st : Component * G * S) : Component * G * S :=
  let '(c, g, s) := st in
  let '(c', g') := clearLocationWatch c g in (c', g', s).
End Lifecycle.

(** The geolocation service as it behaves on a device: watch ids are handed
    out in sequence, and a watch is active from [watchPosition] until
    [clearWatch]. *)
Record Watches : Type := {
  next_watch : nat;
  active : gset nat;
}.

Definition no_watches : Watches := {| next_watch := 0; active := ∅ |}.

Definition device_geolocation : GeolocationLike Watches := {|
  watchPosition g :=
    (next_watch g,
     {| next_watch := S (next_watch g); active := {[next_watch g]} ∪ active g |});
  clearWatch id g :=
    {| next_watch := next_watch g; active := active g ∖ {[id]} |};
|}.

Definition device_env (os : OS) : Env (gmap string string) Watches := {|
  storage := with_storage;
  geolocation_module := Some device_geolocation;
  platform := os;
|}.

(** The watches the component holds. *)
Definition held (c : Component) : gset nat :=
  match watchIdRef c with
  | Some id => {[id]}
  | None => ∅
  end.

(** The watches active in the service are those the component holds, and
    no active watch has the id the service hands out next. *)
Definition tracked (c : Component) (g : Watches) : Prop :=
  active g = held c ∧ ∀ id, id ∈ active g → id < next_watch g.

End WatchLifecycle.

(** ** src/screens/HomeScreen.tsx: the list of cached points *)

Module HomeList.

(** [item.name] for a value [JSON.parse] returned.  The outer [None] is the
    [TypeError] of reading a property of [null]; the inner [None] is
    [undefined].  None of the names the screen reads is on a prototype. *)
Definition get_property (item : json) (name : string) : option (option json) :=
  match item with
  | JNull => None
  | JObj ps => Some (snd <$> List.find (fun p => String.eqb (fst p) name) ps)
  | _ => Some None
  end.

(** An object's own property shadows the inherited method of that name. *)
Definition has_own (ps : list (string * json)) (name : string) : bool :=
  existsb (fun p => String.eqb (fst p) name) ps.

(** [ToString] of a template literal, for [undefined] ([None]) and the
    values [JSON.parse] returns.  An array is its elements joined by commas,
    [null] elements as the empty string.  A plain object is
    ["[object Object]"], unless an own [toString] property (which cannot be
    a function) shadows the method: then the conversion throws ([None]). *)
Fixpoint ToString_value (v : json) : option string :=
  match v with
  | JNull => Some "null"
  | JBool true => Some "true"
  | JBool false => Some "false"
  | JNum x => Some (Number_toString x)
  | JStr s => Some s
  | JArr l =>
      String.concat "," <$>
        (fix elements (l : list json) : option (list string) :=
           match l with
           | [] => Some []
           | x :: l' =>
               match (match x with JNull => Some "" | _ => ToString_value x end),
                     elements l' with
               | Some t, Some ts => Some (t :: ts)
               | _, _ => None
               end
           end) l
  | JObj ps => if has_own ps "toString" then None else Some "[object Object]"
  end.

Definition ToString (v : option json) : option string :=
  match v with
  | None => Some "undefined"
  | Some x => ToString_value x
  end.

(** [`${index}`] for an array index. *)
Definition index_text (index : nat) : string := digits_text (N_digits (N.of_nat index)).

(** [keyExtractor] (line 58); [None] when it throws. *)
Definition keyExtractor (item : json) (index : nat) : option string :=
  match get_property item "timestamp" with
  | None => None
  | Some timestamp =>
      match ToString timestamp with
      | None => None
      | Some t => Some (t +:+ "-" +:+ index_text index)
      end
  end.

(** The keys of the rows of a list, [None] when one [keyExtractor] call
    throws. *)
Fixpoint row_keys_from (index : nat) (data : list json) : option (list string) :=
  match data with
  | [] => Some []
  | item :: data' =>
      match keyExtractor item index, row_keys_from (S index) data' with
      | Some k, Some ks => Some (k :: ks)
      | _, _ => None
      end
  end.

Definition row_keys (data : list json) : option (list string) := row_keys_from 0 data.

(** A text without a hyphen. *)
Fixpoint no_dash (s : string) : bool :=
  match s with
  | EmptyString => true
  | String c s' => negb (c =? "-")%char && no_dash s'
  end.

(** The texts of one row (lines 34-46). *)
Record Row : Type := {
  row_time : string;
  row_latitude : string;
  row_longitude : string;
  row_altitude : string;
  row_accuracy : string;
}.

Section Render.
(** [new Date(v).toLocaleTimeString()] and [x.toFixed(digits)]: the texts
    depend on the locale and on the binary value of the number, and are taken
    as given. *)
Variable toLocaleTimeString : option json → string.
Variable toFixed : number → nat → string.

(** [new Date(v)] converts an object or array [v] to a primitive first,
    which throws exactly when [ToString] does. *)
Definition date_text (v : option json) : option string :=
  match ToString v with
  | Some _ => Some (toLocaleTimeString v)
  | None => None
  end.

(** [v.toFixed(digits)]: a [TypeError] unless [v] is a number. *)
Definition call_toFixed (v : option json) (digits : nat) : option string :=
  match v with
  | Some (JNum x) => Some (toFixed x digits)
  | _ => None
  end.

(** [v === null ? 'N/A' : `${v.toFixed(2)} m`]. *)
Definition nullable_text (v : option json) : option string :=
  match v with
  | Some JNull => Some "N/A"
  | _ =>
      match call_toFixed v 2 with
      | Some t => Some (t +:+ " m")
      | None => None
      end
  end.

(** [renderItem] (lines 32-48); [None] when it throws. *)
Definition renderItem (item : json) : option Row :=
  match get_property item "timestamp", get_property item "latitude",
        get_property item "longitude", get_property item "altitude",
        get_property item "accuracy" with
  | Some ts, Some lat, Some lon, Some alt, Some acc =>
      match date_text ts, call_toFixed lat 6, call_toFixed lon 6,
            nullable_text alt, nullable_text acc with
      | Some time, Some la, Some lo, Some al, Some ac =>
          Some {| row_time := time; row_latitude := "Lat: " +:+ la;
                  row_longitude := "Lon: " +:+ lo; row_altitude := "Alt: " +:+ al;
                  row_accuracy := "Acc: " +:+ ac |}
      | _, _, _, _, _ => None
      end
  | _, _, _, _, _ => None
  end.
End Render.

End HomeList.

(** ** src/screens/HomeScreen.tsx: the polling effect (lines 10-30) *)

Module Poller.

(** The mounted screen, the interval timer of [setInterval(load, 5000)]
    (the time it is next due, [None] once cleared) and the clock, in
    milliseconds. *)
Record Mounted : Type := {
  screen : HomeScreen.State;
  due : option Z;
  clock : Z;
}.

Section Effect.
Context {S : Type}.
Variable rt : Runtime S.

(** One call of [load]; a rejection is not handled and leaves the state
    [load] had reached. *)
Definition call_load (st : HomeScreen.State * S) : HomeScreen.State * S :=
  ((HomeScreen.load rt st.1 st.2).1.2, (HomeScreen.load rt st.1 st.2).2).

(** The effect at time [now]: [load()], then [setInterval(load, 5000)]. *)
Definition mount (now : Z) (s : S) : Mounted * S :=
  let st := call_load (HomeScreen.initial, s) in
  ({| screen := st.1; due := Some (now + 5000)%Z; clock := now |}, st.2).

(** The clock moves on to [t]: the timer fires [load] once for every
    multiple of 5000 ms that has come due. *)
Definition advance (t : Z) (m : Mounted) (s : S) : Mounted * S :=
  if (t <? clock m)%Z then (m, s)
  else
    match due m with
    | Some d =>
        if (d <=? t)%Z then
          let n := ((t - d) / 5000 + 1)%Z in
          let st := Nat.iter (Z.to_nat n) call_load (screen m, s) in
          ({| screen := st.1; due := Some (d + 5000 * n)%Z; clock := t |}, st.2)
        else ({| screen := screen m; due := due m; clock := t |}, s)
    | None => ({| screen := screen m; due := None; clock := t |}, s)
    end.

(** The cleanup: [clearInterval(timerId)]. *)
Definition unmount (m : Mounted) : Mounted :=
  {| screen := screen m; due := None; clock := clock m |}.
End Effect.

(** The timer is set and due within the next 5000 ms. *)
Definition ticking (m : Mounted) : Prop :=
  ∃ d, due m = Some d ∧ (clock m < d ≤ clock m + 5000)%Z.

End Poller.

(** ** The screen without a cache (the second file of the same name):
    callbacks guarded by [isMounted] *)

Module GuardedScreen.
Import WatchLifecycle.

(** [useState(null)] twice and [useRef(null)]. *)
Record State : Type := {
  gpsData : option GPSDataPoint;
  errorMessage : option string;
  watchIdRef : option nat;
}.

Definition initial : State :=
  {| gpsData := None; errorMessage := None; watchIdRef := None |}.

(** The effect: its local [isMounted] and the component it closes over. *)
Record Effect : Type := {
  isMounted : bool;
  component : State;
}.

(** The effect has run: [isMounted = true] and [startWatching()] waits for
    the permission. *)
Definition mounted : Effect := {| isMounted := true; component := initial |}.

Definition permission_denied : string := "Location permission denied.".
Definition geolocation_missing : string :=
  "Geolocation API is unavailable on this build. Install a geolocation library if needed.".

(** What reaches the effect: the answer [PermissionsAndroid.request] resolves
    to (on another platform, the resumption of [startWatching] alone), a
    position or an error of the watch, the cleanup. *)
Inductive event : Type :=
  | Answer (answer : PermissionStatus)
  | Position (position : GPSLiveDataScreen.GPSPosition)
  | Failure (message : string)
  | Cleanup.

Definition set_errorMessage (m : option string) (c : State) : State :=
  {| gpsData := gpsData c; errorMessage := m; watchIdRef := watchIdRef c |}.

Section Effect.
Context {S G : Type}.
Variable env : Env S G.

(** [requestLocationPermission]. *)
Definition requestLocationPermission (answer : PermissionStatus) : bool :=
  match platform env with
  | android => is_granted answer
  | ios => true
  end.

(** [startWatching] from its [await] on. *)
Definition startWatching (answer : PermissionStatus) (e : Effect) (g : G) : Effect * G :=
  if negb (requestLocationPermission answer) then
    (if isMounted e
     then {| isMounted := isMounted e;
             component := set_errorMessage (Some permission_denied) (component e) |}
     else e, g)
  else
    match geolocation_module env with
    | None =>
        (if isMounted e
         then {| isMounted := isMounted e;
                 component := set_errorMessage (Some geolocation_missing) (component e) |}
         else e, g)
    | Some geolocation =>
        let (id, g') := watchPosition geolocation g in
        ({| isMounted := isMounted e;
            component := {| gpsData := gpsData (component e);
                            errorMessage := errorMessage (component e);
                            watchIdRef := Some id |} |}, g')
    end.

(** The success callback of [watchPosition]. *)
Definition onPosition (position : GPSLiveDataScreen.GPSPosition) (e : Effect) : Effect :=
  if negb (isMounted e) then e
  else {| isMounted := isMounted e;
          component := {| gpsData := Some (GPSLiveDataScreen.sample_of position);
                          errorMessage := None;
                          watchIdRef := watchIdRef (component e) |} |}.

(** The error callback of [watchPosition]. *)
Definition onError (message : string) (e : Effect) : Effect :=
  if isMounted e
  then {| isMounted := isMounted e;
          component := set_errorMessage (Some message) (component e) |}
  else e.

(** The function the effect returns. *)
Definition cleanup (e : Effect) (g : G) : Effect * G :=
  let e' := {| isMounted := false; component := component e |} in
  match watchIdRef (component e) with
  | Some id =>
      match geolocation_module env with
      | Some geolocation => (e', clearWatch geolocation id g)
      | None => (e', g)
      end
  | None => (e', g)
  end.

Definition step (ev : event) (st : Effect * G) : Effect * G :=
  match ev with
  | Answer answer => startWatching answer st.1 st.2
  | Position position => (onPosition position st.1, st.2)
  | Failure message => (onError message st.1, st.2)
  | Cleanup => cleanup st.1 st.2
  end.

Definition run (events : list event) (st : Effect * G) : Effect * G :=
  fold_left (fun st ev => step ev st) events st.
End Effect.

(** A callback of the watch. *)
Definition is_callback (ev : event) : bool :=
  match ev with
  | Position _ | Failure _ => true
  | Answer _ | Cleanup => false
  end.

End GuardedScreen.

(** ** The appends the success callback starts and does not await

    Line 122 of GPSLiveDataScreen.tsx calls [appendGPSData(sample)] and
    attaches a [catch] handler; the callback returns while the call is
    suspended at its first [await].  Here every call in flight is kept with
    the await it is suspended at, and a schedule says when positions arrive
    and when the storage operation a call waits for takes effect. *)

Module PendingAppends.

(** A call of [appendGPSData] suspended at line 52 ([getItem] requested by
    [getCachedGPSData]) or at line 54 ([setItem] requested), with what its
    closure holds. *)
Inductive call (S : Type) : Type :=
  | AwaitsRead (asyncStorage : AsyncStorageLike S) (point : GPSDataPoint)
  | AwaitsWrite (asyncStorage : AsyncStorageLike S) (next : list json).
Arguments AwaitsRead {S} _ _.
Arguments AwaitsWrite {S} _ _.

(** The screen, the backing store and the calls in flight, oldest first. *)
Record Config (S : Type) : Type := {
  view : GPSLiveDataScreen.State;
  store : S;
  calls : list (call S);
}.
Arguments view {S} _.
Arguments store {S} _.
Arguments calls {S} _.

(** A position arrives when [Date.now()] is [now], or the storage operation
    the [i]-th call in flight waits for takes effect. *)
Inductive event : Type :=
  | Arrive (position : GPSLiveDataScreen.GPSPosition) (now : Z)
  | Settle (i : nat).

Section Run.
Context {S : Type}.
Variable rt : Runtime S.

(** The operation a call waits for takes effect on the store, and the call
    runs on to its next [await] ([inl]) or to its end ([inr]). *)
Definition settle (c : call S) (s : S) : (call S + outcome (list json)) * S :=
  match c with
  | AwaitsRead asyncStorage point =>
      match getCachedGPSData rt s with
      | (Fulfilled existing, s') =>
          (inl (AwaitsWrite asyncStorage
                  (take MAX_CACHE_ITEMS (js_of_point point :: existing))), s')
      | (Rejected e, s') => (inr (Rejected e), s')
      end
  | AwaitsWrite asyncStorage next =>
      match setItem asyncStorage GPS_CACHE_KEY (JSON_stringify (JArr next)) s with
      | (Fulfilled _, s') => (inr (Fulfilled next), s')
      | (Rejected e, s') => (inr (Rejected e), s')
      end
  end.

(** The success callback (lines 107-126) up to its return: the call of
    [appendGPSData] is left suspended at its first [await]; with the storage
    module missing the call has returned [[]] and nothing is in flight. *)
Definition arrive (position : GPSLiveDataScreen.GPSPosition) (now : Z)
    (cfg : Config S) : Config S :=
  let sample := GPSLiveDataScreen.sample_of position in
  let last := GPSLiveDataScreen.lastCachedAtRef (view cfg) in
  if GPSLiveDataScreen.admits last now then
    {| view := {| GPSLiveDataScreen.gpsData := Some sample;
                  GPSLiveDataScreen.errorMessage := None;
                  GPSLiveDataScreen.storageMessage :=
                    GPSLiveDataScreen.storageMessage (view cfg);
                  GPSLiveDataScreen.lastCachedAtRef := now |};
       store := store cfg;
       calls := match getAsyncStorage rt with
                | Some asyncStorage => calls cfg ++ [AwaitsRead asyncStorage sample]
                | None => calls cfg
                end |}
  else
    {| view := {| GPSLiveDataScreen.gpsData := Some sample;
                  GPSLiveDataScreen.errorMessage := None;
                  GPSLiveDataScreen.storageMessage :=
                    GPSLiveDataScreen.storageMessage (view cfg);
                  GPSLiveDataScreen.lastCachedAtRef := last |};
       store := store cfg;
       calls := calls cfg |}.

(** The [i]-th call in flight goes on; when it ends rejected, the [catch]
    handler of line 122 sets the storage message. *)
Definition resume (i : nat) (cfg : Config S) : Config S :=
  match calls cfg !! i with
  | None => cfg
  | Some c =>
      match settle c (store cfg) with
      | (inl c', s') =>
          {| view := view cfg; store := s'; calls := <[i := c']> (calls cfg) |}
      | (inr (Fulfilled _), s') =>
          {| view := view cfg; store := s'; calls := delete i (calls cfg) |}
      | (inr (Rejected _), s') =>
          {| view := {| GPSLiveDataScreen.gpsData := GPSLiveDataScreen.gpsData (view cfg);
                        GPSLiveDataScreen.errorMessage :=
                          GPSLiveDataScreen.errorMessage (view cfg);
                        GPSLiveDataScreen.storageMessage := Some failed_to_cache;
                        GPSLiveDataScreen.lastCachedAtRef :=
                          GPSLiveDataScreen.lastCachedAtRef (view cfg) |};
             store := s';
             calls := delete i (calls cfg) |}
      end
  end.

Definition step (ev : event) (cfg : Config S) : Config S :=
  match ev with
  | Arrive position now => arrive position now cfg
  | Settle i => resume i cfg
  end.

Definition run (schedule : list event) (cfg : Config S) : Config S :=
  fold_left (fun cfg ev => step ev cfg) schedule cfg.

(** At no moment of the schedule are two calls in flight. *)
Fixpoint serial (schedule : list event) (cfg : Config S) : bool :=
  match schedule with
  | [] => true
  | ev :: schedule' =>
      (length (calls (step ev cfg)) <=? 1)%nat && serial schedule' (step ev cfg)
  end.

(** The store once a call has run to its end with no other storage
    operation in between. *)
Definition finish (c : call S) (s : S) : S :=
  match settle c s with
  | (inl c', s') => snd (settle c' s')
  | (inr _, s') => s'
  end.
End Run.

(** The screen with nothing in flight. *)
Definition idle {S : Type} (ui : GPSLiveDataScreen.State) (s : S) : Config S :=
  {| view := ui; store := s; calls := [] |}.

(** The positions of a schedule, with their arrival times. *)
Definition arrivals (schedule : list event) : list (GPSLiveDataScreen.GPSPosition * Z) :=
  flat_map (fun ev => match ev with
                      | Arrive position now => [(position, now)]
                      | Settle _ => []
                      end) schedule.

(** The samples the throttle admits of a schedule. *)
Definition admitted (last : Z) (schedule : list event) : list GPSDataPoint :=
  map (fun e => GPSLiveDataScreen.sample_of e.1) (admitted_events last (arrivals schedule)).

(** Two positions whose appends overlap: the second arrives, and its call
    reads the store, before the first call has written. *)
Definition overlapping (p1 p2 : GPSLiveDataScreen.GPSPosition) (t1 t2 : Z) : list event :=
  [Arrive p1 t1; Settle 0; Arrive p2 t2; Settle 1; Settle 0; Settle 0].

End PendingAppends.

(** * Properties *)

(** ** Text *)

#[local] Arguments String.append !_ _ / : simpl nomatch.
#[local] Arguments char_digit : simpl never.
#[local] Arguments digit_char : simpl never.
#[local] Arguments Ascii.eqb : simpl never.

Lemma append_assoc (a b c : string) : (a +:+ b) +:+ c = a +:+ (b +:+ c).
Proof. induction a as [|x a IH]; simpl; [reflexivity | now rewrite IH]. Qed.

Lemma append_empty_r (a : string) : a +:+ "" = a.
Proof. induction a as [|x a IH]; simpl; [reflexivity | now rewrite IH]. Qed.

Lemma length_append (a b : string) :
  String.length (a +:+ b) = String.length a + String.length b.
Proof. induction a as [|x a IH]; simpl; [reflexivity | now rewrite IH]. Qed.

(** ** Decimal digits *)

Lemma digit_cases (d : N) :
  is_digit d →
  d = 0%N ∨ d = 1%N ∨ d = 2%N ∨ d = 3%N ∨ d = 4%N ∨
  d = 5%N ∨ d = 6%N ∨ d = 7%N ∨ d = 8%N ∨ d = 9%N.
Proof. unfold is_digit. lia. Qed.

Ltac each_digit d H :=
  destruct (digit_cases d H) as [->|[->|[->|[->|[->|[->|[->|[->|[->| ->]]]]]]]]].

Lemma char_digit_digit_char (d : N) : is_digit d → char_digit (digit_char d) = Some d.
Proof. intros H. each_digit d H; reflexivity. Qed.

Lemma number_ends_no_digit (s : string) : number_ends s → no_digit_ahead s.
Proof. destruct s; simpl; tauto. Qed.

Lemma read_digits_text (ds : list N) (rest : string) :
  Forall is_digit ds → no_digit_ahead rest →
  read_digits (digits_text ds +:+ rest) = (ds, rest).
Proof.
  intros Hds Hrest. induction Hds as [|d ds Hd _ IH]; simpl.
  - destruct rest as [|c rest]; [reflexivity|]. simpl in Hrest. simpl. now rewrite Hrest.
  - rewrite char_digit_digit_char by assumption. now rewrite IH.
Qed.

Lemma digits_value_snoc (ds : list N) (d : N) :
  digits_value (ds ++ [d]) = (10 * digits_value ds + d)%N.
Proof. unfold digits_value. now rewrite fold_left_app. Qed.

Lemma digits_value_zeros_l (j : nat) (ds : list N) :
  digits_value (zeros j ++ ds) = digits_value ds.
Proof.
  unfold digits_value. rewrite fold_left_app. f_equal.
  induction j as [|j IH]; simpl; [reflexivity|exact IH].
Qed.

Lemma digits_value_zeros_r (ds : list N) (j : nat) :
  digits_value (ds ++ zeros j) = (digits_value ds * 10 ^ N.of_nat j)%N.
Proof.
  induction j as [|j IH].
  - simpl. rewrite app_nil_r. lia.
  - replace (zeros (S j)) with (zeros j ++ [0%N]).
    + rewrite app_assoc, digits_value_snoc, IH.
      rewrite Nat2N.inj_succ, N.pow_succ_r'. lia.
    + unfold zeros. clear. induction j as [|j IH]; simpl; [reflexivity|]. now f_equal.
Qed.

Lemma zeros_digits (j : nat) : Forall is_digit (zeros j).
Proof. apply Forall_forall. intros x Hx. apply elem_of_replicate in Hx as [-> _]. unfold is_digit; lia. Qed.

Lemma digits_fuel_spec (f : nat) (n : N) :
  (n < 2 ^ N.of_nat f)%N →
  digits_value (digits_fuel f n) = n ∧
  Forall is_digit (digits_fuel f n) ∧
  ∃ d ds, digits_fuel f n = d :: ds ∧ ((0 < n)%N → (0 < d)%N).
Proof.
  revert n. induction f as [|f IH]; intros n Hn.
  - simpl in *. assert (n = 0%N) as -> by lia.
    split; [reflexivity|]. split; [repeat constructor|].
    exists 0%N, []. split; [reflexivity | lia].
  - simpl. destruct (N.ltb_spec n 10) as [Hlt|Hge].
    + split; [unfold digits_value; simpl; lia|].
      split; [repeat constructor; exact Hlt|].
      exists n, []. split; [reflexivity | lia].
    + assert (Hq : (n / 10 < 2 ^ N.of_nat f)%N).
      { rewrite Nat2N.inj_succ, N.pow_succ_r' in Hn.
        apply N.Div0.div_lt_upper_bound. lia. }
      destruct (IH _ Hq) as (Hv & Hall & d & ds & Heq & Hpos).
      split; [|split].
      * rewrite digits_value_snoc, Hv.
        pose proof (N.div_mod n 10). lia.
      * apply Forall_app. split; [exact Hall|].
        repeat constructor. apply N.mod_lt. lia.
      * exists d, (ds ++ [(n mod 10)%N]). rewrite Heq. split; [reflexivity|].
        intros _. apply Hpos.
        apply N.div_str_pos. lia.
Qed.

Lemma N_digits_spec (n : N) :
  digits_value (N_digits n) = n ∧
  Forall is_digit (N_digits n) ∧
  ∃ d ds, N_digits n = d :: ds ∧ ((0 < n)%N → (0 < d)%N).
Proof.
  apply digits_fuel_spec. rewrite N2Nat.id. apply N.size_gt.
Qed.

(** ** Reading back a printed number *)

Ltac eqb_lit :=
  repeat match goal with
  | |- context [Ascii.eqb ?a ?b] =>
      let v := eval vm_compute in (Ascii.eqb a b) in
      match v with
      | true => change (Ascii.eqb a b) with true
      | false => change (Ascii.eqb a b) with false
      end
  | |- context [char_digit ?a] =>
      let v := eval vm_compute in (char_digit a) in
      match v with
      | Some ?d => change (char_digit a) with (Some d)
      | None => change (char_digit a) with (@None N)
      end
  end.

Lemma strip10_pow (j f : nat) (m : N) (e : Z) :
  (m mod 10 ≠ 0)%N → (j ≤ f)%nat →
  strip10 f (m * 10 ^ N.of_nat j) e = (m, (e + Z.of_nat j)%Z).
Proof.
  intros Hm. revert f e. induction j as [|j IH]; intros f e Hj.
  - rewrite N.mul_1_r, Z.add_0_r. destruct f as [|f]; simpl; [reflexivity|].
    destruct (N.eqb_spec (m mod 10) 0); [contradiction | reflexivity].
  - destruct f as [|f]; [lia|].
    rewrite Nat2N.inj_succ, N.pow_succ_r'.
    replace (m * (10 * 10 ^ N.of_nat j))%N with ((m * 10 ^ N.of_nat j) * 10)%N by lia.
    simpl strip10. rewrite N.Div0.mod_mul, N.eqb_refl, N.div_mul by lia.
    rewrite IH by lia. f_equal. lia.
Qed.

Lemma nzdigit_of_val (r : nzdigit) : nzdigit_of_N (nzdigit_val r) = Some r.
Proof. destruct r; reflexivity. Qed.

Lemma nzdigit_val_range (r : nzdigit) : (0 < nzdigit_val r < 10)%N.
Proof. destruct r; simpl; lia. Qed.

Lemma number_of_decimal_canonical (neg : bool) (f j : nat) (q : N) (r : nzdigit)
    (m : N) (e : Z) :
  m = ((10 * q + nzdigit_val r) * 10 ^ N.of_nat j)%N → (j ≤ f)%nat →
  number_of_decimal neg f m e = Finite neg q r (e + Z.of_nat j).
Proof.
  intros -> Hj. pose proof (nzdigit_val_range r) as Hr.
  set (s := (10 * q + nzdigit_val r)%N).
  assert (Hmod : (s mod 10 = nzdigit_val r)%N).
  { unfold s. rewrite N.add_comm, N.mul_comm, N.Div0.mod_add. apply N.mod_small. lia. }
  assert (Hdiv : (s / 10 = q)%N).
  { unfold s. rewrite N.add_comm, N.mul_comm, N.div_add by lia.
    rewrite N.div_small by lia. lia. }
  unfold number_of_decimal.
  destruct (N.eqb_spec (s * 10 ^ N.of_nat j) 0) as [H0|_].
  - apply N.eq_mul_0 in H0 as [H0|H0]; [lia|].
    apply N.pow_nonzero in H0; [contradiction | lia].
  - rewrite strip10_pow by lia. now rewrite Hmod, nzdigit_of_val, Hdiv.
Qed.

Lemma read_int_text (d : N) (ds : list N) (rest : string) :
  is_digit d → (0 < d)%N → Forall is_digit ds → no_digit_ahead rest →
  read_int (digits_text (d :: ds) +:+ rest) = Some (d :: ds, rest).
Proof.
  intros Hd Hpos Hds Hrest. simpl. rewrite char_digit_digit_char by assumption.
  rewrite read_digits_text by assumption.
  destruct d; [lia | reflexivity].
Qed.

Lemma read_frac_none (rest : string) :
  number_ends rest → read_frac rest = Some ([], rest).
Proof.
  destruct rest as [|c rest]; simpl; [reflexivity|].
  intros (_ & -> & _). reflexivity.
Qed.

Lemma read_exp_none (rest : string) :
  number_ends rest → read_exp rest = Some (0%Z, rest).
Proof.
  destruct rest as [|c rest]; simpl; [reflexivity|].
  intros (_ & _ & -> & ->). reflexivity.
Qed.

Lemma read_frac_text (ds : list N) (rest : string) :
  ds ≠ [] → Forall is_digit ds → no_digit_ahead rest →
  read_frac (String "." (digits_text ds +:+ rest)) = Some (ds, rest).
Proof.
  intros Hne Hds Hrest. cbn [String.append read_frac]. eqb_lit.
  rewrite read_digits_text by assumption. now destruct ds.
Qed.

Lemma read_exp_text (x : Z) (rest : string) :
  no_digit_ahead rest →
  read_exp (String "e" (exponent_text x +:+ rest)) = Some (x, rest).
Proof.
  intros Hrest. unfold exponent_text.
  destruct (N_digits_spec (Z.abs_N x)) as (Hv & Hall & d & ds & Heq & _).
  destruct (Z.ltb_spec x 0) as [Hneg|Hpos];
    cbn [String.append read_exp]; eqb_lit; cbn [orb]; cbv beta iota;
    unfold read_exp_digits;
    rewrite read_digits_text by assumption; rewrite Hv, Heq; f_equal; f_equal; lia.
Qed.
Section ReadBack.
Variables (neg : bool) (q : N) (r : nzdigit) (d : N) (ds' : list N) (rest : string).
Let ds := d :: ds'.
Hypothesis Hrest : number_ends rest.
Hypothesis Hv : digits_value ds = (10 * q + nzdigit_val r)%N.
Hypothesis Hall : Forall is_digit ds.
Hypothesis Hd : (0 < d)%N.

Let Hrest' : no_digit_ahead rest := number_ends_no_digit _ Hrest.

Lemma lead_is_digit : is_digit d.
Proof. now inversion Hall. Qed.

Lemma rest_are_digits : Forall is_digit ds'.
Proof. now inversion Hall. Qed.

Lemma read_integer_shape (j : nat) :
  read_unsigned neg (digits_text (ds ++ zeros j) +:+ rest)
  = Some (Finite neg q r (Z.of_nat j), rest).
Proof.
  unfold read_unsigned. change (ds ++ zeros j) with (d :: (ds' ++ zeros j)).
  rewrite read_int_text; auto using lead_is_digit.
  2:{ apply Forall_app; split; [apply rest_are_digits | apply zeros_digits]. }
  rewrite read_frac_none, read_exp_none by assumption.
  f_equal. f_equal. rewrite app_nil_r.
  change (d :: ds' ++ zeros j) with (ds ++ zeros j).
  rewrite (number_of_decimal_canonical neg _ j q r).
  - f_equal.
  - now rewrite digits_value_zeros_r, Hv.
  - rewrite length_app. unfold zeros. rewrite length_replicate. lia.
Qed.

Lemma read_point_shape (n : nat) :
  (0 < n < length ds)%nat →
  read_unsigned neg
    ((digits_text (take n ds) +:+ "." +:+ digits_text (drop n ds)) +:+ rest)
  = Some (Finite neg q r (Z.of_nat n - Z.of_nat (length ds)), rest).
Proof.
  intros Hn. unfold read_unsigned. rewrite append_assoc.
  destruct n as [|n]; [lia|].
  change (take (S n) ds) with (d :: take n ds').
  rewrite read_int_text; auto using lead_is_digit.
  2:{ apply Forall_take, rest_are_digits. }
  2:{ reflexivity. }
  cbn [String.append]. rewrite read_frac_text; auto using Forall_drop.
  2:{ intros Hdrop. apply (f_equal length) in Hdrop.
      rewrite length_drop in Hdrop. simpl in Hdrop, Hn. lia. }
  rewrite read_exp_none by assumption.
  f_equal. f_equal.
  change (d :: take n ds') with (take (S n) ds). rewrite take_drop.
  rewrite (number_of_decimal_canonical neg _ 0 q r).
  - f_equal. rewrite length_drop. lia.
  - rewrite Hv. simpl. lia.
  - lia.
Qed.

Lemma read_fraction_shape (j : nat) :
  read_unsigned neg (("0." +:+ digits_text (zeros j ++ ds)) +:+ rest)
  = Some (Finite neg q r (- Z.of_nat (j + length ds)), rest).
Proof.
  unfold read_unsigned. cbn [String.append read_int]. eqb_lit. cbv beta iota.
  rewrite read_frac_text; auto.
  2:{ unfold ds. now destruct (zeros j). }
  2:{ apply Forall_app; split; [apply zeros_digits | assumption]. }
  rewrite read_exp_none by assumption.
  f_equal. f_equal.
  change ([0%N] ++ zeros j ++ ds) with (zeros (S j) ++ ds).
  rewrite (number_of_decimal_canonical neg _ 0 q r).
  - f_equal. rewrite length_app. unfold zeros. rewrite length_replicate. lia.
  - rewrite digits_value_zeros_l, Hv. simpl. lia.
  - lia.
Qed.

Lemma read_exponent_shape (x : Z) :
  read_unsigned neg
    ((match ds with
      | [d0] => digits_text [d0] +:+ "e" +:+ exponent_text x
      | _ => digits_text (take 1 ds) +:+ "." +:+ digits_text (drop 1 ds)
               +:+ "e" +:+ exponent_text x
      end) +:+ rest)
  = Some (Finite neg q r (x - Z.of_nat (length ds')), rest).
Proof.
  pose proof lead_is_digit as Hd0. pose proof rest_are_digits as Hds0. pose proof Hv as Hv0.
  unfold read_unsigned, ds in *. clear Hall Hv.
  destruct ds' as [|d1 ds1].
  - rewrite append_assoc, read_int_text; auto.
    2:{ reflexivity. }
    cbn [String.append read_frac]. eqb_lit. cbv beta iota.
    rewrite read_exp_text by assumption.
    f_equal. f_equal.
    rewrite (number_of_decimal_canonical neg _ 0 q r).
    + f_equal. simpl. lia.
    + rewrite app_nil_r, Hv0. simpl. lia.
    + lia.
  - change (take 1 (d :: d1 :: ds1)) with [d].
    change (drop 1 (d :: d1 :: ds1)) with (d1 :: ds1).
    rewrite append_assoc, read_int_text; auto.
    2:{ reflexivity. }
    rewrite !append_assoc. cbn [String.append]. rewrite read_frac_text; auto.
    2:{ reflexivity. }
    rewrite read_exp_text by assumption.
    f_equal. f_equal.
    rewrite (number_of_decimal_canonical neg _ 0 q r).
    + f_equal. lia.
    + change ([d] ++ d1 :: ds1) with (d :: d1 :: ds1). rewrite Hv0. simpl. lia.
    + lia.
Qed.
End ReadBack.


Lemma read_unsigned_format (neg : bool) (q : N) (r : nzdigit) (e : Z) (rest : string) :
  number_ends rest →
  let ds := N_digits (10 * q + nzdigit_val r) in
  read_unsigned neg (format_decimal ds (e + Z.of_nat (length ds)) +:+ rest)
  = Some (Finite neg q r e, rest).
Proof.
  intros Hrest ds.
  pose proof (nzdigit_val_range r) as Hr.
  destruct (N_digits_spec (10 * q + nzdigit_val r)) as (Hv & Hall & d & ds' & Heq & Hpos).
  fold ds in Hv, Hall, Heq.
  assert (Hd : (0 < d)%N) by (apply Hpos; lia). clear Hpos.
  clearbody ds. subst ds.
  unfold format_decimal.
  set (k := Z.of_nat (length (d :: ds'))).
  assert (Hk : (k = 1 + Z.of_nat (length ds'))%Z) by (unfold k; simpl; lia).
  destruct (Z.leb_spec k (e + k)) as [H1|H1];
    destruct (Z.leb_spec (e + k) 21) as [H2|H2];
    destruct (Z.ltb_spec 0 (e + k)) as [H3|H3];
    destruct (Z.ltb_spec (-6) (e + k)) as [H4|H4];
    destruct (Z.leb_spec (e + k) 0) as [H5|H5];
    cbn [andb]; try lia.
  all: first
    [ rewrite (read_integer_shape neg q r) by assumption; f_equal; f_equal; f_equal; lia
    | rewrite (read_point_shape neg q r) by (try assumption; simpl; lia);
      f_equal; f_equal; f_equal; simpl; lia
    | rewrite (read_fraction_shape neg q r) by assumption;
      f_equal; f_equal; f_equal; simpl; lia
    | rewrite (read_exponent_shape neg q r) by assumption;
      f_equal; f_equal; f_equal; lia ].
Qed.

Lemma parse_number_unsigned (t : string) (res : number * string) :
  read_unsigned false t = Some res → parse_number t = Some res.
Proof.
  destruct t as [|c t]; [discriminate|]. intros H. unfold parse_number.
  destruct (Ascii.eqb_spec c "-") as [->|_]; [|exact H].
  revert H. unfold read_unsigned. cbn [read_int]. eqb_lit. discriminate.
Qed.

Lemma parse_number_text (x : number) (rest : string) :
  Number_isFinite x = true → number_ends rest →
  parse_number (Number_toString x +:+ rest)
  = Some (match x with NegZero => PosZero | _ => x end, rest).
Proof.
  intros Hfin Hrest. destruct x as [| | | | |neg q r e]; try discriminate.
  - apply parse_number_unsigned. unfold read_unsigned.
    cbn [Number_toString String.append read_int]. eqb_lit. cbv beta iota.
    now rewrite read_frac_none, read_exp_none.
  - apply parse_number_unsigned. unfold read_unsigned.
    cbn [Number_toString String.append read_int]. eqb_lit. cbv beta iota.
    now rewrite read_frac_none, read_exp_none.
  - cbn [Number_toString]. destruct neg.
    + rewrite append_assoc. cbn [String.append parse_number]. eqb_lit. cbv beta iota.
      now apply read_unsigned_format.
    + apply parse_number_unsigned. rewrite append_assoc. cbn [String.append].
      now apply read_unsigned_format.
Qed.

Lemma parse_value_of_number (f : nat) (t : string) (x : number) (rest : string) :
  parse_number t = Some (x, rest) → parse_value (S f) t = Some (JNum x, rest).
Proof.
  destruct t as [|c t]; [discriminate|]. intros H. cbn [parse_value].
  assert (Hc : ∀ c', char_digit c' = None → (c' =? "-")%char = false →
               (c =? c')%char = false).
  { intros c' Hd Hm. destruct (Ascii.eqb_spec c c') as [->|]; [|reflexivity].
    revert H. unfold parse_number, read_unsigned. rewrite Hm.
    cbn [read_int]. rewrite Hd. discriminate. }
  rewrite !Hc by reflexivity. now rewrite H.
Qed.

Lemma parse_value_number (f : nat) (x : number) (rest : string) :
  number_ends rest →
  parse_value (S f) (number_text x +:+ rest) = Some (stored_number x, rest).
Proof.
  intros Hrest. unfold number_text.
  destruct (Number_isFinite x) eqn:Hfin.
  - rewrite (parse_value_of_number f _ _ rest (parse_number_text x rest Hfin Hrest)).
    now destruct x.
  - destruct x; try discriminate; reflexivity.
Qed.

(** ** Reading back a stored window *)

Lemma is_ws_cases (c : ascii) :
  is_ws c = true → c = " "%char ∨ c = ascii_of_N 9 ∨ c = ascii_of_N 10 ∨ c = ascii_of_N 13.
Proof.
  unfold is_ws. intros H. rewrite <- (ascii_N_embedding c).
  repeat (apply orb_prop in H as [H|H]);
    apply N.eqb_eq in H; rewrite H; auto.
Qed.

(** A text from which a value can be read starts with no white space. *)
Lemma skip_ws_parsed (f : nat) (t : string) (res : json * string) :
  parse_value f t = Some res → skip_ws t = t.
Proof.
  destruct f as [|f]; [discriminate|]. destruct t as [|c t]; [reflexivity|].
  intros H. cbn [skip_ws]. destruct (is_ws c) eqn:Hc; [|reflexivity].
  exfalso. revert H. cbn [parse_value].
  destruct (is_ws_cases c Hc) as [->|[->|[->| ->]]]; eqb_lit; cbv beta iota;
    unfold parse_number; eqb_lit; unfold read_unsigned; cbn [read_int]; eqb_lit;
    discriminate.
Qed.

Lemma parse_value_flat (f : nat) (v : json) (rest : string) :
  flat v = true → number_ends rest →
  parse_value (S f) (JSON_stringify v +:+ rest) = Some (stored_field v, rest).
Proof.
  intros Hv Hrest. destruct v; try discriminate.
  - reflexivity.
  - now apply parse_value_number.
Qed.

Lemma flat_stored_field (v : json) : flat v = true → flat (stored_field v) = true.
Proof. destruct v as [| |x| | |]; try discriminate; try reflexivity. now destruct x. Qed.

Lemma parse_members_unfold (f : nat) (acc : list (string * json)) (s : string) :
  parse_members (S f) acc s =
  match strip_prefix (String dquote "") s with
  | Some s0 =>
      match parse_string s0 with
      | Some (k, s1) =>
          match strip_prefix ":" (skip_ws s1) with
          | Some s2 =>
              match parse_value f (skip_ws s2) with
              | Some (v, s3) =>
                  let acc' := obj_set acc k v in
                  match skip_ws s3 with
                  | String "," s4 => parse_members f acc' (skip_ws s4)
                  | String "}" rest => Some (acc', rest)
                  | _ => None
                  end
              | None => None
              end
          | None => None
          end
      | None => None
      end
  | None => None
  end.
Proof. reflexivity. Qed.

Lemma parse_members_more (f : nat) (acc : list (string * json)) (key : string)
    (v : json) (tail : string) :
  plain_key key → flat v = true →
  parse_members (S (S f)) acc
    (quote key +:+ ":" +:+ JSON_stringify v +:+ "," +:+ tail)
  = parse_members (S f) (obj_set acc key (stored_field v)) (skip_ws tail).
Proof.
  intros [Hq Hkey] Hv. unfold quote. rewrite Hq.
  cbn [String.append]. rewrite ?append_assoc. cbn [String.append].
  rewrite parse_members_unfold.
  cbn [strip_prefix]. eqb_lit. cbv beta iota. rewrite Hkey.
  cbn [skip_ws]. change (is_ws ":") with false. cbv beta iota.
  cbn [strip_prefix]. eqb_lit. cbv beta iota.
  assert (Hval : parse_value (S f) (JSON_stringify v +:+ String "," tail)
                 = Some (stored_field v, String "," tail)).
  { apply parse_value_flat; [assumption | repeat split; reflexivity]. }
  rewrite (skip_ws_parsed _ _ _ Hval), Hval.
  reflexivity.
Qed.

Lemma parse_members_last (f : nat) (acc : list (string * json)) (key : string)
    (v : json) (rest : string) :
  plain_key key → flat v = true →
  parse_members (S (S f)) acc
    (quote key +:+ ":" +:+ JSON_stringify v +:+ "}" +:+ rest)
  = Some (obj_set acc key (stored_field v), rest).
Proof.
  intros [Hq Hkey] Hv. unfold quote. rewrite Hq.
  cbn [String.append]. rewrite ?append_assoc. cbn [String.append].
  rewrite parse_members_unfold.
  cbn [strip_prefix]. eqb_lit. cbv beta iota. rewrite Hkey.
  cbn [skip_ws]. change (is_ws ":") with false. cbv beta iota.
  cbn [strip_prefix]. eqb_lit. cbv beta iota.
  assert (Hval : parse_value (S f) (JSON_stringify v +:+ String "}" rest)
                 = Some (stored_field v, String "}" rest)).
  { apply parse_value_flat; [assumption | repeat split; reflexivity]. }
  rewrite (skip_ws_parsed _ _ _ Hval), Hval.
  reflexivity.
Qed.

Lemma plain_keys :
  plain_key "latitude" ∧ plain_key "longitude" ∧ plain_key "altitude" ∧
  plain_key "accuracy" ∧ plain_key "timestamp".
Proof. repeat split. Qed.

Lemma skip_ws_quote (key tail : string) :
  skip_ws (quote key +:+ tail) = quote key +:+ tail.
Proof. reflexivity. Qed.

Lemma strip_prefix_quote (c : ascii) (key tail : string) :
  (c =? dquote)%char = false → strip_prefix (String c "") (quote key +:+ tail) = None.
Proof. intros H. unfold quote. cbn [String.append strip_prefix]. now rewrite H. Qed.

Lemma parse_value_point (f : nat) (v : json) (rest : string) :
  point_shaped v →
  parse_value (7 + f) (JSON_stringify v +:+ rest) = Some (stored_value v, rest).
Proof.
  intros [lat lon alt acc ts Hlat Hlon Halt Hacc Hts].
  destruct plain_keys as (K1 & K2 & K3 & K4 & K5).
  cbn [JSON_stringify point_object map String.concat fst snd].
  rewrite !append_assoc.
  change ("{" +:+ ?t) with (String "{" t).
  cbn [plus parse_value]. eqb_lit. cbv beta iota zeta.
  rewrite skip_ws_quote, strip_prefix_quote by reflexivity.
  do 4 (rewrite parse_members_more, skip_ws_quote by assumption).
  rewrite parse_members_last by assumption.
  reflexivity.
Qed.

Lemma skip_ws_point (v : json) (tail : string) :
  point_shaped v → skip_ws (JSON_stringify v +:+ tail) = JSON_stringify v +:+ tail.
Proof. now intros []. Qed.

Lemma strip_prefix_point (c : ascii) (v : json) (tail : string) :
  (c =? "{")%char = false → point_shaped v →
  strip_prefix (String c "") (JSON_stringify v +:+ tail) = None.
Proof.
  intros H []. cbn [JSON_stringify point_object]. rewrite append_assoc.
  cbn [String.append strip_prefix]. now rewrite H.
Qed.

Lemma concat_cons (sep x : string) (y : string) (l : list string) :
  String.concat sep (x :: y :: l) = x +:+ sep +:+ String.concat sep (y :: l).
Proof. reflexivity. Qed.

Lemma parse_elements_window (w : list json) (f : nat) (rest : string) :
  w ≠ [] → Forall point_shaped w →
  parse_elements (length w + 7 + f)
    (String.concat "," (map JSON_stringify w) +:+ String "]" rest)
  = Some (map stored_value w, rest).
Proof.
  intros Hne Hw. induction Hw as [|x w Hx Hw IH]; [contradiction|]. clear Hne.
  destruct w as [|y w].
  - cbn [map String.concat length plus parse_elements].
    rewrite (parse_value_point f x _ Hx). reflexivity.
  - cbn [map]. rewrite concat_cons, !append_assoc.
    replace (length (x :: y :: w) + 7 + f)%nat with (S (7 + (length (y :: w) + f)))%nat
      by (cbn [length]; lia).
    cbn [parse_elements].
    rewrite (parse_value_point _ x _ Hx).
    cbn [String.append skip_ws]. change (is_ws ",") with false. cbv beta iota.
    change (String.concat "," (JSON_stringify y :: map JSON_stringify w))
      with (String.concat "," (map JSON_stringify (y :: w))).
    assert (Hskip : ∀ t, skip_ws (String.concat "," (map JSON_stringify (y :: w)) +:+ t)
                         = String.concat "," (map JSON_stringify (y :: w)) +:+ t).
    { intros t. inversion Hw as [|? ? Hy _]; subst.
      destruct w as [|z w]; cbn [map]; [|rewrite concat_cons, !append_assoc];
        now apply skip_ws_point. }
    rewrite Hskip.
    replace (7 + (length (y :: w) + f))%nat with (length (y :: w) + 7 + f)%nat by lia.
    rewrite IH by discriminate. reflexivity.
Qed.

Lemma parse_value_window (w : list json) (f : nat) (rest : string) :
  Forall point_shaped w →
  parse_value (length w + 8 + f) (JSON_stringify (JArr w) +:+ rest)
  = Some (JArr (map stored_value w), rest).
Proof.
  intros Hw. cbn [JSON_stringify]. rewrite !append_assoc.
  change ("[" +:+ ?t) with (String "[" t).
  change ("]" +:+ rest) with (String "]" rest).
  replace (length w + 8 + f)%nat with (S (length w + 7 + f)) by lia.
  cbn [parse_value]. eqb_lit. cbv beta iota zeta.
  destruct w as [|x w].
  - reflexivity.
  - assert (Hskip : ∀ t, skip_ws (String.concat "," (map JSON_stringify (x :: w)) +:+ t)
                         = String.concat "," (map JSON_stringify (x :: w)) +:+ t).
    { intros t. inversion Hw as [|? ? Hx _]; subst.
      destruct w as [|z w]; cbn [map]; [|rewrite concat_cons, !append_assoc];
        now apply skip_ws_point. }
    assert (Hstrip : ∀ t, strip_prefix "]" (String.concat "," (map JSON_stringify (x :: w)) +:+ t)
                         = None).
    { intros t. inversion Hw as [|? ? Hx _]; subst.
      destruct w as [|z w]; cbn [map]; [|rewrite concat_cons, !append_assoc];
        now apply strip_prefix_point. }
    rewrite Hskip, Hstrip, parse_elements_window by (assumption || discriminate).
    reflexivity.
Qed.

Lemma length_point (v : json) :
  point_shaped v → (12 ≤ String.length (JSON_stringify v))%nat.
Proof.
  intros []. cbn [JSON_stringify point_object map String.concat fst snd].
  rewrite !append_assoc. simpl. lia.
Qed.

Lemma length_window (w : list json) :
  Forall point_shaped w →
  (12 * length w ≤ String.length (String.concat "," (map JSON_stringify w)))%nat.
Proof.
  induction 1 as [|x w Hx Hw IH]; [simpl; lia|].
  pose proof (length_point x Hx) as Hlen.
  destruct w as [|y w].
  - simpl in *. lia.
  - cbn [map]. rewrite concat_cons, !length_append.
    cbn [map] in IH. cbn [length] in *. lia.
Qed.

(** [JSON.parse] reads back what [JSON.stringify] wrote for a window. *)
Lemma JSON_parse_stringify_window (w : list json) :
  Forall point_shaped w →
  JSON_parse (JSON_stringify (JArr w)) = Some (JArr (map stored_value w)).
Proof.
  intros Hw. destruct (decide (w = [])) as [->|Hne]; [reflexivity|].
  unfold JSON_parse.
  set (text := JSON_stringify (JArr w)).
  assert (Hlen : (length w + 8 ≤ 2 * String.length text + 2)%nat).
  { pose proof (length_window w Hw) as H. unfold text. cbn [JSON_stringify].
    rewrite !length_append. simpl String.length.
    destruct w; [contradiction | cbn [length] in *; lia]. }
  assert (Hskip : skip_ws text = text) by reflexivity.
  rewrite Hskip.
  replace (2 * String.length text + 2)%nat
    with (length w + 8 + (2 * String.length text + 2 - (length w + 8)))%nat by lia.
  rewrite <- (append_empty_r text) at 2. unfold text.
  rewrite parse_value_window by assumption. reflexivity.
Qed.

(** ** Fuel

    A reader that succeeds consumes at least one character, and succeeds
    with the same result on any fuel of at least twice the number of
    characters it consumes.  So [JSON_parse] gives every text that can be
    read at all enough fuel. *)

Lemma skip_ws_length (s : string) : (String.length (skip_ws s) ≤ String.length s)%nat.
Proof.
  induction s as [|c s IH]; [reflexivity|]. cbn [skip_ws].
  destruct (is_ws c); cbn [String.length]; lia.
Qed.

Lemma strip_prefix_length (lit s rest : string) :
  strip_prefix lit s = Some rest →
  String.length s = (String.length lit + String.length rest)%nat.
Proof.
  revert s. induction lit as [|c lit IH]; intros s H.
  - now injection H as ->.
  - destruct s as [|d s]; [discriminate|]. cbn [strip_prefix] in H.
    destruct (c =? d)%char; [|discriminate]. cbn [String.length].
    now rewrite (IH s H).
Qed.

Lemma read_digits_length (s : string) (ds : list N) (rest : string) :
  read_digits s = (ds, rest) →
  String.length s = (length ds + String.length rest)%nat.
Proof.
  revert ds. induction s as [|c s IH]; intros ds H; cbn [read_digits] in H.
  - now injection H as <- <-.
  - destruct (char_digit c).
    + destruct (read_digits s) as [ds' rest'] eqn:Hs. injection H as <- <-.
      cbn [String.length length]. now rewrite (IH ds' eq_refl).
    + now injection H as <- <-.
Qed.

Lemma read_int_length (s : string) (ip : list N) (rest : string) :
  read_int s = Some (ip, rest) → (String.length rest < String.length s)%nat.
Proof.
  destruct s as [|c s]; [discriminate|]. cbn [read_int String.length].
  destruct (char_digit c) as [[|d]|]; [| |discriminate].
  - intros H. injection H as <- <-. lia.
  - destruct (read_digits s) as [ds rest'] eqn:Hs. intros H. injection H as <- <-.
    apply read_digits_length in Hs. lia.
Qed.

Lemma read_frac_length (s : string) (fp : list N) (rest : string) :
  read_frac s = Some (fp, rest) → (String.length rest ≤ String.length s)%nat.
Proof.
  destruct s as [|c s]; cbn [read_frac String.length].
  - intros H. now injection H as <- <-.
  - destruct (c =? ".")%char.
    + destruct (read_digits s) as [[|d ds] rest'] eqn:Hs; [discriminate|].
      intros H. injection H as <- <-. apply read_digits_length in Hs. lia.
    + intros H. injection H as <- <-. cbn [String.length]. lia.
Qed.

Lemma read_exp_digits_length (neg : bool) (s : string) (x : Z) (rest : string) :
  read_exp_digits neg s = Some (x, rest) → (String.length rest < String.length s)%nat.
Proof.
  unfold read_exp_digits.
  destruct (read_digits s) as [[|d ds] rest'] eqn:Hs; [discriminate|].
  intros H. injection H as _ <-. apply read_digits_length in Hs. cbn [length] in Hs. lia.
Qed.

Lemma read_exp_length (s : string) (x : Z) (rest : string) :
  read_exp s = Some (x, rest) → (String.length rest ≤ String.length s)%nat.
Proof.
  destruct s as [|c s]; cbn [read_exp String.length].
  - intros H. now injection H as <- <-.
  - destruct ((c =? "e")%char || (c =? "E")%char).
    + destruct s as [|sign t]; [discriminate|].
      destruct (sign =? "-")%char; [|destruct (sign =? "+")%char];
        intros H; apply read_exp_digits_length in H; cbn [String.length] in *; lia.
    + intros H. injection H as <- <-. cbn [String.length]. lia.
Qed.

Lemma parse_number_length (s : string) (x : number) (rest : string) :
  parse_number s = Some (x, rest) → (String.length rest < String.length s)%nat.
Proof.
  assert (Hu : ∀ neg t, read_unsigned neg t = Some (x, rest) →
               (String.length rest < String.length t)%nat).
  { intros neg t. unfold read_unsigned.
    destruct (read_int t) as [[ip s1]|] eqn:H1; [|discriminate].
    destruct (read_frac s1) as [[fp s2]|] eqn:H2; [|discriminate].
    destruct (read_exp s2) as [[y s3]|] eqn:H3; [|discriminate].
    intros H. injection H as _ <-.
    apply read_int_length in H1. apply read_frac_length in H2.
    apply read_exp_length in H3. lia. }
  destruct s as [|c s]; [discriminate|]. unfold parse_number.
  destruct (c =? "-")%char; intros H; apply Hu in H; cbn [String.length] in *; lia.
Qed.

Lemma parse_string_length (s : string) :
  ∀ t rest, parse_string s = Some (t, rest) →
            (String.length rest < String.length s)%nat.
Proof.
  remember (String.length s) as n eqn:Hn. revert s Hn.
  induction n as [n IH0] using lt_wf_ind. intros s -> t rest.
  assert (IH : ∀ u t0 rest0, (String.length u < String.length s)%nat →
            parse_string u = Some (t0, rest0) →
            (String.length rest0 < String.length u)%nat).
  { intros u t0 rest0 Hu. exact (IH0 _ Hu u eq_refl t0 rest0). }
  clear IH0.
  destruct s as [|c s]; [discriminate|]. cbn [parse_string String.length] in *.
  assert (Hcons : ∀ (a : ascii) (u : string),
            (String.length u < S (String.length s))%nat →
            match parse_string u with
            | Some (t0, rest0) => Some (String a t0, rest0)
            | None => None
            end = Some (t, rest) → (String.length rest < S (String.length s))%nat).
  { intros a u Hu. destruct (parse_string u) as [[t0 rest0]|] eqn:Hp; [|discriminate].
    intros H. injection H as _ <-. apply IH in Hp; cbn [String.length] in *; lia. }
  destruct (c =? dquote)%char.
  { intros H. injection H as _ <-. lia. }
  destruct (c =? "\")%char.
  - destruct s as [|e s]; [discriminate|]. cbn [String.length] in *.
    repeat match goal with
    | |- (if ?b then _ else _) = _ → _ => destruct b; [apply Hcons; lia|]
    end.
    destruct (e =? "u")%char; [|discriminate].
    destruct s as [|h1 [|h2 [|h3 [|h4 s5]]]]; try (cbv beta iota; discriminate).
    destruct (hex_digit h1), (hex_digit h2), (hex_digit h3), (hex_digit h4);
      try discriminate.
    destruct (parse_string s5) as [[t0 rest0]|] eqn:Hp; [|discriminate].
    intros H. injection H as _ <-. apply IH in Hp; cbn [String.length] in *; lia.
  - destruct (N_of_ascii c <? 32)%N; [discriminate|]. apply Hcons. lia.
Qed.

Lemma parse_value_unfold (f : nat) (c : ascii) (s' : string) :
  parse_value (S f) (String c s') =
  if (c =? "n")%char then expect "ull" s' JNull
  else if (c =? "t")%char then expect "rue" s' (JBool true)
  else if (c =? "f")%char then expect "alse" s' (JBool false)
  else if (c =? dquote)%char then
    match parse_string s' with
    | Some (t, rest) => Some (JStr t, rest)
    | None => None
    end
  else if (c =? "[")%char then
    match strip_prefix "]" (skip_ws s') with
    | Some rest => Some (JArr [], rest)
    | None =>
        match parse_elements f (skip_ws s') with
        | Some (l, rest) => Some (JArr l, rest)
        | None => None
        end
    end
  else if (c =? "{")%char then
    match strip_prefix "}" (skip_ws s') with
    | Some rest => Some (JObj [], rest)
    | None =>
        match parse_members f [] (skip_ws s') with
        | Some (ps, rest) => Some (JObj ps, rest)
        | None => None
        end
    end
  else
    match parse_number (String c s') with
    | Some (x, rest) => Some (JNum x, rest)
    | None => None
    end.
Proof. reflexivity. Qed.

Lemma parse_elements_unfold (f : nat) (s : string) :
  parse_elements (S f) s =
  match parse_value f s with
  | Some (v, s1) =>
      match skip_ws s1 with
      | String "," s2 =>
          match parse_elements f (skip_ws s2) with
          | Some (l, rest) => Some (v :: l, rest)
          | None => None
          end
      | String "]" rest => Some ([v], rest)
      | _ => None
      end
  | None => None
  end.
Proof. reflexivity. Qed.

Lemma expect_length (lit s : string) (v0 v : json) (rest : string) :
  expect lit s v0 = Some (v, rest) → (String.length rest ≤ String.length s)%nat.
Proof.
  unfold expect. destruct (strip_prefix lit s) as [rest'|] eqn:H; [|discriminate].
  intros E. injection E as _ <-. apply strip_prefix_length in H. lia.
Qed.

Lemma fuel_adequate (f : nat) :
  (∀ s v rest, parse_value f s = Some (v, rest) → enough_fuel parse_value s v rest)
  ∧ (∀ s l rest, parse_elements f s = Some (l, rest) →
       enough_fuel parse_elements s l rest)
  ∧ (∀ acc s ps rest, parse_members f acc s = Some (ps, rest) →
       enough_fuel (fun f' => parse_members f' acc) s ps rest).
Proof.
  induction f as [|f (IHv & IHe & IHm)]; [repeat split; discriminate|].
  split; [|split].
  - intros s v rest H. destruct s as [|c s']; [discriminate|].
    rewrite parse_value_unfold in H. unfold enough_fuel. cbn [String.length].
    assert (Hflat : ∀ body : option (json * string),
              body = Some (v, rest) →
              (String.length rest ≤ String.length s')%nat →
              (∀ g, parse_value (S g) (String c s') = body) →
              (String.length rest < S (String.length s'))%nat
              ∧ ∀ f', (2 * (S (String.length s') - String.length rest) ≤ f')%nat →
                      parse_value f' (String c s') = Some (v, rest)).
    { intros body Hb Hlen Hg. split; [lia|]. intros [|g] Hf; [lia|]. now rewrite Hg. }
    destruct (c =? "n")%char eqn:E1.
    { apply (Hflat _ H); [now apply expect_length in H|].
      intros g. now rewrite parse_value_unfold, E1. }
    destruct (c =? "t")%char eqn:E2.
    { apply (Hflat _ H); [now apply expect_length in H|].
      intros g. now rewrite parse_value_unfold, E1, E2. }
    destruct (c =? "f")%char eqn:E3.
    { apply (Hflat _ H); [now apply expect_length in H|].
      intros g. now rewrite parse_value_unfold, E1, E2, E3. }
    destruct (c =? dquote)%char eqn:E4.
    { apply (Hflat _ H).
      - destruct (parse_string s') as [[t r]|] eqn:Hp; [|discriminate].
        injection H as _ <-. apply parse_string_length in Hp. lia.
      - intros g. now rewrite parse_value_unfold, E1, E2, E3, E4. }
    pose proof (skip_ws_length s') as Hws.
    destruct (c =? "[")%char eqn:E5.
    { destruct (strip_prefix "]" (skip_ws s')) as [r|] eqn:Hs.
      - apply (Hflat _ H).
        + injection H as _ <-. apply strip_prefix_length in Hs. lia.
        + intros g. now rewrite parse_value_unfold, E1, E2, E3, E4, E5, Hs.
      - destruct (parse_elements f (skip_ws s')) as [[l r]|] eqn:Hp; [|discriminate].
        injection H as <- <-. destruct (IHe _ _ _ Hp) as [Hlen Hfuel].
        split; [lia|]. intros [|g] Hf; [lia|].
        rewrite parse_value_unfold, E1, E2, E3, E4, E5, Hs, Hfuel; [reflexivity|lia]. }
    destruct (c =? "{")%char eqn:E6.
    { destruct (strip_prefix "}" (skip_ws s')) as [r|] eqn:Hs.
      - apply (Hflat _ H).
        + injection H as _ <-. apply strip_prefix_length in Hs. lia.
        + intros g. now rewrite parse_value_unfold, E1, E2, E3, E4, E5, E6, Hs.
      - destruct (parse_members f [] (skip_ws s')) as [[ps r]|] eqn:Hp; [|discriminate].
        injection H as <- <-. destruct (IHm _ _ _ _ Hp) as [Hlen Hfuel].
        split; [lia|]. intros [|g] Hf; [lia|].
        rewrite parse_value_unfold, E1, E2, E3, E4, E5, E6, Hs, Hfuel; [reflexivity|lia]. }
    apply (Hflat _ H).
    + destruct (parse_number (String c s')) as [[x r]|] eqn:Hp; [|discriminate].
      injection H as _ <-. apply parse_number_length in Hp. cbn [String.length] in Hp. lia.
    + intros g. now rewrite parse_value_unfold, E1, E2, E3, E4, E5, E6.
  - intros s l rest H. rewrite parse_elements_unfold in H.
    destruct (parse_value f s) as [[v s1]|] eqn:Hv; [|discriminate].
    destruct (IHv _ _ _ Hv) as [Hlen1 Hfuel1].
    pose proof (skip_ws_length s1) as Hws1.
    destruct (skip_ws s1) as [|c1 s2] eqn:Hs1; [discriminate|].
    cbn [String.length] in Hws1.
    destruct (Ascii.eqb_spec c1 ",") as [->|Hcomma].
    + destruct (parse_elements f (skip_ws s2)) as [[l' r]|] eqn:Hp; [|discriminate].
      injection H as <- <-. destruct (IHe _ _ _ Hp) as [Hlen2 Hfuel2].
      pose proof (skip_ws_length s2) as Hws2.
      split; [lia|]. intros [|g] Hf; [lia|].
      rewrite parse_elements_unfold, Hfuel1, Hs1, Hfuel2; [reflexivity|lia|lia].
    + destruct (Ascii.eqb_spec c1 "]") as [->|Hclose].
      * injection H as <- <-.
        split; [lia|]. intros [|g] Hf; [lia|].
        rewrite parse_elements_unfold, Hfuel1, Hs1; [reflexivity|lia].
      * exfalso. revert H. clear -Hcomma Hclose.
        destruct c1 as [[] [] [] [] [] [] [] []]; congruence.
  - intros acc s ps rest H. rewrite parse_members_unfold in H.
    destruct (strip_prefix (String dquote "") s) as [s0|] eqn:Hq; [|discriminate].
    destruct (parse_string s0) as [[k s1]|] eqn:Hk; [|discriminate].
    destruct (strip_prefix ":" (skip_ws s1)) as [s2|] eqn:Hc; [|discriminate].
    destruct (parse_value f (skip_ws s2)) as [[v s3]|] eqn:Hv; [|discriminate].
    cbv zeta in H.
    pose proof (strip_prefix_length _ _ _ Hq) as Lq.
    pose proof (parse_string_length _ _ _ Hk) as Lk.
    pose proof (strip_prefix_length _ _ _ Hc) as Lc.
    pose proof (skip_ws_length s1) as Hws1. pose proof (skip_ws_length s2) as Hws2.
    pose proof (skip_ws_length s3) as Hws3.
    destruct (IHv _ _ _ Hv) as [Hlen1 Hfuel1].
    cbn [String.length] in Lq, Lc.
    destruct (skip_ws s3) as [|c3 s4] eqn:Hs3; [discriminate|].
    cbn [String.length] in Hws3.
    destruct (Ascii.eqb_spec c3 ",") as [->|Hcomma].
    + destruct (IHm _ _ _ _ H) as [Hlen2 Hfuel2].
      pose proof (skip_ws_length s4) as Hws4.
      split; [lia|]. intros [|g] Hf; [lia|].
      rewrite parse_members_unfold, Hq, Hk, Hc, Hfuel1 by lia. cbv zeta.
      rewrite Hs3. apply Hfuel2. lia.
    + destruct (Ascii.eqb_spec c3 "}") as [->|Hclose].
      * injection H as <- <-.
        split; [lia|]. intros [|g] Hf; [lia|].
        rewrite parse_members_unfold, Hq, Hk, Hc, Hfuel1 by lia. cbv zeta.
        now rewrite Hs3.
      * exfalso. revert H. clear -Hcomma Hclose.
        destruct c3 as [[] [] [] [] [] [] [] []]; congruence.
Qed.

(** [JSON_parse] reads every text that some amount of fuel reads. *)
Theorem JSON_parse_fuel (f : nat) (text : string) (v : json) (rest : string) :
  parse_value f (skip_ws text) = Some (v, rest) → skip_ws rest = "" →
  JSON_parse text = Some v.
Proof.
  intros H Hrest. destruct (fuel_adequate f) as [Hv _].
  destruct (Hv _ _ _ H) as [_ Hfuel]. unfold JSON_parse.
  pose proof (skip_ws_length text). rewrite Hfuel by lia. now rewrite Hrest.
Qed.

(** ** The bounded point cache on a device store *)

Lemma stored_field_idem (v : json) : stored_field (stored_field v) = stored_field v.
Proof. destruct v as [| |x| | |]; try reflexivity. now destruct x. Qed.

Lemma stored_value_idem (v : json) : stored_value (stored_value v) = stored_value v.
Proof.
  destruct v as [| | | | |ps]; try reflexivity. cbn [stored_value]. f_equal.
  rewrite map_map. apply map_ext. intros [k x]. cbn. now rewrite stored_field_idem.
Qed.

Lemma point_shaped_stored (v : json) : point_shaped v → point_shaped (stored_value v).
Proof. intros []. apply point_shaped_intro; now apply flat_stored_field. Qed.

Lemma point_shaped_js (p : GPSDataPoint) : point_shaped (js_of_point p).
Proof.
  destruct p as [lat lon alt acc ts]. apply point_shaped_intro; try reflexivity;
    cbn; [now destruct alt | now destruct acc].
Qed.

Lemma json_number_stored (x : number) : json_number x = true → stored_number x = JNum x.
Proof. now destruct x. Qed.

Lemma json_point_stored (p : GPSDataPoint) :
  json_point p = true → stored_point p = js_of_point p.
Proof.
  destruct p as [lat lon alt acc ts]. unfold json_point. cbn [latitude longitude altitude accuracy timestamp].
  rewrite !andb_true_iff. intros ((((Hlat & Hlon) & Halt) & Hacc) & Hts).
  unfold stored_point, js_of_point, stored_value. cbn [map fst snd stored_field latitude longitude altitude accuracy timestamp].
  rewrite !json_number_stored by assumption.
  destruct alt as [a|], acc as [b|]; cbn [js_of_nullable stored_field json_nullable] in *;
    rewrite ?json_number_stored by assumption; reflexivity.
Qed.

Lemma holds_window_shaped disk w : holds_window disk w → Forall point_shaped w.
Proof.
  intros [[_ ->]|(w0 & _ & Hw0 & ->)]; [constructor|].
  apply List.Forall_map. revert Hw0. apply List.Forall_impl, point_shaped_stored.
Qed.

Lemma holds_window_idem disk w : holds_window disk w → map stored_value w = w.
Proof.
  intros [[_ ->]|(w0 & _ & _ & ->)]; [reflexivity|].
  rewrite map_map. apply map_ext, stored_value_idem.
Qed.

Lemma read_holds_window disk w :
  holds_window disk w → getCachedGPSData with_storage disk = (Fulfilled w, disk).
Proof.
  unfold getCachedGPSData, await, resolve. cbn.
  intros [[-> ->]|(w0 & -> & Hw0 & ->)]; [reflexivity|].
  unfold parse_cached. rewrite JSON_parse_stringify_window by assumption.
  reflexivity.
Qed.

Lemma append_holds_window disk w p :
  holds_window disk w →
  let next := take MAX_CACHE_ITEMS (js_of_point p :: w) in
  appendGPSData with_storage p disk
  = (Fulfilled next, <[GPS_CACHE_KEY := JSON_stringify (JArr next)]> disk)
  ∧ holds_window (snd (appendGPSData with_storage p disk))
      (take MAX_CACHE_ITEMS (stored_point p :: w)).
Proof.
  intros Hw next.
  assert (Happ : appendGPSData with_storage p disk
    = (Fulfilled next, <[GPS_CACHE_KEY := JSON_stringify (JArr next)]> disk)).
  { unfold appendGPSData. cbn [getAsyncStorage with_storage async_storage_module].
    unfold await at 1. rewrite (read_holds_window disk w Hw). reflexivity. }
  split; [exact Happ|]. rewrite Happ. cbn [snd].
  right. exists next. split; [apply lookup_insert_eq|]. split.
  - apply Forall_take. constructor; [apply point_shaped_js | now apply holds_window_shaped with disk].
  - unfold next. rewrite <- List.firstn_map. cbn [map].
    now rewrite (holds_window_idem disk w Hw).
Qed.

Lemma take_app_take {A} (n m : nat) (l k : list A) :
  (n ≤ m)%nat → take n (l ++ take m k) = take n (l ++ k).
Proof.
  revert n. induction l as [|a l IH]; intros n Hn.
  - cbn [app]. rewrite take_take. f_equal. lia.
  - destruct n as [|n]; [reflexivity|]. cbn. f_equal. apply IH. lia.
Qed.

Lemma append_all_window (samples : list GPSDataPoint) disk w :
  holds_window disk w → (length w ≤ MAX_CACHE_ITEMS)%nat →
  holds_window (append_all with_storage samples disk)
    (take MAX_CACHE_ITEMS (rev (map stored_point samples) ++ w)).
Proof.
  revert disk w. induction samples as [|p samples IH]; intros disk w Hw Hlen.
  - cbn. now rewrite take_ge by exact Hlen.
  - cbn [append_all map rev].
    destruct (append_holds_window disk w p Hw) as [_ Hnext].
    specialize (IH _ _ Hnext). rewrite take_app_take in IH by reflexivity.
    rewrite <- app_assoc. cbn [app]. apply IH.
    rewrite length_take. lia.
Qed.

Lemma empty_holds_window disk : disk !! GPS_CACHE_KEY = None → holds_window disk [].
Proof. intros H. now left. Qed.

Lemma read_after_appends (samples : list GPSDataPoint) disk :
  disk !! GPS_CACHE_KEY = None →
  getCachedGPSData with_storage (append_all with_storage samples disk)
  = (Fulfilled (take MAX_CACHE_ITEMS (rev (map stored_point samples))),
     append_all with_storage samples disk).
Proof.
  intros Hdisk. apply read_holds_window.
  pose proof (append_all_window samples disk [] (empty_holds_window disk Hdisk)) as H.
  rewrite app_nil_r in H. apply H. cbn. lia.
Qed.

Lemma append_all_snoc {S} (rt : Runtime S) samples p s :
  append_all rt (samples ++ [p]) s = snd (appendGPSData rt p (append_all rt samples s)).
Proof. revert s. induction samples as [|q samples IH]; intros s; cbn; [reflexivity | apply IH]. Qed.

Lemma json_points_stored (samples : list GPSDataPoint) :
  Forall (fun p => json_point p = true) samples →
  map stored_point samples = map js_of_point samples.
Proof.
  induction 1 as [|p samples Hp _ IH]; cbn [map]; [reflexivity|].
  now rewrite IH, json_point_stored.
Qed.

(** C1 (amended).  After samples [s1 ... sk] have been appended in that order
    to a device store with nothing under the cache key, [getCachedGPSData]
    returns the samples newest first, cut to the first 120, each as JSON
    stores it ([stored_point]); a sample whose numbers are all finite and
    not [-0] is stored as itself.  Appending one more sample to a window of
    120 puts the new sample first, keeps the 119 newest of the window in
    order and drops the oldest. *)
Theorem fifo_order (samples : list GPSDataPoint) (disk : gmap string string) :
  disk !! GPS_CACHE_KEY = None →
  let after := append_all with_storage samples disk in
  let window := rev (map stored_point samples) in
  fst (getCachedGPSData with_storage after) = Fulfilled (take MAX_CACHE_ITEMS window)
  ∧ (Forall (fun p => json_point p = true) samples →
     window = rev (map js_of_point samples))
  ∧ (∀ p : GPSDataPoint, length samples = MAX_CACHE_ITEMS →
     fst (getCachedGPSData with_storage (snd (appendGPSData with_storage p after)))
     = Fulfilled (stored_point p :: take 119 window)
     ∧ window = take 119 window ++ [stored_point (hd p samples)]).
Proof.
  intros Hdisk after window. split; [|split].
  - unfold after. now rewrite read_after_appends.
  - intros Hs. unfold window. now rewrite json_points_stored.
  - intros p Hlen. split.
    + unfold after. rewrite <- append_all_snoc, read_after_appends by assumption.
      cbn [fst]. rewrite map_app, rev_app_distr. reflexivity.
    + unfold window. destruct samples as [|s1 samples]; [discriminate|].
      cbn [hd map rev]. rewrite take_app_length'; [reflexivity|].
      rewrite length_rev, length_map. cbn in Hlen. unfold MAX_CACHE_ITEMS in Hlen. lia.
Qed.

Lemma fifo_order_witness :
  fst (getCachedGPSData with_storage (append_all with_storage [fix_a; fix_b] ∅))
  = Fulfilled [js_of_point fix_b; js_of_point fix_a].
Proof.
  pose proof (fifo_order [fix_a; fix_b] ∅ (lookup_empty _)) as (H & Hs & _).
  cbv zeta in H, Hs. rewrite H, Hs by (repeat constructor). reflexivity.
Defined.

(** C1 as stated fails: a sample whose altitude is [NaN] does not read back
    as itself (its altitude reads back as [null]). *)
Lemma fifo_order_fails_on_NaN :
  fst (getCachedGPSData with_storage (append_all with_storage [fix_nan] ∅))
  ≠ Fulfilled (take MAX_CACHE_ITEMS (rev (map js_of_point [fix_nan]))).
Proof. vm_compute. discriminate. Qed.

Lemma read_device (d : gmap string string) :
  ∃ w, getCachedGPSData with_storage d = (Fulfilled w, d).
Proof.
  unfold getCachedGPSData, await, resolve.
  cbn [getAsyncStorage with_storage async_storage_module device_storage getItem].
  destruct (d !! GPS_CACHE_KEY) as [[|c raw]|]; eexists; reflexivity.
Qed.

Lemma append_device (d : gmap string string) (p : GPSDataPoint) (w : list json) :
  getCachedGPSData with_storage d = (Fulfilled w, d) →
  appendGPSData with_storage p d
  = (Fulfilled (take MAX_CACHE_ITEMS (js_of_point p :: w)),
     <[GPS_CACHE_KEY := JSON_stringify (JArr (take MAX_CACHE_ITEMS (js_of_point p :: w)))]> d).
Proof.
  intros Hread. unfold appendGPSData.
  cbn [getAsyncStorage with_storage async_storage_module].
  unfold await at 1. rewrite Hread. reflexivity.
Qed.

(** C2.  After [N] appends to a device store with nothing under the cache
    key, [getCachedGPSData] returns [min N 120] entries.  In every state of
    the store [appendGPSData] writes, and returns, a window of at most 120
    entries, and [getCachedGPSData] writes nothing. *)
Theorem capacity_invariant (samples : list GPSDataPoint) (disk : gmap string string) :
  disk !! GPS_CACHE_KEY = None →
  (∃ w, fst (getCachedGPSData with_storage (append_all with_storage samples disk))
        = Fulfilled w
        ∧ length w = Nat.min (length samples) MAX_CACHE_ITEMS)
  ∧ (∀ (d : gmap string string) (p : GPSDataPoint),
       ∃ next, appendGPSData with_storage p d
               = (Fulfilled next, <[GPS_CACHE_KEY := JSON_stringify (JArr next)]> d)
               ∧ (length next ≤ MAX_CACHE_ITEMS)%nat)
  ∧ (∀ d : gmap string string, snd (getCachedGPSData with_storage d) = d).
Proof.
  intros Hdisk. split; [|split].
  - eexists. rewrite read_after_appends by assumption. split; [reflexivity|].
    rewrite length_take, length_rev, length_map. lia.
  - intros d p. destruct (read_device d) as [w Hw].
    eexists. split; [exact (append_device d p w Hw)|]. rewrite length_take. lia.
  - intros d. destruct (read_device d) as [w Hw]. now rewrite Hw.
Qed.

Lemma capacity_invariant_witness :
  ∃ w, fst (getCachedGPSData with_storage
              (append_all with_storage (replicate 121 fix_b) ∅)) = Fulfilled w
       ∧ length w = 120%nat.
Proof.
  destruct (capacity_invariant (replicate 121 fix_b) ∅ (lookup_empty _))
    as ((w & Hw & Hlen) & _).
  exists w. split; [exact Hw | exact Hlen].
Defined.

Lemma window_reads_back (w : list json) :
  Forall point_shaped w → parse_cached (JSON_stringify (JArr w)) = map stored_value w.
Proof. intros Hw. unfold parse_cached. now rewrite JSON_parse_stringify_window. Qed.

(** C8 (amended).  For every window of samples whose numbers are all finite
    and not [-0] (altitude and accuracy may be absent and are then written
    as [null]), reading the serialized window back ([JSON.parse] and the
    array check of lines 35-43 after the [JSON.stringify] of line 54) yields
    the window itself. *)
Theorem window_round_trip (points : list GPSDataPoint) :
  Forall (fun p => json_point p = true) points →
  parse_cached (JSON_stringify (JArr (map js_of_point points))) = map js_of_point points.
Proof.
  intros Hp. rewrite window_reads_back.
  - rewrite map_map. change (map (fun p => stored_value (js_of_point p)) points)
      with (map stored_point points). now apply json_points_stored.
  - apply List.Forall_map, Forall_forall. intros p _. apply point_shaped_js.
Qed.

Lemma window_round_trip_witness :
  parse_cached (JSON_stringify (JArr (map js_of_point [fix_b; fix_a])))
  = map js_of_point [fix_b; fix_a].
Proof. apply (window_round_trip [fix_b; fix_a]). repeat constructor. Defined.

(** C8 as stated fails: a window holding a sample whose altitude is [NaN]
    reads back with that altitude [null]. *)
Lemma window_round_trip_fails_on_NaN :
  parse_cached (JSON_stringify (JArr (map js_of_point [fix_nan])))
  ≠ map js_of_point [fix_nan].
Proof. vm_compute. discriminate. Qed.

(** ** The availability gate *)

(** C3.  When the storage module cannot be resolved, [getCachedGPSData]
    returns the empty sequence, [appendGPSData x] returns the empty sequence
    and leaves the store as it was, so that a later read, with the module
    present or not, returns what it would have returned before. *)
Theorem unavailable_degradation {S : Type} (rt : Runtime S) (s : S) (x : GPSDataPoint) :
  isStorageReady rt = false →
  getCachedGPSData rt s = (Fulfilled [], s)
  ∧ appendGPSData rt x s = (Fulfilled [], s)
  ∧ ∀ rt' : Runtime S,
      getCachedGPSData rt' (snd (appendGPSData rt x s)) = getCachedGPSData rt' s.
Proof.
  unfold isStorageReady, getCachedGPSData, appendGPSData.
  destruct (getAsyncStorage rt); [discriminate|]. intros _. repeat split.
Qed.

Lemma unavailable_degradation_witness :
  fst (getCachedGPSData with_storage
         (snd (appendGPSData without_storage fix_a {[GPS_CACHE_KEY := "[]"]})))
  = fst (getCachedGPSData with_storage {[GPS_CACHE_KEY := "[]"]}).
Proof.
  destruct (unavailable_degradation (S := gmap string string) without_storage
              {[GPS_CACHE_KEY := "[]"]} fix_a eq_refl) as (_ & _ & H).
  now rewrite (H with_storage).
Defined.

(** ** Malformed stored data *)

(** C4.  Whenever the value stored under the cache key is not the text of a
    JSON array (it does not parse, or parses to something else),
    [getCachedGPSData] fulfils with the empty sequence. *)
Theorem malformed_blob_reads_empty {S : Type} (rt : Runtime S)
    (storage : AsyncStorageLike S) (s s' : S) (raw : string) :
  getAsyncStorage rt = Some storage →
  getItem storage GPS_CACHE_KEY s = (Fulfilled (Some raw), s') →
  (∀ l, JSON_parse raw ≠ Some (JArr l)) →
  getCachedGPSData rt s = (Fulfilled [], s').
Proof.
  intros Hrt Hget Hraw. unfold getCachedGPSData, await. rewrite Hrt, Hget.
  destruct raw as [|c raw]; [reflexivity|]. unfold resolve, parse_cached.
  destruct (JSON_parse (String c raw)) as [[| | | |l|]|] eqn:Hparse; try reflexivity.
  now destruct (Hraw l).
Qed.

Lemma malformed_blob_reads_empty_witness :
  getCachedGPSData with_storage {[GPS_CACHE_KEY := "not json"]}
  = (Fulfilled [], {[GPS_CACHE_KEY := "not json"]})
  ∧ getCachedGPSData with_storage {[GPS_CACHE_KEY := "{}"]}
    = (Fulfilled [], {[GPS_CACHE_KEY := "{}"]}).
Proof.
  split.
  - apply (malformed_blob_reads_empty with_storage device_storage _ _ "not json");
      [reflexivity | reflexivity | intros l; vm_compute; discriminate].
  - apply (malformed_blob_reads_empty with_storage device_storage _ _ "{}");
      [reflexivity | reflexivity | intros l; vm_compute; discriminate].
Defined.

(** C10.  Whenever the value stored under the cache key parses as a JSON
    array, [getCachedGPSData] fulfils with the elements of that array as
    parsed, whatever they are. *)
Theorem array_blob_read_as_is {S : Type} (rt : Runtime S)
    (storage : AsyncStorageLike S) (s s' : S) (raw : string) (l : list json) :
  getAsyncStorage rt = Some storage →
  getItem storage GPS_CACHE_KEY s = (Fulfilled (Some raw), s') →
  JSON_parse raw = Some (JArr l) →
  getCachedGPSData rt s = (Fulfilled l, s').
Proof.
  intros Hrt Hget Hraw. unfold getCachedGPSData, await. rewrite Hrt, Hget.
  destruct raw as [|c raw]; [discriminate|]. unfold resolve, parse_cached.
  now rewrite Hraw.
Qed.

Lemma array_blob_read_as_is_witness :
  getCachedGPSData with_storage {[GPS_CACHE_KEY := "[1,2,3]"]}
  = (Fulfilled [JNum (number_of_Z 1); JNum (number_of_Z 2); JNum (number_of_Z 3)],
     {[GPS_CACHE_KEY := "[1,2,3]"]}).
Proof.
  apply (array_blob_read_as_is with_storage device_storage _ _ "[1,2,3]");
    reflexivity.
Defined.

(** ** Failures of the store *)

(** C5 as stated fails: when [getItem] rejects, so does [getCachedGPSData]. *)
Lemma read_rejects_when_getItem_rejects :
  ¬ ∃ l, fst (getCachedGPSData with_failing_storage ∅) = Fulfilled l.
Proof. intros [l H]. discriminate H. Qed.

(** C5 (amended).  [getCachedGPSData] fulfils with a sequence whenever the
    storage module is missing or its [getItem] fulfils, whatever is stored
    (nothing, malformed text, anything else); it rejects exactly when
    [getItem] rejects, with the same reason. *)
Theorem read_outcome {S : Type} (rt : Runtime S) (s : S) :
  match getAsyncStorage rt with
  | None => getCachedGPSData rt s = (Fulfilled [], s)
  | Some storage =>
      match getItem storage GPS_CACHE_KEY s with
      | (Fulfilled raw, s') => ∃ l, getCachedGPSData rt s = (Fulfilled l, s')
      | (Rejected e, s') => getCachedGPSData rt s = (Rejected e, s')
      end
  end.
Proof.
  unfold getCachedGPSData, await.
  destruct (getAsyncStorage rt) as [storage|]; [|reflexivity].
  destruct (getItem storage GPS_CACHE_KEY s) as [[raw|e] s']; [|reflexivity].
  destruct raw as [[|c raw]|]; eexists; reflexivity.
Qed.

(** ** The ingestion throttle *)

Section Throttle.
Import GPSLiveDataScreen.
Context {S : Type}.
Variable rt : Runtime S.

Lemma onPosition_admitted position now ui s :
  admits (lastCachedAtRef ui) now = true →
  (onPosition rt position now ui s).2 = Some (sample_of position)
  ∧ lastCachedAtRef (onPosition rt position now ui s).1.1 = now
  ∧ (onPosition rt position now ui s).1.2 = snd (appendGPSData rt (sample_of position) s).
Proof.
  intros H. unfold onPosition. rewrite H.
  destruct (appendGPSData rt (sample_of position) s) as [[next|e] s']; repeat split.
Qed.

Lemma onPosition_dropped position now ui s :
  admits (lastCachedAtRef ui) now = false →
  (onPosition rt position now ui s).2 = None
  ∧ lastCachedAtRef (onPosition rt position now ui s).1.1 = lastCachedAtRef ui
  ∧ (onPosition rt position now ui s).1.2 = s.
Proof. intros H. unfold onPosition. rewrite H. repeat split. Qed.

End Throttle.










(** C7 as stated fails: with [lastCachedAtRef] at its initial [0], a first
    sample that arrives when [Date.now()] is below 5000 is not admitted. *)
Lemma first_sample_dropped_before_5000 :
  (GPSLiveDataScreen.onPosition with_storage position_a 4999
     GPSLiveDataScreen.initial ∅).2 = None.
Proof. reflexivity. Qed.

(** C7 (amended).  With [lastCachedAtRef] at its initial [0], the first
    sample is admitted exactly when it arrives at [now >= 5000], whatever the
    sample, the store and the time since activation; any clock reading later
    than five seconds past the epoch satisfies this. *)
Theorem first_sample_admission {S : Type} (rt : Runtime S)
    (position : GPSLiveDataScreen.GPSPosition) (now : Z) (s : S) :
  (GPSLiveDataScreen.onPosition rt position now GPSLiveDataScreen.initial s).2
  = if (5000 <=? now)%Z then Some (GPSLiveDataScreen.sample_of position) else None.
Proof.
  unfold GPSLiveDataScreen.onPosition, GPSLiveDataScreen.admits.
  cbn [GPSLiveDataScreen.lastCachedAtRef GPSLiveDataScreen.initial].
  rewrite Z.sub_0_r. destruct (5000 <=? now)%Z; [|reflexivity].
  now destruct (appendGPSData rt (GPSLiveDataScreen.sample_of position) s) as [[?|?] ?].
Qed.

(** ** The polling reader *)

(** C9 as stated fails: a poll tick that finds the storage module missing
    leaves the window published earlier in place. *)
Lemma stale_window_after_unavailable_tick :
  HomeScreen.cachedData
    (HomeScreen.load (S := gmap string string) without_storage
       {| HomeScreen.cachedData := [js_of_point fix_a];
          HomeScreen.storageMessage := None |} ∅).1.2
  ≠ [].
Proof. discriminate. Qed.

(** C9 (amended).  A poll tick that finds the storage module missing raises
    no error: it sets the advisory storage message and leaves the published
    window as it was, which is the empty sequence as long as no earlier tick
    has published anything else. *)
Theorem unavailable_tick {S : Type} (rt : Runtime S) (ui : HomeScreen.State) (s : S) :
  isStorageReady rt = false →
  HomeScreen.load rt ui s
  = (Fulfilled tt,
     {| HomeScreen.cachedData := HomeScreen.cachedData ui;
        HomeScreen.storageMessage := Some HomeScreen.storage_missing |},
     s)
  ∧ HomeScreen.cachedData (HomeScreen.load rt HomeScreen.initial s).1.2 = [].
Proof.
  intros H. unfold HomeScreen.load. rewrite H. split; reflexivity.
Qed.

Lemma unavailable_tick_witness :
  HomeScreen.load (S := gmap string string) without_storage HomeScreen.initial ∅
  = (Fulfilled tt,
     {| HomeScreen.cachedData := [];
        HomeScreen.storageMessage := Some HomeScreen.storage_missing |},
     ∅).
Proof.
  exact (proj1 (unavailable_tick (S := gmap string string) without_storage
                  HomeScreen.initial ∅ eq_refl)).
Defined.


(** * Further properties *)

(** ** The cache: results and failures of [appendGPSData] *)

(** X1.  [appendGPSData] fulfils with the empty sequence exactly when the
    storage module is missing.  With the module present, whatever it fulfils
    with starts with the new sample as it was passed in and has between 1
    and 120 entries. *)
Theorem append_empty_iff_unavailable {S : Type} (rt : Runtime S)
    (p : GPSDataPoint) (s : S) :
  (fst (appendGPSData rt p s) = Fulfilled [] ↔ isStorageReady rt = false)
  ∧ (∀ next, isStorageReady rt = true →
       fst (appendGPSData rt p s) = Fulfilled next →
       head next = Some (js_of_point p)
       ∧ (1 ≤ length next ≤ MAX_CACHE_ITEMS)%nat).
Proof.
  unfold isStorageReady, appendGPSData.
  destruct (getAsyncStorage rt) as [storage|]; [|split; [split; reflexivity | discriminate]].
  unfold await. destruct (getCachedGPSData rt s) as [[existing|e] s1].
  - destruct (setItem storage GPS_CACHE_KEY _ s1) as [[[]|e] s2]; cbn [fst resolve].
    + split; [split; discriminate|]. intros next _ H. injection H as <-.
      split; [reflexivity|].
      change (take MAX_CACHE_ITEMS (js_of_point p :: existing))
        with (js_of_point p :: take 119 existing).
      cbn [length]. rewrite length_take. unfold MAX_CACHE_ITEMS. lia.
    + split; [split; discriminate | discriminate].
  - cbn [fst]. split; [split; discriminate | discriminate].
Qed.

Lemma append_empty_iff_unavailable_witness :
  ∃ next, fst (appendGPSData with_storage fix_nan ∅) = Fulfilled next
          ∧ head next = Some (js_of_point fix_nan).
Proof.
  eexists. split; [reflexivity|].
  apply (proj2 (append_empty_iff_unavailable with_storage fix_nan ∅)); reflexivity.
Defined.

(** X2.  A failure of the store fails the append: when [getItem] rejects,
    [appendGPSData] rejects with the same reason and [setItem] is not
    called; when [setItem] rejects, [appendGPSData] rejects with its
    reason. *)
Theorem append_failure {S : Type} (rt : Runtime S) (storage : AsyncStorageLike S)
    (p : GPSDataPoint) (s : S) :
  getAsyncStorage rt = Some storage →
  (∀ e s1, getItem storage GPS_CACHE_KEY s = (Rejected e, s1) →
           appendGPSData rt p s = (Rejected e, s1))
  ∧ (∀ existing s1 e s2,
       getCachedGPSData rt s = (Fulfilled existing, s1) →
       setItem storage GPS_CACHE_KEY
         (JSON_stringify (JArr (take MAX_CACHE_ITEMS (js_of_point p :: existing)))) s1
       = (Rejected e, s2) →
       appendGPSData rt p s = (Rejected e, s2)).
Proof.
  intros Hrt. split.
  - intros e s1 Hget. unfold appendGPSData, getCachedGPSData. rewrite Hrt.
    unfold await. now rewrite Hget.
  - intros existing s1 e s2 Hread Hset. unfold appendGPSData. rewrite Hrt.
    unfold await at 1. rewrite Hread. cbv zeta. unfold await. now rewrite Hset.
Qed.

Lemma append_failure_witness :
  appendGPSData with_failing_storage fix_a ∅ = (Rejected "getItem failed", ∅)
  ∧ appendGPSData with_readonly_storage fix_a ∅ = (Rejected "setItem failed", ∅).
Proof.
  split.
  - apply (proj1 (append_failure with_failing_storage failing_storage fix_a ∅ eq_refl)).
    reflexivity.
  - apply (proj2 (append_failure with_readonly_storage readonly_storage fix_a ∅ eq_refl)
             [] ∅); reflexivity.
Defined.

(** X3.  On a device store [appendGPSData] writes under the cache key only:
    every other key keeps its value. *)
Theorem append_other_keys (disk : gmap string string) (p : GPSDataPoint) (key : string) :
  key ≠ GPS_CACHE_KEY →
  snd (appendGPSData with_storage p disk) !! key = disk !! key.
Proof.
  intros Hkey. destruct (read_device disk) as [w Hw].
  rewrite (append_device disk p w Hw). cbn [snd]. now apply lookup_insert_ne.
Qed.

Lemma append_other_keys_witness :
  snd (appendGPSData with_storage fix_a {["settings" := "dark"]}) !! "settings"
  = Some "dark".
Proof.
  rewrite (append_other_keys {["settings" := "dark"]} fix_a "settings").
  - reflexivity.
  - discriminate.
Defined.

(** X4.  Whenever the store reads as the empty window (nothing stored, an
    empty string, a text that is no JSON array, or an empty array), one
    append replaces what is stored by a window of exactly the new sample. *)
Theorem append_over_unreadable (disk : gmap string string) (p : GPSDataPoint) :
  fst (getCachedGPSData with_storage disk) = Fulfilled [] →
  fst (getCachedGPSData with_storage (snd (appendGPSData with_storage p disk)))
  = Fulfilled [stored_point p].
Proof.
  intros Hempty. destruct (read_device disk) as [w Hw].
  rewrite Hw in Hempty. injection Hempty as ->.
  rewrite (append_device disk p [] Hw). cbn [snd].
  erewrite read_holds_window; [reflexivity|].
  right. exists [js_of_point p]. split; [apply lookup_insert_eq|].
  split; [constructor; [apply point_shaped_js | constructor] | reflexivity].
Qed.

Lemma append_over_unreadable_witness :
  fst (getCachedGPSData with_storage
         (snd (appendGPSData with_storage fix_b {[GPS_CACHE_KEY := "not json"]})))
  = Fulfilled [js_of_point fix_b].
Proof.
  rewrite (append_over_unreadable {[GPS_CACHE_KEY := "not json"]} fix_b).
  - reflexivity.
  - reflexivity.
Defined.

Lemma json_flat_stored_field (v : json) : flat v = true → json_flat (stored_field v) = true.
Proof. destruct v as [| |x| | |]; try discriminate; [reflexivity | now destruct x]. Qed.

Lemma stored_entry_of_shaped (v : json) : point_shaped v → stored_entry (stored_value v).
Proof. intros []. apply stored_entry_intro; now apply json_flat_stored_field. Qed.

Lemma holds_window_entries disk w : holds_window disk w → Forall stored_entry w.
Proof.
  intros [[_ ->]|(w0 & _ & Hw0 & ->)]; [constructor|].
  apply List.Forall_map. revert Hw0. apply List.Forall_impl, stored_entry_of_shaped.
Qed.

Lemma holds_window_after_appends (samples : list GPSDataPoint) disk :
  disk !! GPS_CACHE_KEY = None →
  holds_window (append_all with_storage samples disk)
    (take MAX_CACHE_ITEMS (rev (map stored_point samples))).
Proof.
  intros Hdisk.
  pose proof (append_all_window samples disk [] (empty_holds_window disk Hdisk)) as H.
  rewrite app_nil_r in H. apply H. cbn. lia.
Qed.

Lemma read_after_appends_entries (samples : list GPSDataPoint)
    (disk : gmap string string) (w : list json) :
  disk !! GPS_CACHE_KEY = None →
  fst (getCachedGPSData with_storage (append_all with_storage samples disk))
  = Fulfilled w →
  Forall stored_entry w.
Proof.
  intros Hdisk. pose proof (holds_window_after_appends samples disk Hdisk) as Hw.
  rewrite (read_holds_window _ _ Hw). intros [= <-].
  now apply holds_window_entries with (append_all with_storage samples disk).
Qed.

(** X5.  Whatever samples have been appended to a device store with nothing
    under the cache key, every entry [getCachedGPSData] returns is an object
    with exactly the properties latitude, longitude, altitude, accuracy and
    timestamp, in that order, each [null] or a finite number other than
    [-0]: no [NaN] or infinity is ever read back. *)
Theorem read_entries_shape (samples : list GPSDataPoint) (disk : gmap string string) :
  disk !! GPS_CACHE_KEY = None →
  ∃ w, fst (getCachedGPSData with_storage (append_all with_storage samples disk))
       = Fulfilled w
       ∧ Forall stored_entry w.
Proof.
  intros Hdisk. pose proof (holds_window_after_appends samples disk Hdisk) as Hw.
  eexists. rewrite (read_holds_window _ _ Hw). split; [reflexivity|].
  now apply holds_window_entries with (append_all with_storage samples disk).
Qed.

Lemma read_entries_shape_witness :
  ∃ w, fst (getCachedGPSData with_storage (append_all with_storage [fix_nan; fix_b] ∅))
       = Fulfilled w
       ∧ Forall stored_entry w.
Proof. exact (read_entries_shape [fix_nan; fix_b] ∅ (lookup_empty _)). Defined.

(** X6.  After appends to a device store with nothing under the cache key,
    the window one more [appendGPSData] returns and the window read back
    afterwards differ only in the new sample, which is read back as JSON
    stores it; they are equal when every number of the new sample is finite
    and not [-0]. *)
Theorem returned_and_read_back (samples : list GPSDataPoint) (p : GPSDataPoint)
    (disk : gmap string string) :
  disk !! GPS_CACHE_KEY = None →
  let before := append_all with_storage samples disk in
  ∃ older,
    fst (appendGPSData with_storage p before) = Fulfilled (js_of_point p :: older)
    ∧ fst (getCachedGPSData with_storage (snd (appendGPSData with_storage p before)))
      = Fulfilled (stored_point p :: older)
    ∧ (json_point p = true →
       fst (getCachedGPSData with_storage (snd (appendGPSData with_storage p before)))
       = fst (appendGPSData with_storage p before)).
Proof.
  intros Hdisk before.
  pose proof (holds_window_after_appends samples disk Hdisk) as Hw.
  fold before in Hw.
  destruct (append_holds_window before _ p Hw) as [Happ Hnext]. cbv zeta in Happ.
  set (w := take MAX_CACHE_ITEMS (rev (map stored_point samples))) in *.
  exists (take 119 w). rewrite Happ. cbn [fst snd].
  rewrite Happ in Hnext. cbn [snd] in Hnext.
  rewrite (read_holds_window _ _ Hnext). cbn [fst].
  split; [reflexivity|]. split; [reflexivity|].
  intros Hp. now rewrite (json_point_stored p Hp).
Qed.

Lemma returned_and_read_back_witness :
  fst (getCachedGPSData with_storage
         (snd (appendGPSData with_storage fix_b (append_all with_storage [fix_a] ∅))))
  = fst (appendGPSData with_storage fix_b (append_all with_storage [fix_a] ∅)).
Proof.
  destruct (returned_and_read_back [fix_a] fix_b ∅ (lookup_empty _))
    as (older & _ & _ & H).
  exact (H eq_refl).
Defined.

(** ** The watch callback over a stream of positions *)

Section WatchRun.
Import GPSLiveDataScreen.
Context {S : Type}.
Variable rt : Runtime S.

Lemma deliver_cons position now events ui s :
  deliver rt ((position, now) :: events) ui s
  = let step := onPosition rt position now ui s in
    let run := deliver rt events step.1.1 step.1.2 in
    (run.1.1, run.1.2, option_list step.2 ++ run.2).
Proof.
  cbn [deliver]. destruct (onPosition rt position now ui s) as [[ui1 s1] admitted].
  cbn [fst snd]. now destruct (deliver rt events ui1 s1) as [[ui2 s2] rest].
Qed.

Lemma onPosition_view position now ui s :
  gpsData (onPosition rt position now ui s).1.1 = Some (sample_of position)
  ∧ errorMessage (onPosition rt position now ui s).1.1 = None.
Proof.
  unfold onPosition. destruct (admits (lastCachedAtRef ui) now); [|now split].
  now destruct (appendGPSData rt (sample_of position) s) as [[?|?] ?].
Qed.

Lemma deliver_events events ui s :
  (deliver rt events ui s).2
  = map (fun e => sample_of e.1) (admitted_events (lastCachedAtRef ui) events).
Proof.
  revert ui s. induction events as [|[position now] events IH]; intros ui s.
  - reflexivity.
  - rewrite deliver_cons. cbn [snd admitted_events].
    destruct (admits (lastCachedAtRef ui) now) eqn:Hadm.
    + destruct (onPosition_admitted rt position now ui s Hadm) as (-> & Hl & _).
      rewrite IH, Hl. reflexivity.
    + destruct (onPosition_dropped rt position now ui s Hadm) as (-> & Hl & _).
      rewrite IH, Hl. reflexivity.
Qed.

Lemma deliver_store events ui s :
  (deliver rt events ui s).1.2 = append_all rt (deliver rt events ui s).2 s.
Proof.
  revert ui s. induction events as [|[position now] events IH]; intros ui s.
  - reflexivity.
  - rewrite deliver_cons. cbn [fst snd].
    destruct (admits (lastCachedAtRef ui) now) eqn:Hadm.
    + destruct (onPosition_admitted rt position now ui s Hadm) as (-> & _ & Hs).
      rewrite IH, Hs. reflexivity.
    + destruct (onPosition_dropped rt position now ui s Hadm) as (-> & _ & Hs).
      rewrite IH, Hs. reflexivity.
Qed.

Lemma admitted_events_sublist last events : sublist (admitted_events last events) events.
Proof.
  revert last. induction events as [|[position now] events IH]; intros last.
  - constructor.
  - cbn [admitted_events]. destruct (admits last now).
    + apply sublist_skip, IH.
    + apply sublist_cons, IH.
Qed.

Lemma admitted_events_spaced last events :
  spaced last (map snd (admitted_events last events)).
Proof.
  revert last. induction events as [|[position now] events IH]; intros last.
  - exact I.
  - cbn [admitted_events]. unfold admits at 1.
    destruct (Z.leb_spec 5000 (now - last)); [|apply IH].
    cbn [map snd spaced]. split; [assumption | apply IH].
Qed.
End WatchRun.

Lemma spaced_count (last hi : Z) (times : list Z) :
  spaced last times → Forall (fun t => (t ≤ hi)%Z) times → times ≠ [] →
  (5000 * Z.of_nat (length times) ≤ hi - last)%Z.
Proof.
  revert last. induction times as [|t times IH]; intros last Hsp Hhi Hne;
    [contradiction|].
  destruct Hsp as [Ht Hsp]. inversion Hhi as [|? ? Hthi Hhi']; subst.
  destruct times as [|t' times].
  - cbn [length]. lia.
  - specialize (IH t Hsp Hhi' ltac:(discriminate)). cbn [length] in *. lia.
Qed.

Lemma Forall_of_sublist {A} (P : A → Prop) (l k : list A) :
  sublist l k → Forall P k → Forall P l.
Proof.
  induction 1 as [|x l k _ IH|x l k _ IH]; intros H.
  - constructor.
  - inversion H; subst. constructor; auto.
  - inversion H; subst. auto.
Qed.

(** X8.  Any two samples admitted one after the other arrived at least
    5000 ms apart, and the first at least 5000 ms after the value
    [lastCachedAtRef] had before; so of the samples that arrive within a span
    of [span] ms at most [span / 5000 + 1] are admitted, whatever their
    number and order. *)
Theorem admission_rate {S : Type} (rt : Runtime S)
    (events : list (GPSLiveDataScreen.GPSPosition * Z))
    (ui : GPSLiveDataScreen.State) (s : S) (start span : Z) :
  (0 ≤ span)%Z →
  Forall (fun e => (start ≤ e.2 ≤ start + span)%Z) events →
  let last := GPSLiveDataScreen.lastCachedAtRef ui in
  let admitted := admitted_events last events in
  (GPSLiveDataScreen.deliver rt events ui s).2
  = map (fun e => GPSLiveDataScreen.sample_of e.1) admitted
  ∧ spaced last (map snd admitted)
  ∧ (Z.of_nat (length (GPSLiveDataScreen.deliver rt events ui s).2) ≤ span / 5000 + 1)%Z.
Proof.
  intros Hspan Hrange last admitted.
  split; [apply deliver_events|]. split; [apply admitted_events_spaced|].
  rewrite deliver_events, length_map. fold last admitted.
  assert (Hin : Forall (fun t => (start ≤ t ≤ start + span)%Z) (map snd admitted)).
  { apply List.Forall_map.
    eapply Forall_of_sublist; [apply admitted_events_sublist | exact Hrange]. }
  pose proof (admitted_events_spaced last events) as Hsp. fold admitted in Hsp.
  rewrite <- (length_map snd admitted).
  assert (Hdiv : (0 ≤ span / 5000)%Z) by (apply Z.div_pos; lia).
  destruct (map snd admitted) as [|t1 rest]; [cbn [length]; lia|].
  destruct Hsp as [_ Hsp]. inversion Hin as [|? ? Ht1 Hrest]; subst.
  destruct rest as [|t2 rest]; [cbn [length]; lia|].
  assert (Hcount : (5000 * Z.of_nat (length (t2 :: rest)) ≤ start + span - t1)%Z).
  { apply spaced_count; [assumption | | discriminate].
    revert Hrest. apply List.Forall_impl. intros t Ht. lia. }
  assert (Z.of_nat (length (t2 :: rest)) ≤ span / 5000)%Z.
  { apply Z.div_le_lower_bound; lia. }
  cbn [length] in *. lia.
Qed.

Lemma admission_rate_witness :
  (Z.of_nat (length (GPSLiveDataScreen.deliver with_storage
                       (map (fun t => (position_a, t))
                          (GPSLiveDataScreen.burst 1700000000000 10100))
                       GPSLiveDataScreen.initial ∅).2) ≤ 3)%Z.
Proof.
  refine (proj2 (proj2 (admission_rate with_storage _ GPSLiveDataScreen.initial ∅
                          1700000000000 10100 _ _))).
  - lia.
  - apply List.Forall_map. unfold GPSLiveDataScreen.burst.
    apply List.Forall_map, Forall_forall. intros i Hi. cbn [snd].
    apply elem_of_seqZ in Hi.
    assert (0 ≤ i * 10100 / 49 ≤ 10100)%Z; [|lia].
    split; [apply Z.div_pos; lia|]. apply Z.div_le_upper_bound; lia.
Defined.

Lemma deliver_app {S : Type} (rt : Runtime S) events events' ui s :
  GPSLiveDataScreen.deliver rt (events ++ events') ui s
  = let run := GPSLiveDataScreen.deliver rt events ui s in
    let run' := GPSLiveDataScreen.deliver rt events' run.1.1 run.1.2 in
    (run'.1.1, run'.1.2, run.2 ++ run'.2).
Proof.
  revert ui s. induction events as [|[position now] events IH]; intros ui s.
  - cbn [app GPSLiveDataScreen.deliver fst snd].
    now destruct (GPSLiveDataScreen.deliver rt events' ui s) as [[? ?] ?].
  - cbn [app]. rewrite !deliver_cons. cbv zeta. rewrite IH. cbv zeta. cbn [fst snd].
    now rewrite app_assoc.
Qed.

(** X9.  The live display follows every position, admitted or not and
    whatever the store does: after a stream of positions the screen shows
    the sample of the last one and no error message. *)
Theorem live_display_follows {S : Type} (rt : Runtime S)
    (events : list (GPSLiveDataScreen.GPSPosition * Z))
    (position : GPSLiveDataScreen.GPSPosition) (now : Z)
    (ui : GPSLiveDataScreen.State) (s : S) :
  let run := GPSLiveDataScreen.deliver rt (events ++ [(position, now)]) ui s in
  GPSLiveDataScreen.gpsData run.1.1 = Some (GPSLiveDataScreen.sample_of position)
  ∧ GPSLiveDataScreen.errorMessage run.1.1 = None.
Proof.
  cbv zeta. rewrite deliver_app. cbv zeta. cbn [fst].
  rewrite deliver_cons. cbv zeta. cbn [GPSLiveDataScreen.deliver fst].
  apply onPosition_view.
Qed.

Lemma onPosition_message {S : Type} (rt : Runtime S) position now ui s :
  GPSLiveDataScreen.storageMessage (GPSLiveDataScreen.onPosition rt position now ui s).1.1
  = if GPSLiveDataScreen.admits (GPSLiveDataScreen.lastCachedAtRef ui) now
    then match fst (appendGPSData rt (GPSLiveDataScreen.sample_of position) s) with
         | Fulfilled _ => GPSLiveDataScreen.storageMessage ui
         | Rejected _ => Some failed_to_cache
         end
    else GPSLiveDataScreen.storageMessage ui.
Proof.
  unfold GPSLiveDataScreen.onPosition.
  destruct (GPSLiveDataScreen.admits _ now); [|reflexivity].
  now destruct (appendGPSData rt _ s) as [[?|?] ?].
Qed.

Lemma deliver_message_sticky {S : Type} (rt : Runtime S) events ui s :
  GPSLiveDataScreen.storageMessage ui = Some failed_to_cache →
  GPSLiveDataScreen.storageMessage (GPSLiveDataScreen.deliver rt events ui s).1.1
  = Some failed_to_cache.
Proof.
  revert ui s. induction events as [|[position' now'] events IH]; intros ui s Hmsg.
  - exact Hmsg.
  - rewrite deliver_cons. cbv zeta. cbn [fst]. apply IH.
    rewrite onPosition_message, Hmsg.
    destruct (GPSLiveDataScreen.admits _ now'); [|reflexivity].
    now destruct (fst (appendGPSData rt _ s)).
Qed.

Lemma last_cons_default {A} (a d : A) (l : list A) : List.last (a :: l) d = List.last l a.
Proof.
  revert a d. induction l as [|b l IH]; intros a d; [reflexivity|].
  change (List.last (a :: b :: l) d) with (List.last (b :: l) d).
  now rewrite !IH.
Qed.

Lemma deliver_last {S : Type} (rt : Runtime S) events ui s :
  GPSLiveDataScreen.lastCachedAtRef (GPSLiveDataScreen.deliver rt events ui s).1.1
  = List.last (map snd (admitted_events (GPSLiveDataScreen.lastCachedAtRef ui) events))
      (GPSLiveDataScreen.lastCachedAtRef ui).
Proof.
  revert ui s. induction events as [|[position now] events IH]; intros ui s.
  - reflexivity.
  - rewrite deliver_cons. cbv zeta. cbn [fst admitted_events]. rewrite IH.
    destruct (GPSLiveDataScreen.admits (GPSLiveDataScreen.lastCachedAtRef ui) now) eqn:Hadm.
    + destruct (onPosition_admitted rt position now ui s Hadm) as (_ & -> & _).
      cbn [map snd]. now rewrite last_cons_default.
    + now destruct (onPosition_dropped rt position now ui s Hadm) as (_ & -> & _).
Qed.

Lemma deliver_without_storage {S : Type} (rt : Runtime S) events ui s :
  isStorageReady rt = false →
  (GPSLiveDataScreen.deliver rt events ui s).1.2 = s
  ∧ GPSLiveDataScreen.storageMessage (GPSLiveDataScreen.deliver rt events ui s).1.1
    = GPSLiveDataScreen.storageMessage ui.
Proof.
  intros Hrt.
  assert (Happ : ∀ p s0, appendGPSData rt p s0 = (Fulfilled [], s0)).
  { intros p s0. unfold appendGPSData. unfold isStorageReady in Hrt.
    now destruct (getAsyncStorage rt). }
  revert ui s. induction events as [|[position now] events IH]; intros ui s.
  - now split.
  - rewrite deliver_cons. cbv zeta. cbn [fst].
    assert (Hstep : (GPSLiveDataScreen.onPosition rt position now ui s).1.2 = s
                    ∧ GPSLiveDataScreen.storageMessage
                        (GPSLiveDataScreen.onPosition rt position now ui s).1.1
                      = GPSLiveDataScreen.storageMessage ui).
    { rewrite onPosition_message, Happ. cbn [fst].
      split; [|now destruct (GPSLiveDataScreen.admits _ now)].
      unfold GPSLiveDataScreen.onPosition. rewrite Happ.
      now destruct (GPSLiveDataScreen.admits _ now). }
    destruct Hstep as [Hs Hm]. rewrite Hs.
    destruct (IH (GPSLiveDataScreen.onPosition rt position now ui s).1.1 s) as [H1 H2].
    split; [exact H1 | now rewrite H2].
Qed.

(** X10.  When the append of an admitted sample rejects, the screen shows
    the failed-to-cache message and the throttle has closed all the same:
    the sample is not retried, and a position less than 5000 ms later is not
    admitted.  The message, once shown, stays through every later position,
    also those that are cached successfully. *)
Theorem failed_append_not_retried {S : Type} (rt : Runtime S)
    (position : GPSLiveDataScreen.GPSPosition) (now : Z)
    (ui : GPSLiveDataScreen.State) (s : S) (e : string) :
  GPSLiveDataScreen.admits (GPSLiveDataScreen.lastCachedAtRef ui) now = true →
  fst (appendGPSData rt (GPSLiveDataScreen.sample_of position) s) = Rejected e →
  let step := GPSLiveDataScreen.onPosition rt position now ui s in
  GPSLiveDataScreen.storageMessage step.1.1 = Some failed_to_cache
  ∧ GPSLiveDataScreen.lastCachedAtRef step.1.1 = now
  ∧ (∀ position' now', (now' - now < 5000)%Z →
       (GPSLiveDataScreen.onPosition rt position' now' step.1.1 step.1.2).2 = None)
  ∧ (∀ events,
       GPSLiveDataScreen.storageMessage
         (GPSLiveDataScreen.deliver rt events step.1.1 step.1.2).1.1
       = Some failed_to_cache).
Proof.
  intros Hadm Hrej step.
  assert (Hmsg : GPSLiveDataScreen.storageMessage step.1.1 = Some failed_to_cache).
  { unfold step. now rewrite onPosition_message, Hadm, Hrej. }
  destruct (onPosition_admitted rt position now ui s Hadm) as (_ & Hlast & _).
  fold step in Hlast.
  split; [exact Hmsg|]. split; [exact Hlast|]. split.
  - intros position' now' Hsoon. apply onPosition_dropped.
    rewrite Hlast. unfold GPSLiveDataScreen.admits.
    destruct (Z.leb_spec 5000 (now' - now)); [lia | reflexivity].
  - intros events. now apply deliver_message_sticky.
Qed.

Lemma failed_append_not_retried_witness :
  GPSLiveDataScreen.storageMessage
    (GPSLiveDataScreen.deliver with_readonly_storage
       [(position_a, 1700000000000%Z); (position_a, 1700000004000%Z)]
       GPSLiveDataScreen.initial ∅).1.1
  = Some failed_to_cache.
Proof.
  rewrite deliver_cons. cbv zeta.
  apply (failed_append_not_retried with_readonly_storage position_a 1700000000000
           GPSLiveDataScreen.initial ∅ "setItem failed"); reflexivity.
Defined.

(** X11.  Which samples are admitted does not depend on the store: with any
    two runtimes and store states the same stream of positions admits the
    same samples and leaves [lastCachedAtRef] the same.  With the storage
    module missing the stream leaves the store and the storage message as
    they were. *)
Theorem admission_ignores_store {S S' : Type} (rt : Runtime S) (rt' : Runtime S')
    (events : list (GPSLiveDataScreen.GPSPosition * Z))
    (ui : GPSLiveDataScreen.State) (s : S) (s' : S') :
  (GPSLiveDataScreen.deliver rt events ui s).2
  = (GPSLiveDataScreen.deliver rt' events ui s').2
  ∧ GPSLiveDataScreen.lastCachedAtRef (GPSLiveDataScreen.deliver rt events ui s).1.1
    = GPSLiveDataScreen.lastCachedAtRef (GPSLiveDataScreen.deliver rt' events ui s').1.1
  ∧ (isStorageReady rt = false →
     (GPSLiveDataScreen.deliver rt events ui s).1.2 = s
     ∧ GPSLiveDataScreen.storageMessage (GPSLiveDataScreen.deliver rt events ui s).1.1
       = GPSLiveDataScreen.storageMessage ui).
Proof.
  split; [now rewrite !deliver_events|]. split.
  - now rewrite !deliver_last.
  - apply deliver_without_storage.
Qed.

Lemma admission_ignores_store_witness :
  (GPSLiveDataScreen.deliver (S := gmap string string) without_storage
     [(position_a, 1700000000000%Z)] GPSLiveDataScreen.initial ∅).1.2 = ∅.
Proof.
  apply (proj2 (proj2 (admission_ignores_store (S := gmap string string)
                         without_storage with_storage
                         [(position_a, 1700000000000%Z)]
                         GPSLiveDataScreen.initial ∅ ∅))).
  reflexivity.
Defined.

(** ** The watch life cycle *)

#[local] Set Warnings "-clear-no-such-hyp".

Section LifecycleFacts.
Import WatchLifecycle.
Context {S : Type}.
Variable env : Env S Watches.
Hypothesis Hgeo : geolocation_module env = Some device_geolocation.

Lemma clear_tracked c g :
  tracked c g →
  watchIdRef (clearLocationWatch env c g).1 = None
  ∧ active (clearLocationWatch env c g).2 = ∅
  ∧ next_watch (clearLocationWatch env c g).2 = next_watch g
  ∧ view (clearLocationWatch env c g).1 = view c
  ∧ isPermissionDeniedPermanently (clearLocationWatch env c g).1
    = isPermissionDeniedPermanently c.
Proof.
  intros [Hact _]. unfold clearLocationWatch, getGeolocation, held in *.
  rewrite Hgeo. destruct (watchIdRef c) as [id|] eqn:Hid.
  - cbn. rewrite Hact. repeat split. set_solver.
  - cbn. now rewrite Hid.
Qed.

Lemma start_tracked c g :
  tracked c g →
  tracked (startLocationWatch env device_geolocation c g).1
          (startLocationWatch env device_geolocation c g).2
  ∧ watchIdRef (startLocationWatch env device_geolocation c g).1 = Some (next_watch g).
Proof.
  intros Htr. destruct (clear_tracked c g Htr) as (Hid & Hact & Hnext & _).
  unfold startLocationWatch.
  destruct (clearLocationWatch env c g) as [c1 g1]. cbn [fst snd] in *.
  cbn. rewrite Hact, Hnext. unfold tracked, held. cbn.
  split; [|reflexivity]. split; [set_solver|].
  intros id Hin. assert (id = next_watch g) by set_solver. lia.
Qed.

Lemma resume_tracked granted c g :
  tracked c g → tracked (resumeRequest env granted c g).1 (resumeRequest env granted c g).2.
Proof.
  intros Htr. unfold resumeRequest, getGeolocation. rewrite Hgeo.
  destruct (is_granted granted); cbn [negb].
  - pose proof (start_tracked (set_isPermissionDeniedPermanently
                                 (is_never_ask_again granted) c) g Htr) as [H _].
    destruct (startLocationWatch env device_geolocation _ g) as [c2 g2].
    exact H.
  - set (c2 := set_errorMessage _ _).
    assert (Htr2 : tracked c2 g) by exact Htr.
    destruct (clear_tracked c2 g Htr2) as (Hid & Hact & Hnext & _).
    destruct (clearLocationWatch env c2 g) as [c3 g3]. cbn [fst snd] in *.
    unfold tracked, held. cbn. rewrite Hid, Hact. split; [reflexivity | set_solver].
Qed.

Lemma request_tracked answer c g :
  tracked c g →
  tracked (requestPermissionAndStartGPS env answer c g).1
          (requestPermissionAndStartGPS env answer c g).2.
Proof.
  intros Htr. unfold requestPermissionAndStartGPS, beginRequest.
  destruct (isRequestingPermission c); [exact Htr|].
  now apply resume_tracked.
Qed.

Lemma step_tracked ev c g s :
  tracked c g → tracked (step env ev (c, g, s)).1.1 (step env ev (c, g, s)).1.2.
Proof.
  intros Htr. destruct ev as [answer|position now|message]; cbn [step].
  - pose proof (request_tracked answer c g Htr) as H.
    now destruct (requestPermissionAndStartGPS env answer c g).
  - now destruct (GPSLiveDataScreen.onPosition _ position now (view c) s) as [[v s'] ?].
  - exact Htr.
Qed.

Lemma run_tracked answer events s :
  tracked (run env answer events no_watches s).1.1 (run env answer events no_watches s).1.2.
Proof.
  unfold run.
  assert (H0 : tracked initial no_watches) by (split; [reflexivity | set_solver]).
  pose proof (request_tracked answer initial no_watches H0) as H1.
  destruct (requestPermissionAndStartGPS env answer initial no_watches) as [c g].
  cbn [fst snd] in H1.
  assert (Hgen : ∀ st : Component * Watches * S, tracked st.1.1 st.1.2 →
            tracked (fold_left (fun st ev => step env ev st) events st).1.1
                    (fold_left (fun st ev => step env ev st) events st).1.2).
  { induction events as [|ev events IH]; intros [[c0 g0] s0] H; [exact H|].
    cbn [fold_left]. apply IH. now apply step_tracked. }
  now apply (Hgen (c, g, s)).
Qed.
End LifecycleFacts.

(** X12.  With the geolocation module present, at every moment of the
    screen's life (after mounting, button presses answered in any way,
    positions and errors) the watches active in the geolocation service are
    exactly the one recorded in [watchIdRef], if any: restarting never leaves
    an earlier watch running.  Unmounting then leaves no watch active, and
    running the cleanup a second time changes nothing. *)
Theorem single_watch {S : Type} (env : WatchLifecycle.Env S WatchLifecycle.Watches)
    (answer : WatchLifecycle.PermissionStatus)
    (events : list WatchLifecycle.event) (s : S) :
  WatchLifecycle.geolocation_module env = Some WatchLifecycle.device_geolocation →
  let st := WatchLifecycle.run env answer events WatchLifecycle.no_watches s in
  WatchLifecycle.active st.1.2 = WatchLifecycle.held st.1.1
  ∧ WatchLifecycle.active (WatchLifecycle.unmount env st).1.2 = ∅
  ∧ WatchLifecycle.unmount env (WatchLifecycle.unmount env st)
    = WatchLifecycle.unmount env st.
Proof.
  intros Hgeo st. pose proof (run_tracked env Hgeo answer events s) as Htr.
  fold st in Htr. destruct st as [[c g] s']. cbn [fst snd] in *.
  split; [apply Htr|].
  destruct (clear_tracked env Hgeo c g Htr) as (Hid & Hact & _).
  unfold WatchLifecycle.unmount.
  destruct (WatchLifecycle.clearLocationWatch env c g) as [c1 g1] eqn:Hclear.
  cbn [fst snd] in *. split; [exact Hact|].
  unfold WatchLifecycle.clearLocationWatch at 1. now rewrite Hid.
Qed.

Lemma single_watch_witness :
  WatchLifecycle.active
    (WatchLifecycle.run (WatchLifecycle.device_env WatchLifecycle.android)
       WatchLifecycle.GRANTED
       [WatchLifecycle.Press WatchLifecycle.GRANTED;
        WatchLifecycle.Position position_a 1700000000000;
        WatchLifecycle.Press WatchLifecycle.GRANTED]
       WatchLifecycle.no_watches ∅).1.2
  = {[2]}.
Proof.
  rewrite (proj1 (single_watch (WatchLifecycle.device_env WatchLifecycle.android)
                    WatchLifecycle.GRANTED _ ∅ eq_refl)).
  reflexivity.
Defined.


(** X13.  On Android a request that is answered with anything but GRANTED
    stops the watch: afterwards [watchIdRef] is empty, the error message is
    the permission-denied message, the denied-permanently flag is set exactly
    for NEVER_ASK_AGAIN, and no request is pending; on a device no watch is
    left active.  On other platforms the answer is never consulted. *)
Theorem denied_stops_watch {S : Type} (env : WatchLifecycle.Env S WatchLifecycle.Watches)
    (answer : WatchLifecycle.PermissionStatus)
    (c : WatchLifecycle.Component) (g : WatchLifecycle.Watches) :
  WatchLifecycle.isRequestingPermission c = false →
  let after := WatchLifecycle.requestPermissionAndStartGPS env answer c g in
  (WatchLifecycle.platform env = WatchLifecycle.android →
   WatchLifecycle.is_granted answer = false →
   WatchLifecycle.watchIdRef after.1 = None
   ∧ GPSLiveDataScreen.errorMessage (WatchLifecycle.view after.1)
     = Some WatchLifecycle.permission_denied
   ∧ WatchLifecycle.isPermissionDeniedPermanently after.1
     = WatchLifecycle.is_never_ask_again answer
   ∧ WatchLifecycle.isRequestingPermission after.1 = false
   ∧ (WatchLifecycle.geolocation_module env = Some WatchLifecycle.device_geolocation →
      WatchLifecycle.tracked c g → WatchLifecycle.active after.2 = ∅))
  ∧ (WatchLifecycle.platform env = WatchLifecycle.ios →
     after = WatchLifecycle.requestPermissionAndStartGPS env WatchLifecycle.GRANTED c g).
Proof.
  intros Hidle after. unfold after, WatchLifecycle.requestPermissionAndStartGPS,
    WatchLifecycle.beginRequest, WatchLifecycle.requestAndroidLocationPermission.
  rewrite Hidle. split.
  - intros -> Hdenied. unfold WatchLifecycle.resumeRequest. rewrite Hdenied. cbn [negb].
    set (c2 := WatchLifecycle.set_errorMessage _ _).
    unfold WatchLifecycle.clearLocationWatch.
    destruct (WatchLifecycle.watchIdRef c2) as [id|] eqn:Hid.
    + cbn. repeat split. intros Hgeo [Hact _].
      unfold WatchLifecycle.getGeolocation. rewrite Hgeo. cbn.
      unfold WatchLifecycle.held in Hact. change (WatchLifecycle.watchIdRef c) with
        (WatchLifecycle.watchIdRef c2) in Hact. rewrite Hid in Hact. rewrite Hact.
      set_solver.
    + cbn. change (WatchLifecycle.watchIdRef c2) with (WatchLifecycle.watchIdRef c) in Hid.
      rewrite Hid. repeat split. intros _ [Hact _].
      unfold WatchLifecycle.held in Hact. now rewrite Hid in Hact.
  - now intros ->.
Qed.

Lemma denied_stops_watch_witness :
  WatchLifecycle.active
    (WatchLifecycle.requestPermissionAndStartGPS
       (WatchLifecycle.device_env WatchLifecycle.android) WatchLifecycle.NEVER_ASK_AGAIN
       (WatchLifecycle.set_watchIdRef (Some 0) WatchLifecycle.initial)
       {| WatchLifecycle.next_watch := 1; WatchLifecycle.active := {[0]} |}).2
  = ∅.
Proof.
  apply (denied_stops_watch (WatchLifecycle.device_env WatchLifecycle.android)
           WatchLifecycle.NEVER_ASK_AGAIN); try reflexivity.
  split; [reflexivity|]. intros id Hid. cbn in *.
  assert (id = 0) by set_solver. lia.
Defined.

(** X14.  Pressing the button leaves the throttle as it is: whatever the
    answer, [lastCachedAtRef] and the sample on display are unchanged, so a
    restarted watch does not cache a position that arrives less than 5000 ms
    after the last cached one.  When the watch is started, the storage
    message is set anew: cleared with the storage module present, the
    storage-missing message otherwise. *)
Theorem restart_keeps_throttle {S G : Type} (env : WatchLifecycle.Env S G)
    (answer : WatchLifecycle.PermissionStatus)
    (c : WatchLifecycle.Component) (g : G) :
  let after := WatchLifecycle.requestPermissionAndStartGPS env answer c g in
  let last := GPSLiveDataScreen.lastCachedAtRef (WatchLifecycle.view c) in
  GPSLiveDataScreen.lastCachedAtRef (WatchLifecycle.view after.1) = last
  ∧ GPSLiveDataScreen.gpsData (WatchLifecycle.view after.1)
    = GPSLiveDataScreen.gpsData (WatchLifecycle.view c)
  ∧ (∀ position now s, (now - last < 5000)%Z →
       (GPSLiveDataScreen.onPosition (WatchLifecycle.storage env) position now
          (WatchLifecycle.view after.1) s).2 = None)
  ∧ (∀ geolocation,
       WatchLifecycle.isRequestingPermission c = false →
       WatchLifecycle.requestAndroidLocationPermission env answer = WatchLifecycle.GRANTED →
       WatchLifecycle.geolocation_module env = Some geolocation →
       GPSLiveDataScreen.storageMessage (WatchLifecycle.view after.1)
       = if isStorageReady (WatchLifecycle.storage env) then None
         else Some HomeScreen.storage_missing).
Proof.
  intros after last.
  assert (Hclear : ∀ c0 g0,
            WatchLifecycle.view (WatchLifecycle.clearLocationWatch env c0 g0).1
            = WatchLifecycle.view c0).
  { intros c0 g0. unfold WatchLifecycle.clearLocationWatch.
    now destruct (WatchLifecycle.watchIdRef c0). }
  assert (Hstart : ∀ geo c0 g0,
            WatchLifecycle.view (WatchLifecycle.startLocationWatch env geo c0 g0).1
            = WatchLifecycle.view
                (WatchLifecycle.set_storageMessage
                   (if isStorageReady (WatchLifecycle.storage env) then None
                    else Some HomeScreen.storage_missing) c0)).
  { intros geo c0 g0. unfold WatchLifecycle.startLocationWatch.
    pose proof (Hclear c0 g0) as H.
    destruct (WatchLifecycle.clearLocationWatch env c0 g0) as [c1 g1]. cbn [fst] in H.
    destruct (WatchLifecycle.watchPosition geo g1) as [id g2].
    destruct (isStorageReady (WatchLifecycle.storage env)); cbn; now rewrite H. }
  assert (Hkeep : GPSLiveDataScreen.lastCachedAtRef (WatchLifecycle.view after.1) = last
                  ∧ GPSLiveDataScreen.gpsData (WatchLifecycle.view after.1)
                    = GPSLiveDataScreen.gpsData (WatchLifecycle.view c)).
  { unfold after, WatchLifecycle.requestPermissionAndStartGPS, WatchLifecycle.beginRequest.
    destruct (WatchLifecycle.isRequestingPermission c); [now split|].
    unfold WatchLifecycle.resumeRequest.
    destruct (WatchLifecycle.is_granted _); cbn [negb].
    - destruct (WatchLifecycle.getGeolocation env) as [geo|]; [|now split].
      set (c1 := WatchLifecycle.set_isPermissionDeniedPermanently _ _).
      pose proof (Hstart geo c1 g) as H.
      destruct (WatchLifecycle.startLocationWatch env geo c1 g) as [c2 g2].
      cbn [fst] in *. cbn. rewrite H. now split.
    - set (c2 := WatchLifecycle.set_errorMessage _ _).
      pose proof (Hclear c2 g) as H.
      destruct (WatchLifecycle.clearLocationWatch env c2 g) as [c3 g3].
      cbn [fst] in *. cbn. rewrite H. now split. }
  destruct Hkeep as [Hlast Hdata]. split; [exact Hlast|]. split; [exact Hdata|]. split.
  - intros position now s Hsoon. apply onPosition_dropped. rewrite Hlast.
    unfold GPSLiveDataScreen.admits.
    destruct (Z.leb_spec 5000 (now - last)); [lia | reflexivity].
  - intros geo Hidle Hgranted Hgeo.
    unfold after, WatchLifecycle.requestPermissionAndStartGPS, WatchLifecycle.beginRequest.
    rewrite Hidle, Hgranted. unfold WatchLifecycle.resumeRequest, WatchLifecycle.getGeolocation.
    rewrite Hgeo. cbn [WatchLifecycle.is_granted negb].
    set (c1 := WatchLifecycle.set_isPermissionDeniedPermanently _ _).
    pose proof (Hstart geo c1 g) as H.
    destruct (WatchLifecycle.startLocationWatch env geo c1 g) as [c2 g2].
    cbn [fst] in *. cbn. rewrite H.
    now destruct (isStorageReady (WatchLifecycle.storage env)).
Qed.

Lemma restart_keeps_throttle_witness :
  (GPSLiveDataScreen.onPosition with_storage position_a 1700000002000
     (WatchLifecycle.view
        (WatchLifecycle.requestPermissionAndStartGPS
           (WatchLifecycle.device_env WatchLifecycle.android) WatchLifecycle.GRANTED
           {| WatchLifecycle.view :=
                {| GPSLiveDataScreen.gpsData := Some fix_a;
                   GPSLiveDataScreen.errorMessage := None;
                   GPSLiveDataScreen.storageMessage := None;
                   GPSLiveDataScreen.lastCachedAtRef := 1700000000000 |};
              WatchLifecycle.watchIdRef := None;
              WatchLifecycle.isPermissionDeniedPermanently := false;
              WatchLifecycle.isRequestingPermission := false |}
           WatchLifecycle.no_watches).1) ∅).2
  = None.
Proof.
  apply (restart_keeps_throttle (WatchLifecycle.device_env WatchLifecycle.android)).
  cbn. lia.
Defined.

(** X15.  The cleanup does not cancel a pending permission request: when
    the screen is unmounted while a request awaits its answer and the answer
    is then GRANTED, a watch is started after the cleanup has run, and it is
    the only watch active. *)
Theorem late_answer_starts_watch {S : Type}
    (env : WatchLifecycle.Env S WatchLifecycle.Watches)
    (c : WatchLifecycle.Component) (g : WatchLifecycle.Watches) :
  WatchLifecycle.geolocation_module env = Some WatchLifecycle.device_geolocation →
  WatchLifecycle.isRequestingPermission c = false →
  WatchLifecycle.tracked c g →
  ∃ pending, WatchLifecycle.beginRequest c = Some pending
    ∧ let unmounted := WatchLifecycle.clearLocationWatch env pending g in
      let resumed :=
        WatchLifecycle.resumeRequest env WatchLifecycle.GRANTED unmounted.1 unmounted.2 in
      WatchLifecycle.active unmounted.2 = ∅
      ∧ WatchLifecycle.active resumed.2 = {[WatchLifecycle.next_watch g]}
      ∧ WatchLifecycle.watchIdRef resumed.1 = Some (WatchLifecycle.next_watch g).
Proof.
  intros Hgeo Hidle Htr. unfold WatchLifecycle.beginRequest. rewrite Hidle.
  eexists. split; [reflexivity|]. cbv zeta.
  set (pending := WatchLifecycle.set_isRequestingPermission true c).
  assert (Htr1 : WatchLifecycle.tracked pending g) by exact Htr.
  destruct (clear_tracked env Hgeo pending g Htr1) as (Hid & Hact & Hnext & _).
  destruct (WatchLifecycle.clearLocationWatch env pending g) as [c1 g1].
  cbn [fst snd] in *. split; [exact Hact|].
  unfold WatchLifecycle.resumeRequest, WatchLifecycle.getGeolocation. rewrite Hgeo.
  cbn [WatchLifecycle.is_granted negb].
  set (c2 := WatchLifecycle.set_isPermissionDeniedPermanently _ c1).
  assert (Htr2 : WatchLifecycle.tracked c2 g1).
  { unfold WatchLifecycle.tracked, WatchLifecycle.held. cbn. rewrite Hid, Hact.
    split; [reflexivity | set_solver]. }
  destruct (start_tracked env Hgeo c2 g1 Htr2) as [[Hact2 _] Hid2].
  destruct (WatchLifecycle.startLocationWatch env WatchLifecycle.device_geolocation c2 g1)
    as [c3 g3].
  cbn [fst snd] in *. rewrite Hact2. unfold WatchLifecycle.held. cbn.
  rewrite Hid2, Hnext. now split.
Qed.

Lemma late_answer_starts_watch_witness :
  ∃ pending, WatchLifecycle.beginRequest WatchLifecycle.initial = Some pending
    ∧ WatchLifecycle.active
        (WatchLifecycle.resumeRequest (WatchLifecycle.device_env WatchLifecycle.ios)
           WatchLifecycle.GRANTED
           (WatchLifecycle.clearLocationWatch (WatchLifecycle.device_env WatchLifecycle.ios)
              pending WatchLifecycle.no_watches).1
           (WatchLifecycle.clearLocationWatch (WatchLifecycle.device_env WatchLifecycle.ios)
              pending WatchLifecycle.no_watches).2).2
      = {[0]}.
Proof.
  destruct (late_answer_starts_watch (WatchLifecycle.device_env WatchLifecycle.ios)
              WatchLifecycle.initial WatchLifecycle.no_watches eq_refl eq_refl)
    as (pending & Hp & _ & H & _).
  - split; [reflexivity | set_solver].
  - exists pending. split; [exact Hp | exact H].
Defined.

(** ** The list of cached points *)

Lemma no_dash_inside (x b y : string) :
  HomeList.no_dash x = true → x ≠ b +:+ String "-" y.
Proof.
  revert x. induction b as [|e b IH]; intros x Hx ->; cbn [String.append HomeList.no_dash] in Hx.
  - discriminate.
  - apply andb_prop in Hx as [_ Hx]. now apply (IH _ Hx).
Qed.

Lemma dash_suffix (a b x y : string) :
  HomeList.no_dash x = true → HomeList.no_dash y = true →
  a +:+ String "-" x = b +:+ String "-" y → x = y.
Proof.
  intros Hx Hy. revert b. induction a as [|c a IH]; intros b H.
  - destruct b as [|d b]; cbn [String.append] in H.
    + now injection H.
    + injection H as _ H. now apply no_dash_inside in H.
  - destruct b as [|d b]; cbn [String.append] in H.
    + injection H as _ H. symmetry in H. now apply no_dash_inside in H.
    + injection H as _ H. now apply IH with b.
Qed.

Lemma digits_text_no_dash (ds : list N) :
  Forall is_digit ds → HomeList.no_dash (digits_text ds) = true.
Proof.
  induction 1 as [|d ds Hd _ IH]; [reflexivity|].
  cbn [digits_text HomeList.no_dash]. rewrite IH, andb_true_r.
  each_digit d Hd; reflexivity.
Qed.

Lemma digits_text_inj (ds ds' : list N) :
  Forall is_digit ds → Forall is_digit ds' → digits_text ds = digits_text ds' → ds = ds'.
Proof.
  intros H H' Heq.
  pose proof (read_digits_text ds "" H I) as R.
  pose proof (read_digits_text ds' "" H' I) as R'.
  rewrite !append_empty_r in R, R'. rewrite Heq in R. congruence.
Qed.

Lemma index_text_inj (i j : nat) : HomeList.index_text i = HomeList.index_text j → i = j.
Proof.
  unfold HomeList.index_text. intros H.
  destruct (N_digits_spec (N.of_nat i)) as (Hv & Hd & _).
  destruct (N_digits_spec (N.of_nat j)) as (Hv' & Hd' & _).
  apply digits_text_inj in H; [|assumption|assumption].
  rewrite H in Hv. lia.
Qed.

Lemma index_text_no_dash (i : nat) : HomeList.no_dash (HomeList.index_text i) = true.
Proof. apply digits_text_no_dash. apply N_digits_spec. Qed.

Lemma keyExtractor_inj (a b : json) (i j : nat) (k : string) :
  HomeList.keyExtractor a i = Some k → HomeList.keyExtractor b j = Some k → i = j.
Proof.
  unfold HomeList.keyExtractor.
  destruct (HomeList.get_property a "timestamp") as [ta|]; [|discriminate].
  destruct (HomeList.ToString ta) as [sa|]; [|discriminate].
  destruct (HomeList.get_property b "timestamp") as [tb|]; [|discriminate].
  destruct (HomeList.ToString tb) as [sb|]; [|discriminate].
  intros Ha Hb. injection Ha as <-. injection Hb as Hb.
  apply index_text_inj. symmetry.
  eapply dash_suffix; [apply index_text_no_dash | apply index_text_no_dash | exact Hb].
Qed.

Lemma row_keys_from_fresh (data : list json) (n m : nat) (keys : list string)
    (item : json) (k : string) :
  HomeList.row_keys_from m data = Some keys → n < m →
  HomeList.keyExtractor item n = Some k → k ∉ keys.
Proof.
  revert m keys. induction data as [|x data IH]; intros m keys Hk Hnm Hi.
  - injection Hk as <-. apply not_elem_of_nil.
  - cbn [HomeList.row_keys_from] in Hk.
    destruct (HomeList.keyExtractor x m) as [kx|] eqn:Hx; [|discriminate].
    destruct (HomeList.row_keys_from (S m) data) as [ks|] eqn:Hks; [|discriminate].
    injection Hk as <-. apply not_elem_of_cons. split.
    + intros ->. pose proof (keyExtractor_inj item x n m kx Hi Hx). lia.
    + apply (IH (S m) ks Hks); [lia | exact Hi].
Qed.

Lemma row_keys_from_NoDup (data : list json) (m : nat) (keys : list string) :
  HomeList.row_keys_from m data = Some keys → NoDup keys ∧ length keys = length data.
Proof.
  revert m keys. induction data as [|x data IH]; intros m keys Hk.
  - injection Hk as <-. split; [constructor | reflexivity].
  - cbn [HomeList.row_keys_from] in Hk.
    destruct (HomeList.keyExtractor x m) as [kx|] eqn:Hx; [|discriminate].
    destruct (HomeList.row_keys_from (S m) data) as [ks|] eqn:Hks; [|discriminate].
    injection Hk as <-. destruct (IH _ _ Hks) as [Hnd Hlen]. split.
    + constructor; [|exact Hnd]. apply (row_keys_from_fresh data m (S m) ks x kx Hks); [lia|exact Hx].
    + cbn [length]. now rewrite Hlen.
Qed.

Lemma stored_entry_key (v : json) (i : nat) :
  stored_entry v → ∃ k, HomeList.keyExtractor v i = Some k.
Proof.
  intros [lat lon alt acc ts _ _ _ _ Hts]. unfold HomeList.keyExtractor.
  cbn [HomeList.get_property point_object List.find fst snd String.eqb Ascii.eqb Bool.eqb fmap option_fmap option_map].
  destruct ts as [| |x| | |]; try discriminate; eexists; reflexivity.
Qed.

Lemma stored_entries_keys (w : list json) (m : nat) :
  Forall stored_entry w → ∃ keys, HomeList.row_keys_from m w = Some keys.
Proof.
  intros Hw. revert m. induction Hw as [|v w Hv _ IH]; intros m.
  - now exists [].
  - destruct (stored_entry_key v m Hv) as [k Hk]. destruct (IH (S m)) as [ks Hks].
    exists (k :: ks). cbn [HomeList.row_keys_from]. now rewrite Hk, Hks.
Qed.

(** X16.  The keys the list gives its rows are pairwise distinct whenever
    they can be computed at all, whatever the items and also when timestamps
    repeat; for the window read after any appends to a device store with
    nothing under the cache key they always can. *)
Theorem row_keys_distinct (data : list json) :
  (∀ keys, HomeList.row_keys data = Some keys →
           NoDup keys ∧ length keys = length data)
  ∧ (∀ (samples : list GPSDataPoint) (disk : gmap string string),
       disk !! GPS_CACHE_KEY = None →
       fst (getCachedGPSData with_storage (append_all with_storage samples disk))
       = Fulfilled data →
       ∃ keys, HomeList.row_keys data = Some keys ∧ NoDup keys).
Proof.
  split.
  - intros keys. apply row_keys_from_NoDup.
  - intros samples disk Hdisk Hread.
    pose proof (read_after_appends_entries samples disk data Hdisk Hread) as Hshape.
    destruct (stored_entries_keys data 0 Hshape) as [keys Hkeys].
    exists keys. split; [exact Hkeys|]. now apply (row_keys_from_NoDup data 0).
Qed.

Lemma row_keys_distinct_witness :
  ∃ keys, HomeList.row_keys [js_of_point fix_a; js_of_point fix_a] = Some keys
          ∧ NoDup keys.
Proof.
  apply (proj2 (row_keys_distinct [js_of_point fix_a; js_of_point fix_a])
           [fix_a; fix_a] ∅ (lookup_empty _)).
  reflexivity.
Defined.

Section RenderFacts.
Variable toLocaleTimeString : option json → string.
Variable toFixed : number → nat → string.

Lemma renderItem_point (lat lon alt acc ts : json) :
  HomeList.renderItem toLocaleTimeString toFixed (point_object lat lon alt acc ts)
  = match HomeList.date_text toLocaleTimeString (Some ts),
          HomeList.call_toFixed toFixed (Some lat) 6,
          HomeList.call_toFixed toFixed (Some lon) 6,
          HomeList.nullable_text toFixed (Some alt),
          HomeList.nullable_text toFixed (Some acc) with
    | Some time, Some la, Some lo, Some al, Some ac =>
        Some {| HomeList.row_time := time; HomeList.row_latitude := "Lat: " +:+ la;
                HomeList.row_longitude := "Lon: " +:+ lo;
                HomeList.row_altitude := "Alt: " +:+ al;
                HomeList.row_accuracy := "Acc: " +:+ ac |}
    | _, _, _, _, _ => None
    end.
Proof. reflexivity. Qed.

Lemma date_text_flat (v : json) :
  flat v = true → is_Some (HomeList.date_text toLocaleTimeString (Some v)).
Proof. destruct v; try discriminate; intros _; eexists; reflexivity. Qed.

Lemma nullable_text_flat (v : json) :
  flat v = true → is_Some (HomeList.nullable_text toFixed (Some v)).
Proof. destruct v; try discriminate; intros _; eexists; reflexivity. Qed.

Lemma call_toFixed_stored (x : number) (digits : nat) :
  is_Some (HomeList.call_toFixed toFixed (Some (stored_number x)) digits)
  ↔ Number_isFinite x = true.
Proof.
  destruct x; cbn; split; intros H; try reflexivity; try discriminate;
    try (eexists; reflexivity); now destruct H.
Qed.

Lemma flat_of_nullable (x : option number) : flat (stored_field (js_of_nullable x)) = true.
Proof. destruct x as [x|]; [|reflexivity]. now destruct x. Qed.

Lemma flat_stored_number (x : number) : flat (stored_number x) = true.
Proof. now destruct x. Qed.

Lemma renderItem_stored_point (p : GPSDataPoint) :
  is_Some (HomeList.renderItem toLocaleTimeString toFixed (stored_point p))
  ↔ Number_isFinite (latitude p) = true ∧ Number_isFinite (longitude p) = true.
Proof.
  unfold stored_point, js_of_point, stored_value.
  cbn [map fst snd stored_field].
  change (JObj ?l) with
    (point_object (stored_number (latitude p)) (stored_number (longitude p))
       (stored_field (js_of_nullable (altitude p)))
       (stored_field (js_of_nullable (accuracy p)))
       (stored_number (timestamp p))).
  rewrite renderItem_point.
  destruct (date_text_flat _ (flat_stored_number (timestamp p))) as [time ->].
  destruct (nullable_text_flat _ (flat_of_nullable (altitude p))) as [al ->].
  destruct (nullable_text_flat _ (flat_of_nullable (accuracy p))) as [ac ->].
  rewrite <- (call_toFixed_stored (latitude p) 6), <- (call_toFixed_stored (longitude p) 6).
  destruct (HomeList.call_toFixed toFixed (Some (stored_number (latitude p))) 6),
           (HomeList.call_toFixed toFixed (Some (stored_number (longitude p))) 6);
    split; intros H; try (split; eexists; reflexivity); try (eexists; reflexivity);
    try (now destruct H as [[? ?] [? ?]]); now destruct H.
Qed.
End RenderFacts.

(** X17.  A sample read back from the cache renders exactly when its
    latitude and longitude are finite numbers: [renderItem] throws on a
    sample whose latitude or longitude was [NaN] or infinite (stored as
    [null]), and on no other; a missing, [NaN] or infinite altitude or
    accuracy is shown as N/A.  So a window of samples with finite latitudes
    and longitudes, read back after the appends, renders in full. *)
Theorem render_read_back (toLocaleTimeString : option json → string)
    (toFixed : number → nat → string) :
  (∀ p : GPSDataPoint,
     is_Some (HomeList.renderItem toLocaleTimeString toFixed (stored_point p))
     ↔ Number_isFinite (latitude p) = true ∧ Number_isFinite (longitude p) = true)
  ∧ (∀ p : GPSDataPoint, ∀ row,
       HomeList.renderItem toLocaleTimeString toFixed (stored_point p) = Some row →
       (∀ x, altitude p = Some x → Number_isFinite x = false →
             HomeList.row_altitude row = "Alt: N/A")
       ∧ (altitude p = None → HomeList.row_altitude row = "Alt: N/A"))
  ∧ (∀ (samples : list GPSDataPoint) (disk : gmap string string) (w : list json),
       disk !! GPS_CACHE_KEY = None →
       Forall (fun p => Number_isFinite (latitude p) = true
                        ∧ Number_isFinite (longitude p) = true) samples →
       fst (getCachedGPSData with_storage (append_all with_storage samples disk))
       = Fulfilled w →
       Forall (fun v => is_Some (HomeList.renderItem toLocaleTimeString toFixed v)) w).
Proof.
  split; [apply renderItem_stored_point|]. split.
  - intros p row. unfold stored_point, js_of_point, stored_value.
    cbn [map fst snd stored_field].
    change (JObj ?l) with
      (point_object (stored_number (latitude p)) (stored_number (longitude p))
         (stored_field (js_of_nullable (altitude p)))
         (stored_field (js_of_nullable (accuracy p)))
         (stored_number (timestamp p))).
    rewrite renderItem_point.
    destruct (HomeList.date_text _ _) as [time|]; [|discriminate].
    destruct (HomeList.call_toFixed _ (Some (stored_number (latitude p))) 6) as [la|];
      [|discriminate].
    destruct (HomeList.call_toFixed _ (Some (stored_number (longitude p))) 6) as [lo|];
      [|discriminate].
    destruct (HomeList.nullable_text toFixed
                (Some (stored_field (js_of_nullable (altitude p))))) as [al|] eqn:Hal;
      [|discriminate].
    destruct (HomeList.nullable_text toFixed
                (Some (stored_field (js_of_nullable (accuracy p))))) as [ac|];
      [|discriminate].
    intros H. injection H as <-. cbn [HomeList.row_altitude].
    split.
    + intros x Halt Hx. rewrite Halt in Hal.
      destruct x; try discriminate; cbn in Hal; now injection Hal as <-.
    + intros Halt. rewrite Halt in Hal. cbn in Hal. now injection Hal as <-.
  - intros samples disk w Hdisk Hfin Hread.
    rewrite read_after_appends in Hread by assumption. injection Hread as <-.
    apply Forall_take, Forall_rev, List.Forall_map.
    revert Hfin. apply List.Forall_impl. intros p Hp.
    now apply renderItem_stored_point.
Qed.

Lemma render_read_back_witness :
  Forall (fun v => is_Some (HomeList.renderItem (fun _ => "12:00:00")
                              (fun x _ => Number_toString x) v))
    [js_of_point fix_b; stored_point fix_nan].
Proof.
  apply (proj2 (proj2 (render_read_back (fun _ => "12:00:00")
                         (fun x _ => Number_toString x)))
           [fix_nan; fix_b] ∅ _ (lookup_empty _)).
  - repeat constructor.
  - reflexivity.
Defined.

(** ** The polling reader over time *)

(** X19.  When [getItem] rejects during a poll tick, [load] rejects with the
    same reason, the window published earlier stays on screen and the storage
    message has been cleared. *)
Theorem load_read_failure {S : Type} (rt : Runtime S) (storage : AsyncStorageLike S)
    (home : HomeScreen.State) (s s' : S) (e : string) :
  getAsyncStorage rt = Some storage →
  getItem storage GPS_CACHE_KEY s = (Rejected e, s') →
  HomeScreen.load rt home s
  = (Rejected e,
     {| HomeScreen.cachedData := HomeScreen.cachedData home;
        HomeScreen.storageMessage := None |},
     s').
Proof.
  intros Hrt Hget. unfold HomeScreen.load, isStorageReady, getCachedGPSData.
  rewrite Hrt. cbn [negb]. unfold await. now rewrite Hget.
Qed.

Lemma load_read_failure_witness :
  HomeScreen.load with_failing_storage
    {| HomeScreen.cachedData := [js_of_point fix_a];
       HomeScreen.storageMessage := Some HomeScreen.storage_missing |} ∅
  = (Rejected "getItem failed",
     {| HomeScreen.cachedData := [js_of_point fix_a];
        HomeScreen.storageMessage := None |}, ∅).
Proof.
  apply (load_read_failure with_failing_storage failing_storage); reflexivity.
Defined.

Lemma call_load_device (home : HomeScreen.State) (disk : gmap string string) :
  ∃ w, fst (getCachedGPSData with_storage disk) = Fulfilled w
       ∧ Poller.call_load with_storage (home, disk)
         = ({| HomeScreen.cachedData := w; HomeScreen.storageMessage := None |}, disk).
Proof.
  destruct (read_device disk) as [w Hw]. exists w. rewrite Hw. split; [reflexivity|].
  unfold Poller.call_load, HomeScreen.load.
  cbn [isStorageReady getAsyncStorage with_storage async_storage_module negb fst snd].
  now rewrite Hw.
Qed.

Lemma iter_load_device (n : nat) (home : HomeScreen.State) (disk : gmap string string) :
  (0 < n)%nat →
  ∃ w, fst (getCachedGPSData with_storage disk) = Fulfilled w
       ∧ Nat.iter n (Poller.call_load with_storage) (home, disk)
         = ({| HomeScreen.cachedData := w; HomeScreen.storageMessage := None |}, disk).
Proof.
  intros Hn. destruct n as [|n]; [lia|]. clear Hn. revert home.
  induction n as [|n IH]; intros home.
  - apply call_load_device.
  - destruct (IH home) as (w & Hw & Hiter). exists w. split; [exact Hw|].
    change (Nat.iter (S (S n)) ?f ?x) with (f (Nat.iter (S n) f x)).
    rewrite Hiter. destruct (call_load_device
      {| HomeScreen.cachedData := w; HomeScreen.storageMessage := None |} disk)
      as (w' & Hw' & ->).
    rewrite Hw in Hw'. now injection Hw' as <-.
Qed.

(** X20.  While the Home screen is mounted on a device store its timer is
    always due within the next 5000 ms, so once the clock has moved 5000 ms
    or more past any moment, the screen shows what the store held at that
    moment if the store has not changed since: the window on screen is never
    more than 5000 ms behind the store.  The first window is published on
    mounting, without waiting for the timer. *)
Theorem poll_freshness (m : Poller.Mounted) (disk : gmap string string) (t : Z) :
  Poller.ticking m →
  (Poller.ticking (Poller.advance with_storage t m disk).1
   ∧ (Poller.advance with_storage t m disk).2 = disk)
  ∧ ((Poller.clock m + 5000 ≤ t)%Z →
     Fulfilled (HomeScreen.cachedData
                  (Poller.screen (Poller.advance with_storage t m disk).1))
     = fst (getCachedGPSData with_storage disk))
  ∧ (∀ now, Poller.ticking (Poller.mount with_storage now disk).1
            ∧ Fulfilled (HomeScreen.cachedData
                           (Poller.screen (Poller.mount with_storage now disk).1))
              = fst (getCachedGPSData with_storage disk)).
Proof.
  intros (d & Hdue & Hd). split; [|split].
  - unfold Poller.advance. rewrite Hdue.
    destruct (Z.ltb_spec t (Poller.clock m)); [split; [now exists d | reflexivity]|].
    destruct (Z.leb_spec d t) as [Hfire|Hwait].
    + set (n := ((t - d) / 5000 + 1)%Z).
      assert (Hn : (0 < n)%Z) by (unfold n; pose proof (Z.div_pos (t - d) 5000); lia).
      destruct (iter_load_device (Z.to_nat n) (Poller.screen m) disk ltac:(lia))
        as (w & _ & ->).
      cbn [fst snd]. split; [|reflexivity]. eexists. split; [reflexivity|].
      cbn [Poller.clock]. unfold n.
      pose proof (Z.div_mod (t - d) 5000 ltac:(lia)).
      pose proof (Z.mod_pos_bound (t - d) 5000 ltac:(lia)). lia.
    + cbn [fst snd]. split; [|reflexivity]. exists d. cbn. split; [reflexivity | lia].
  - intros Hlate. unfold Poller.advance. rewrite Hdue.
    destruct (Z.ltb_spec t (Poller.clock m)); [lia|].
    destruct (Z.leb_spec d t) as [Hfire|Hwait]; [|lia].
    set (n := ((t - d) / 5000 + 1)%Z).
    assert (Hn : (0 < n)%Z) by (unfold n; pose proof (Z.div_pos (t - d) 5000); lia).
    destruct (iter_load_device (Z.to_nat n) (Poller.screen m) disk ltac:(lia))
      as (w & Hw & ->).
    cbn [fst snd Poller.screen HomeScreen.cachedData]. now rewrite Hw.
  - intros now. unfold Poller.mount.
    destruct (call_load_device HomeScreen.initial disk) as (w & Hw & ->).
    cbn [fst snd Poller.screen]. split.
    + eexists. split; [reflexivity|]. cbn. lia.
    + cbn [fst snd Poller.screen HomeScreen.cachedData]. now rewrite Hw.
Qed.

Lemma poll_freshness_witness :
  Fulfilled (HomeScreen.cachedData
               (Poller.screen
                  (Poller.advance with_storage 5000
                     (Poller.mount with_storage 0 ∅).1
                     (snd (appendGPSData with_storage fix_a ∅))).1))
  = fst (getCachedGPSData with_storage (snd (appendGPSData with_storage fix_a ∅))).
Proof.
  refine (proj1 (proj2 (poll_freshness (Poller.mount with_storage 0 ∅).1 _ 5000 _)) _).
  - exists 5000%Z. split; [reflexivity | cbn; lia].
  - cbn. lia.
Defined.

(** X21.  After the cleanup of the polling effect no further [load] runs:
    however far the clock moves on and whatever the store then holds, the
    window and the message on screen stay as they were, and the store is not
    read. *)
Theorem no_poll_after_unmount {S : Type} (rt : Runtime S) (m : Poller.Mounted)
    (s : S) (t : Z) :
  Poller.screen (Poller.advance rt t (Poller.unmount m) s).1 = Poller.screen m
  ∧ (Poller.advance rt t (Poller.unmount m) s).2 = s
  ∧ Poller.due (Poller.advance rt t (Poller.unmount m) s).1 = None
  ∧ Poller.unmount (Poller.unmount m) = Poller.unmount m.
Proof.
  unfold Poller.advance, Poller.unmount. cbn [Poller.due Poller.clock Poller.screen].
  destruct (t <? Poller.clock m)%Z; repeat split.
Qed.

(** ** The screen guarded by [isMounted] *)

Section GuardedFacts.
Context {S G : Type}.
Variable env : WatchLifecycle.Env S G.

Lemma guarded_step_unmounted (ev : GuardedScreen.event) (e : GuardedScreen.Effect) (g : G) :
  GuardedScreen.isMounted e = false →
  let st := GuardedScreen.step env ev (e, g) in
  GuardedScreen.isMounted st.1 = false
  ∧ GuardedScreen.gpsData (GuardedScreen.component st.1)
    = GuardedScreen.gpsData (GuardedScreen.component e)
  ∧ GuardedScreen.errorMessage (GuardedScreen.component st.1)
    = GuardedScreen.errorMessage (GuardedScreen.component e).
Proof.
  intros Hm. destruct e as [m c]. cbn in Hm. subst m.
  destruct ev as [answer|position|message|]; cbn [GuardedScreen.step fst snd].
  - unfold GuardedScreen.startWatching. cbn [GuardedScreen.isMounted].
    destruct (negb _); [now cbn|].
    destruct (WatchLifecycle.geolocation_module env) as [geo|]; [|now cbn].
    destruct (WatchLifecycle.watchPosition geo g). now cbn.
  - now cbn.
  - now cbn.
  - unfold GuardedScreen.cleanup.
    destruct (GuardedScreen.watchIdRef _); [|now cbn].
    destruct (WatchLifecycle.geolocation_module env); now cbn.
Qed.

Lemma guarded_run_unmounted (events : list GuardedScreen.event)
    (e : GuardedScreen.Effect) (g : G) :
  GuardedScreen.isMounted e = false →
  let st := GuardedScreen.run env events (e, g) in
  GuardedScreen.isMounted st.1 = false
  ∧ GuardedScreen.gpsData (GuardedScreen.component st.1)
    = GuardedScreen.gpsData (GuardedScreen.component e)
  ∧ GuardedScreen.errorMessage (GuardedScreen.component st.1)
    = GuardedScreen.errorMessage (GuardedScreen.component e).
Proof.
  revert e g. induction events as [|ev events IH]; intros e g Hm; [now cbn|].
  cbn [GuardedScreen.run fold_left].
  destruct (GuardedScreen.step env ev (e, g)) as [e1 g1] eqn:Hstep.
  pose proof (guarded_step_unmounted ev e g Hm) as Hone. rewrite Hstep in Hone.
  cbn [fst] in Hone. destruct Hone as (Hm1 & Hd & He).
  specialize (IH e1 g1 Hm1). cbn zeta in IH. unfold GuardedScreen.run in IH.
  destruct IH as (? & ? & ?). repeat split; congruence.
Qed.

Lemma guarded_callbacks_keep_service (events : list GuardedScreen.event)
    (e : GuardedScreen.Effect) (g : G) :
  forallb GuardedScreen.is_callback events = true →
  (GuardedScreen.run env events (e, g)).2 = g
  ∧ GuardedScreen.watchIdRef (GuardedScreen.component (GuardedScreen.run env events (e, g)).1)
    = GuardedScreen.watchIdRef (GuardedScreen.component e).
Proof.
  revert e. induction events as [|ev events IH]; intros e Hev; [now cbn|].
  cbn [forallb] in Hev. apply andb_prop in Hev as [Hcb Hev].
  cbn [GuardedScreen.run fold_left].
  destruct ev as [?|position|message|]; try discriminate Hcb; cbn [GuardedScreen.step fst snd].
  - destruct (IH (GuardedScreen.onPosition position e) Hev) as [Hg Hw].
    unfold GuardedScreen.run in Hg, Hw. rewrite Hg, Hw.
    split; [reflexivity|]. unfold GuardedScreen.onPosition. now destruct (negb _).
  - destruct (IH (GuardedScreen.onError message e) Hev) as [Hg Hw].
    unfold GuardedScreen.run in Hg, Hw. rewrite Hg, Hw.
    split; [reflexivity|]. unfold GuardedScreen.onError. now destruct (GuardedScreen.isMounted e).
Qed.
End GuardedFacts.

(** X22.  Once the cleanup of the effect has run, nothing changes what the
    guarded screen shows: whatever positions, errors, permission answers or
    further cleanups arrive afterwards, the sample and the error message stay
    those of the moment of the cleanup. *)
Theorem guarded_after_cleanup {S G : Type} (env : WatchLifecycle.Env S G)
    (events : list GuardedScreen.event) (e : GuardedScreen.Effect) (g : G) :
  let st := GuardedScreen.run env (GuardedScreen.Cleanup :: events) (e, g) in
  GuardedScreen.gpsData (GuardedScreen.component st.1)
  = GuardedScreen.gpsData (GuardedScreen.component e)
  ∧ GuardedScreen.errorMessage (GuardedScreen.component st.1)
    = GuardedScreen.errorMessage (GuardedScreen.component e).
Proof.
  cbn [GuardedScreen.run fold_left].
  destruct (GuardedScreen.step env GuardedScreen.Cleanup (e, g)) as [e1 g1] eqn:Hstep.
  pose proof (guarded_run_unmounted env events e1 g1) as Hrun.
  assert (GuardedScreen.isMounted e1 = false ∧ GuardedScreen.component e1 = GuardedScreen.component e)
    as [Hm Hc].
  { cbn [GuardedScreen.step fst snd] in Hstep. unfold GuardedScreen.cleanup in Hstep.
    destruct (GuardedScreen.watchIdRef _);
      [destruct (WatchLifecycle.geolocation_module env)|];
      injection Hstep as <- <-; now cbn. }
  destruct (Hrun Hm) as (_ & Hd & He). unfold GuardedScreen.run in Hd, He.
  rewrite Hc in Hd, He. now split.
Qed.

(** X23.  In the guarded screen the cleanup releases the watch only when the
    permission answer came first.  With the permission granted and a
    geolocation service present, answer-then-cleanup leaves the service with
    the watches it had before; cleanup-then-answer registers a watch after
    the cleanup, and no callback that follows removes it. *)
Theorem guarded_cleanup_order (os : WatchLifecycle.OS)
    (answer : WatchLifecycle.PermissionStatus)
    (callbacks : list GuardedScreen.event) (e : GuardedScreen.Effect)
    (g : WatchLifecycle.Watches) :
  GuardedScreen.requestLocationPermission (WatchLifecycle.device_env os) answer = true →
  GuardedScreen.watchIdRef (GuardedScreen.component e) = None →
  (∀ id, id ∈ WatchLifecycle.active g → id < WatchLifecycle.next_watch g) →
  forallb GuardedScreen.is_callback callbacks = true →
  WatchLifecycle.active
    (GuardedScreen.run (WatchLifecycle.device_env os)
       (GuardedScreen.Answer answer :: callbacks ++ [GuardedScreen.Cleanup]) (e, g)).2
  = WatchLifecycle.active g
  ∧ WatchLifecycle.active
      (GuardedScreen.run (WatchLifecycle.device_env os)
         (GuardedScreen.Cleanup :: GuardedScreen.Answer answer :: callbacks) (e, g)).2
    = {[WatchLifecycle.next_watch g]} ∪ WatchLifecycle.active g.
Proof.
  intros Hperm Href Hfresh Hcb. split.
  - unfold GuardedScreen.run. cbn [fold_left]. rewrite fold_left_app. cbn [fold_left].
    cbn [GuardedScreen.step fst snd]. unfold GuardedScreen.startWatching.
    rewrite Hperm. cbn [negb WatchLifecycle.device_env WatchLifecycle.geolocation_module
      WatchLifecycle.device_geolocation WatchLifecycle.watchPosition].
    match goal with |- context [fold_left _ callbacks (?e1, ?g1)] =>
      destruct (guarded_callbacks_keep_service (WatchLifecycle.device_env os)
                  callbacks e1 g1 Hcb) as [Hg Hw] end.
    unfold GuardedScreen.run in Hg, Hw.
    cbn [WatchLifecycle.device_env] in Hg, Hw. 
    unfold GuardedScreen.cleanup. rewrite Hw, Hg.
    cbn [GuardedScreen.component GuardedScreen.watchIdRef WatchLifecycle.geolocation_module
      WatchLifecycle.clearWatch WatchLifecycle.device_geolocation snd WatchLifecycle.active].
    apply set_eq. intros id. specialize (Hfresh id). set_solver by lia.
  - unfold GuardedScreen.run. cbn [fold_left].
    cbn [GuardedScreen.step fst snd]. unfold GuardedScreen.cleanup. rewrite Href.
    cbn [fst snd]. unfold GuardedScreen.startWatching.
    rewrite Hperm. cbn [negb WatchLifecycle.device_env WatchLifecycle.geolocation_module
      WatchLifecycle.device_geolocation WatchLifecycle.watchPosition].
    match goal with |- context [fold_left _ callbacks (?e1, ?g1)] =>
      destruct (guarded_callbacks_keep_service (WatchLifecycle.device_env os)
                  callbacks e1 g1 Hcb) as [Hg _] end.
    unfold GuardedScreen.run in Hg. cbn [WatchLifecycle.device_env] in Hg.
    rewrite Hg. reflexivity.
Qed.

Lemma guarded_cleanup_order_witness :
  WatchLifecycle.active
    (GuardedScreen.run (WatchLifecycle.device_env WatchLifecycle.android)
       [GuardedScreen.Cleanup; GuardedScreen.Answer WatchLifecycle.GRANTED;
        GuardedScreen.Position position_a]
       (GuardedScreen.mounted, WatchLifecycle.no_watches)).2
  = {[0]} ∪ ∅.
Proof.
  refine (proj2 (guarded_cleanup_order WatchLifecycle.android WatchLifecycle.GRANTED
                   [GuardedScreen.Position position_a] GuardedScreen.mounted
                   WatchLifecycle.no_watches _ _ _ _)).
  - reflexivity.
  - reflexivity.
  - intros id Hid. cbn in Hid. set_solver.
  - reflexivity.
Defined.

(** ** Appends in flight *)

Section PendingFacts.
Context {S : Type}.
Variable rt : Runtime S.

Lemma finish_append (asyncStorage : AsyncStorageLike S) (p : GPSDataPoint) (s : S) :
  getAsyncStorage rt = Some asyncStorage →
  PendingAppends.finish rt (PendingAppends.AwaitsRead asyncStorage p) s
  = snd (appendGPSData rt p s).
Proof.
  intros Hst. unfold PendingAppends.finish, appendGPSData. rewrite Hst.
  unfold await. cbn [PendingAppends.settle].
  destruct (getCachedGPSData rt s) as [[existing|e] s1]; [|reflexivity].
  cbn [PendingAppends.settle snd].
  destruct (setItem asyncStorage GPS_CACHE_KEY _ s1) as [[[]|e] s2]; reflexivity.
Qed.

Lemma finish_write (asyncStorage : AsyncStorageLike S) (next : list json) (s : S) :
  PendingAppends.finish rt (PendingAppends.AwaitsWrite asyncStorage next) s
  = snd (setItem asyncStorage GPS_CACHE_KEY (JSON_stringify (JArr next)) s).
Proof.
  unfold PendingAppends.finish. cbn [PendingAppends.settle].
  destruct (setItem asyncStorage GPS_CACHE_KEY _ s) as [[[]|e] s2]; reflexivity.
Qed.

Lemma append_all_without_storage (points : list GPSDataPoint) (s : S) :
  getAsyncStorage rt = None → append_all rt points s = s.
Proof.
  intros Hno. induction points as [|p points IH]; [reflexivity|].
  cbn [append_all]. unfold appendGPSData. rewrite Hno. exact IH.
Qed.

Lemma run_without_storage (schedule : list PendingAppends.event)
    (cfg : PendingAppends.Config S) :
  getAsyncStorage rt = None → PendingAppends.calls cfg = [] →
  PendingAppends.store (PendingAppends.run rt schedule cfg) = PendingAppends.store cfg
  ∧ PendingAppends.calls (PendingAppends.run rt schedule cfg) = [].
Proof.
  intros Hno. revert cfg. induction schedule as [|ev schedule IH]; intros cfg Hcalls;
    [now split|].
  unfold PendingAppends.run. cbn [fold_left].
  fold (PendingAppends.run rt schedule (PendingAppends.step rt ev cfg)).
  destruct ev as [position now|i]; cbn [PendingAppends.step].
  - destruct (IH (PendingAppends.arrive rt position now cfg)) as [-> ->].
    + unfold PendingAppends.arrive. rewrite Hno.
      now destruct (GPSLiveDataScreen.admits _ now).
    + split; [|reflexivity]. unfold PendingAppends.arrive.
      now destruct (GPSLiveDataScreen.admits _ now).
  - unfold PendingAppends.resume. rewrite Hcalls. cbn. now apply IH.
Qed.

Lemma arrive_admitted (asyncStorage : AsyncStorageLike S)
    (position : GPSLiveDataScreen.GPSPosition) (now : Z)
    (ui : GPSLiveDataScreen.State) (s : S) (cs : list (PendingAppends.call S)) :
  getAsyncStorage rt = Some asyncStorage →
  GPSLiveDataScreen.admits (GPSLiveDataScreen.lastCachedAtRef ui) now = true →
  PendingAppends.arrive rt position now
    {| PendingAppends.view := ui; PendingAppends.store := s; PendingAppends.calls := cs |}
  = {| PendingAppends.view :=
         {| GPSLiveDataScreen.gpsData := Some (GPSLiveDataScreen.sample_of position);
            GPSLiveDataScreen.errorMessage := None;
            GPSLiveDataScreen.storageMessage := GPSLiveDataScreen.storageMessage ui;
            GPSLiveDataScreen.lastCachedAtRef := now |};
       PendingAppends.store := s;
       PendingAppends.calls :=
         cs ++ [PendingAppends.AwaitsRead asyncStorage
                  (GPSLiveDataScreen.sample_of position)] |}.
Proof.
  intros Hst Hadm. unfold PendingAppends.arrive.
  cbn [PendingAppends.view PendingAppends.store PendingAppends.calls].
  rewrite Hadm, Hst. reflexivity.
Qed.

Lemma resume_read (asyncStorage : AsyncStorageLike S) (p : GPSDataPoint) (i : nat)
    (ui : GPSLiveDataScreen.State) (s s' : S) (cs : list (PendingAppends.call S))
    (existing : list json) :
  cs !! i = Some (PendingAppends.AwaitsRead asyncStorage p) →
  getCachedGPSData rt s = (Fulfilled existing, s') →
  PendingAppends.resume rt i
    {| PendingAppends.view := ui; PendingAppends.store := s; PendingAppends.calls := cs |}
  = {| PendingAppends.view := ui;
       PendingAppends.store := s';
       PendingAppends.calls :=
         <[i := PendingAppends.AwaitsWrite asyncStorage
                  (take MAX_CACHE_ITEMS (js_of_point p :: existing))]> cs |}.
Proof.
  intros Hcall Hread. unfold PendingAppends.resume.
  cbn [PendingAppends.view PendingAppends.store PendingAppends.calls].
  rewrite Hcall. cbn [PendingAppends.settle]. rewrite Hread. reflexivity.
Qed.

Lemma resume_write (asyncStorage : AsyncStorageLike S) (next : list json) (i : nat)
    (ui : GPSLiveDataScreen.State) (s s' : S) (cs : list (PendingAppends.call S)) :
  cs !! i = Some (PendingAppends.AwaitsWrite asyncStorage next) →
  setItem asyncStorage GPS_CACHE_KEY (JSON_stringify (JArr next)) s = (Fulfilled tt, s') →
  PendingAppends.resume rt i
    {| PendingAppends.view := ui; PendingAppends.store := s; PendingAppends.calls := cs |}
  = {| PendingAppends.view := ui;
       PendingAppends.store := s';
       PendingAppends.calls := delete i cs |}.
Proof.
  intros Hcall Hwrite. unfold PendingAppends.resume.
  cbn [PendingAppends.view PendingAppends.store PendingAppends.calls].
  rewrite Hcall. cbn [PendingAppends.settle]. rewrite Hwrite. reflexivity.
Qed.

Lemma serial_run (asyncStorage : AsyncStorageLike S)
    (schedule : list PendingAppends.event) (cfg : PendingAppends.Config S) :
  getAsyncStorage rt = Some asyncStorage →
  PendingAppends.serial rt schedule cfg = true →
  PendingAppends.calls (PendingAppends.run rt schedule cfg) = [] →
  (length (PendingAppends.calls cfg) ≤ 1)%nat →
  PendingAppends.store (PendingAppends.run rt schedule cfg)
  = append_all rt
      (PendingAppends.admitted
         (GPSLiveDataScreen.lastCachedAtRef (PendingAppends.view cfg)) schedule)
      (fold_left (fun s c => PendingAppends.finish rt c s)
         (PendingAppends.calls cfg) (PendingAppends.store cfg)).
Proof.
  intros Hst. revert cfg.
  induction schedule as [|ev schedule IH]; intros cfg Hserial Hdone Hone.
  - cbn in Hdone. cbn. now rewrite Hdone.
  - cbn [PendingAppends.serial] in Hserial.
    apply andb_prop in Hserial as [Hone' Hserial]. apply Nat.leb_le in Hone'.
    unfold PendingAppends.run in Hdone |- *. cbn [fold_left] in Hdone |- *.
    fold (PendingAppends.run rt schedule (PendingAppends.step rt ev cfg)) in Hdone |- *.
    rewrite (IH _ Hserial Hdone Hone'). clear IH Hserial Hdone.
    destruct cfg as [ui s cs]. cbn [PendingAppends.view PendingAppends.store
      PendingAppends.calls] in *.
    destruct ev as [position now|i]; cbn [PendingAppends.step] in *.
    + unfold PendingAppends.admitted. cbn [PendingAppends.arrivals flat_map app].
      cbn [admitted_events]. unfold PendingAppends.arrive in *.
      cbn [PendingAppends.view PendingAppends.store PendingAppends.calls] in *.
      rewrite Hst in *.
      destruct (GPSLiveDataScreen.admits (GPSLiveDataScreen.lastCachedAtRef ui) now).
      * cbn [PendingAppends.view PendingAppends.store PendingAppends.calls
          GPSLiveDataScreen.lastCachedAtRef] in *.
        rewrite length_app in Hone'. cbn [length] in Hone'.
        destruct cs as [|c cs]; [|cbn [length] in Hone'; lia].
        cbn [app fold_left map append_all fst]. now rewrite finish_append.
      * reflexivity.
    + unfold PendingAppends.admitted. cbn [PendingAppends.arrivals flat_map app].
      unfold PendingAppends.resume in *.
      cbn [PendingAppends.view PendingAppends.store PendingAppends.calls] in *.
      destruct cs as [|c [|c' cs]]; [reflexivity| |cbn [length] in Hone; lia].
      destruct i as [|i]; [|reflexivity].
      cbn [lookup list_lookup] in *.
      cbn [fold_left].
      destruct c as [st p|st next].
      * unfold PendingAppends.finish. cbn [PendingAppends.settle] in *.
        destruct (getCachedGPSData rt s) as [[existing|e] s1];
          cbn [PendingAppends.view PendingAppends.store PendingAppends.calls
            GPSLiveDataScreen.lastCachedAtRef insert list_insert delete list_delete
            fold_left PendingAppends.settle snd]; [|reflexivity].
        destruct (setItem st GPS_CACHE_KEY _ s1) as [[[]|e] s2]; reflexivity.
      * unfold PendingAppends.finish. cbn [PendingAppends.settle] in *.
        destruct (setItem st GPS_CACHE_KEY _ s) as [[[]|e] s2]; reflexivity.
Qed.

Lemma settled_store (schedule : list PendingAppends.event)
    (ui : GPSLiveDataScreen.State) (s : S) :
  PendingAppends.serial rt schedule (PendingAppends.idle ui s) = true →
  PendingAppends.calls (PendingAppends.run rt schedule (PendingAppends.idle ui s)) = [] →
  PendingAppends.store (PendingAppends.run rt schedule (PendingAppends.idle ui s))
  = append_all rt
      (PendingAppends.admitted (GPSLiveDataScreen.lastCachedAtRef ui) schedule) s.
Proof.
  intros Hserial Hdone. destruct (getAsyncStorage rt) as [asyncStorage|] eqn:Hst.
  - rewrite (serial_run asyncStorage schedule _ Hst Hserial Hdone); [reflexivity|].
    cbn. lia.
  - rewrite append_all_without_storage by exact Hst.
    now apply (run_without_storage schedule (PendingAppends.idle ui s)).
Qed.
End PendingFacts.

(** X7.  When no two appends are ever in flight together and every append
    that was started has settled, the store is in the state that
    [appendGPSData], called once per admitted sample in arrival order, leaves
    it in; the admitted positions are a subsequence of those that arrived.
    On a device store with nothing under the cache key a read then returns
    the admitted samples newest first, cut to 120. *)
Theorem watch_feeds_cache {S : Type} (rt : Runtime S)
    (schedule : list PendingAppends.event)
    (ui : GPSLiveDataScreen.State) (s : S) :
  let final := PendingAppends.run rt schedule (PendingAppends.idle ui s) in
  let last := GPSLiveDataScreen.lastCachedAtRef ui in
  PendingAppends.serial rt schedule (PendingAppends.idle ui s) = true →
  PendingAppends.calls final = [] →
  PendingAppends.store final = append_all rt (PendingAppends.admitted last schedule) s
  ∧ sublist (admitted_events last (PendingAppends.arrivals schedule))
      (PendingAppends.arrivals schedule)
  ∧ (∀ (disk : gmap string string) (final' : PendingAppends.Config (gmap string string)),
       disk !! GPS_CACHE_KEY = None →
       final' = PendingAppends.run with_storage schedule (PendingAppends.idle ui disk) →
       PendingAppends.serial with_storage schedule (PendingAppends.idle ui disk) = true →
       PendingAppends.calls final' = [] →
       fst (getCachedGPSData with_storage (PendingAppends.store final'))
       = Fulfilled (take MAX_CACHE_ITEMS
                      (rev (map stored_point (PendingAppends.admitted last schedule))))).
Proof.
  intros final last Hserial Hdone. split; [now apply settled_store|]. split.
  - apply admitted_events_sublist.
  - intros disk final' Hdisk -> Hserial' Hdone'.
    rewrite (settled_store with_storage schedule ui disk Hserial' Hdone').
    now rewrite read_after_appends.
Qed.

Lemma watch_feeds_cache_witness :
  PendingAppends.store
    (PendingAppends.run with_storage
       [PendingAppends.Arrive position_a 1700000000000; PendingAppends.Settle 0;
        PendingAppends.Arrive position_a 1700000001000; PendingAppends.Settle 0]
       (PendingAppends.idle GPSLiveDataScreen.initial ∅))
  = append_all with_storage [fix_a] ∅.
Proof.
  refine (proj1 (watch_feeds_cache with_storage
                   [PendingAppends.Arrive position_a 1700000000000; PendingAppends.Settle 0;
                    PendingAppends.Arrive position_a 1700000001000; PendingAppends.Settle 0]
                   GPSLiveDataScreen.initial ∅ _ _)).
  - reflexivity.
  - reflexivity.
Defined.

(** X18.  What the GPS screen has cached the Home screen shows: on a device
    store with nothing under the cache key, when no two appends were in
    flight together and all have settled, [load] publishes the admitted
    samples newest first, cut to 120, and clears the storage message. *)
Theorem home_shows_cached (schedule : list PendingAppends.event)
    (gps : GPSLiveDataScreen.State) (home : HomeScreen.State)
    (disk : gmap string string) :
  let final := PendingAppends.run with_storage schedule (PendingAppends.idle gps disk) in
  disk !! GPS_CACHE_KEY = None →
  PendingAppends.serial with_storage schedule (PendingAppends.idle gps disk) = true →
  PendingAppends.calls final = [] →
  HomeScreen.load with_storage home (PendingAppends.store final)
  = (Fulfilled tt,
     {| HomeScreen.cachedData :=
          take MAX_CACHE_ITEMS
            (rev (map stored_point
                    (PendingAppends.admitted (GPSLiveDataScreen.lastCachedAtRef gps)
                       schedule)));
        HomeScreen.storageMessage := None |},
     PendingAppends.store final).
Proof.
  intros final Hdisk Hserial Hdone. unfold HomeScreen.load.
  cbn [isStorageReady getAsyncStorage with_storage async_storage_module negb].
  unfold final. rewrite (settled_store with_storage schedule gps disk Hserial Hdone).
  rewrite read_after_appends by assumption. reflexivity.
Qed.

Lemma home_shows_cached_witness :
  HomeScreen.cachedData
    (HomeScreen.load with_storage HomeScreen.initial
       (PendingAppends.store
          (PendingAppends.run with_storage
             [PendingAppends.Arrive position_a 1700000000000; PendingAppends.Settle 0;
              PendingAppends.Settle 0; PendingAppends.Arrive position_a 1700000001000]
             (PendingAppends.idle GPSLiveDataScreen.initial ∅)))).1.2
  = [js_of_point fix_a].
Proof.
  assert (Hserial : PendingAppends.serial with_storage
            [PendingAppends.Arrive position_a 1700000000000; PendingAppends.Settle 0;
             PendingAppends.Settle 0; PendingAppends.Arrive position_a 1700000001000]
            (PendingAppends.idle GPSLiveDataScreen.initial ∅) = true)
    by (vm_compute; reflexivity).
  rewrite (home_shows_cached _ GPSLiveDataScreen.initial HomeScreen.initial ∅
             (lookup_empty _) Hserial); reflexivity.
Defined.

(** X24.  Appends that overlap lose a sample.  When a second admitted
    position arrives, and its append reads the store, before the append of
    the first has written, both appends fulfil and no failure is shown, yet
    the store ends as if the first sample had never been appended: a read
    returns the second sample in front of the window from before, without
    the first. *)
Theorem overlapping_appends_lose_sample
    (p1 p2 : GPSLiveDataScreen.GPSPosition) (t1 t2 : Z)
    (ui : GPSLiveDataScreen.State) (disk : gmap string string) (w : list json) :
  let final := PendingAppends.run with_storage (PendingAppends.overlapping p1 p2 t1 t2)
                 (PendingAppends.idle ui disk) in
  holds_window disk w →
  GPSLiveDataScreen.admits (GPSLiveDataScreen.lastCachedAtRef ui) t1 = true →
  GPSLiveDataScreen.admits t1 t2 = true →
  PendingAppends.admitted (GPSLiveDataScreen.lastCachedAtRef ui)
    (PendingAppends.overlapping p1 p2 t1 t2)
  = [GPSLiveDataScreen.sample_of p1; GPSLiveDataScreen.sample_of p2]
  ∧ PendingAppends.calls final = []
  ∧ GPSLiveDataScreen.storageMessage (PendingAppends.view final)
    = GPSLiveDataScreen.storageMessage ui
  ∧ PendingAppends.store final
    = snd (appendGPSData with_storage (GPSLiveDataScreen.sample_of p2) disk)
  ∧ fst (getCachedGPSData with_storage (PendingAppends.store final))
    = Fulfilled (take MAX_CACHE_ITEMS
                   (stored_point (GPSLiveDataScreen.sample_of p2) :: w))
  ∧ PendingAppends.serial with_storage (PendingAppends.overlapping p1 p2 t1 t2)
      (PendingAppends.idle ui disk) = false.
Proof.
  intros final Hw Hadm1 Hadm2.
  pose proof (read_holds_window disk w Hw) as Hread.
  destruct (append_holds_window disk w (GPSLiveDataScreen.sample_of p2) Hw)
    as [Happ Hw2]. cbn zeta in Happ.
  pose proof (read_holds_window _ _ Hw2) as Hread2.
  apply (f_equal snd) in Happ. cbn [snd] in Happ.
  revert Happ Hread2.
  generalize (snd (appendGPSData with_storage (GPSLiveDataScreen.sample_of p2) disk)).
  intros after Happ Hread2. clear Hw Hw2.
  assert (Hst : getAsyncStorage with_storage = Some device_storage) by reflexivity.
  assert (Hc3 : PendingAppends.step with_storage (PendingAppends.Arrive p2 t2)
            (PendingAppends.step with_storage (PendingAppends.Settle 0)
               (PendingAppends.step with_storage (PendingAppends.Arrive p1 t1)
                  (PendingAppends.idle ui disk)))
          = {| PendingAppends.view :=
                 {| GPSLiveDataScreen.gpsData := Some (GPSLiveDataScreen.sample_of p2);
                    GPSLiveDataScreen.errorMessage := None;
                    GPSLiveDataScreen.storageMessage := GPSLiveDataScreen.storageMessage ui;
                    GPSLiveDataScreen.lastCachedAtRef := t2 |};
               PendingAppends.store := disk;
               PendingAppends.calls :=
                 [PendingAppends.AwaitsWrite device_storage
                    (take MAX_CACHE_ITEMS
                       (js_of_point (GPSLiveDataScreen.sample_of p1) :: w));
                  PendingAppends.AwaitsRead device_storage
                    (GPSLiveDataScreen.sample_of p2)] |}).
  { cbn [PendingAppends.step]. unfold PendingAppends.idle.
    rewrite (arrive_admitted with_storage device_storage p1 t1 ui disk [] Hst Hadm1).
    cbn [app].
    erewrite (resume_read with_storage device_storage _ 0 _ disk disk _ w)
      by (first [exact Hread | reflexivity]).
    cbn [insert list_insert].
    erewrite (arrive_admitted with_storage device_storage p2 t2)
      by (first [exact Hst | exact Hadm2]).
    reflexivity. }
  assert (Hfinal : final
          = {| PendingAppends.view :=
                 {| GPSLiveDataScreen.gpsData := Some (GPSLiveDataScreen.sample_of p2);
                    GPSLiveDataScreen.errorMessage := None;
                    GPSLiveDataScreen.storageMessage := GPSLiveDataScreen.storageMessage ui;
                    GPSLiveDataScreen.lastCachedAtRef := t2 |};
               PendingAppends.store := after;
               PendingAppends.calls := [] |}).
  { unfold final, PendingAppends.overlapping, PendingAppends.run.
    cbn [fold_left]. rewrite Hc3. cbn [PendingAppends.step].
    erewrite (resume_read with_storage device_storage _ 1 _ disk disk _ w)
      by (first [exact Hread | reflexivity]).
    cbn [insert list_insert].
    erewrite (resume_write with_storage device_storage _ 0 _ disk) by reflexivity.
    cbn [delete list_delete].
    erewrite (resume_write with_storage device_storage _ 0) by reflexivity.
    cbn [delete list_delete]. rewrite insert_insert_eq, Happ. reflexivity. }
  split; [|split; [|split; [|split; [|split]]]].
  - unfold PendingAppends.admitted, PendingAppends.overlapping.
    cbn [PendingAppends.arrivals flat_map app admitted_events].
    rewrite Hadm1, Hadm2. reflexivity.
  - rewrite Hfinal. reflexivity.
  - rewrite Hfinal. reflexivity.
  - rewrite Hfinal. reflexivity.
  - rewrite Hfinal. cbn [PendingAppends.store]. rewrite Hread2. reflexivity.
  - unfold PendingAppends.overlapping. cbn [PendingAppends.serial].
    rewrite Hc3. cbn [PendingAppends.calls length Nat.leb].
    rewrite andb_false_l, !andb_false_r. reflexivity.
Qed.

Lemma overlapping_appends_lose_sample_witness :
  fst (getCachedGPSData with_storage
         (PendingAppends.store
            (PendingAppends.run with_storage
               (PendingAppends.overlapping position_a position_a
                  1700000000000 1700000005000)
               (PendingAppends.idle GPSLiveDataScreen.initial ∅))))
  = Fulfilled (take MAX_CACHE_ITEMS [stored_point (GPSLiveDataScreen.sample_of position_a)]).
Proof.
  refine (proj1 (proj2 (proj2 (proj2 (proj2
            (overlapping_appends_lose_sample position_a position_a
               1700000000000 1700000005000 GPSLiveDataScreen.initial ∅ []
               _ _ _)))))).
  - left. split; [apply lookup_empty | reflexivity].
  - reflexivity.
  - reflexivity.
Defined.
